(** * TaskFlow: verification of the markdown <-> SQLite sync engine

    Shallow embedding of [scripts/task-sync.mjs]: the lease lock on the
    [sync_state] singleton, the markdown record parser, the fingerprint,
    the diff engine, the files -> DB apply, the DB -> files projector, the
    [tasks] directory, the run of each mode and the signal handler.

    Strings are Stdlib [string]s (ASCII); SQLite's BINARY text comparison and
    JavaScript's code-unit comparison are both [String.compare]. *)

From Stdlib Require Import String Ascii List ZArith Bool Lia.
From Stdlib Require Import Permutation Sorting.Sorted.
Import ListNotations.
Open Scope Z_scope.
Open Scope string_scope.

(* ------------------------------------------------------------------ *)
(** ** Clock and timestamp formats *)

Module Clock.

(** Milliseconds since the Unix epoch, as returned by [Date.now()]. *)
Definition ms_per_day : Z := 86400000.

(** Civil date (year, month, day) of a day count since 1970-01-01
    (the proleptic Gregorian calendar used by [Date] and by SQLite). *)
Definition civil_from_days (days : Z) : Z * Z * Z :=
  let z := days + 719468 in
  let era := z / 146097 in
  let doe := z - era * 146097 in
  let yoe := (doe - doe / 1460 + doe / 36524 - doe / 146096) / 365 in
  let y := yoe + era * 400 in
  let doy := doe - (365 * yoe + yoe / 4 - yoe / 100) in
  let mp := (5 * doy + 2) / 153 in
  let d := doy - (153 * mp + 2) / 5 + 1 in
  let m := if Z.ltb mp 10 then mp + 3 else mp - 9 in
  (if Z.leb m 2 then y + 1 else y, m, d).

Definition digit (d : Z) : ascii := ascii_of_nat (48 + Z.to_nat d).

(** [n] decimal digits of [z], zero padded. *)
Fixpoint digits (n : nat) (z : Z) : string :=
  match n with
  | O => ""
  | S n' => digits n' (z / 10) ++ String (digit (z mod 10)) ""
  end.

Definition date_part (ms : Z) : string :=
  let '(y, m, d) := civil_from_days (ms / ms_per_day) in
  digits 4 y ++ "-" ++ digits 2 m ++ "-" ++ digits 2 d.

Definition hms_part (ms : Z) : string :=
  let t := ms mod ms_per_day in
  digits 2 (t / 3600000) ++ ":" ++ digits 2 ((t / 60000) mod 60) ++ ":"
    ++ digits 2 ((t / 1000) mod 60).

(** [new Date(ms).toISOString()]: [YYYY-MM-DDTHH:MM:SS.sssZ]. *)
Definition toISOString (ms : Z) : string :=
  date_part ms ++ "T" ++ hms_part ms ++ "." ++ digits 3 (ms mod 1000) ++ "Z".

(** SQLite's [datetime('now')]: [YYYY-MM-DD HH:MM:SS]. *)
Definition sqlite_datetime (ms : Z) : string :=
  date_part ms ++ " " ++ hms_part ms.

(** SQLite's [strftime('%Y-%m-%dT%H:%M:%fZ','now')]. *)
Definition sqlite_strftime_iso (ms : Z) : string :=
  date_part ms ++ "T" ++ hms_part ms ++ "." ++ digits 3 (ms mod 1000) ++ "Z".

End Clock.

(* ------------------------------------------------------------------ *)
(** ** The [sync_state] singleton and the lease lock *)

Module Lock.
Import Clock.

(** The row [sync_state WHERE id = 1]; [None] is SQL [NULL]. *)
Record sync_state := mk_sync_state {
  files_hash : option string;
  db_hash : option string;
  last_sync_at : option string;
  lock_owner : option string;
  lock_until : option string;
  last_result : option string
}.

Definition set_lock (st : sync_state) (o u : option string) : sync_state :=
  mk_sync_state (files_hash st) (db_hash st) (last_sync_at st) o u (last_result st).

(** SQL [lock_until < datetime('now')]: TEXT values compare with the BINARY
    collation; [NULL < x] is [NULL], which fails the [WHERE]. *)
Definition lock_expired (until : option string) (now : Z) : bool :=
  match until with
  | Some u => String.ltb u (sqlite_datetime now)
  | None => false
  end.

(** [WHERE id = 1 AND (lock_owner IS NULL OR lock_until < datetime('now'))] *)
Definition lock_free (st : sync_state) (now : Z) : bool :=
  match lock_owner st with
  | None => true
  | Some _ => lock_expired (lock_until st) now
  end.

(** Result of [acquireLock]: either the updated row, or [result.changes === 0],
    in which case the current owner and expiry are printed and the process
    exits with status 1. *)
Inductive lock_outcome :=
  | Acquired (st : sync_state)
  | Busy (owner until : option string).

Definition acquireLock (mode : string) (now : Z) (st : sync_state) : lock_outcome :=
  let owner := "task-sync:" ++ mode in
  let until := toISOString (now + 60000) in
  if lock_free st now
  then Acquired (set_lock st (Some owner) (Some until))
  else Busy (lock_owner st) (lock_until st).

(** [releaseLock(result)]: one unconditional [UPDATE ... WHERE id = 1]. *)
Definition releaseLock (result : string) (now : Z) (st : sync_state) : sync_state :=
  mk_sync_state (files_hash st) (db_hash st) (Some (toISOString now))
    None None (Some result).

End Lock.

(* ------------------------------------------------------------------ *)
(** ** Task records and the markdown parser ([parseTaskFile]) *)

Module Parse.

(** A task record as built by [parseTaskFile] and as selected by
    [getDbTasks]; [None] is [null]. *)
Record task := mk_task {
  id : string;
  project_id : string;
  title : string;
  status : string;
  priority : string;
  owner_model : option string;
  notes : option string;
  source_file : string
}.

(** JavaScript's [\s] and [String.prototype.trim] whitespace, on 7-bit
    ASCII characters (code points below 128), where the two agree; JavaScript
    also counts non-ASCII spaces such as U+00A0 and U+2028, which this
    definition does not see. Statements whose outcome depends on that
    difference are restricted to ASCII text ([ascii7] below). *)
Definition is_ws (c : ascii) : bool :=
  let n := nat_of_ascii c in
  ((9 <=? n)%nat && (n <=? 13)%nat) || (n =? 32)%nat.

(** Line terminators, which the regex [.] does not match: [\n] and [\r]
    among the 7-bit ASCII characters (JavaScript adds U+2028 and U+2029). *)
Definition is_term (c : ascii) : bool :=
  (nat_of_ascii c =? 10)%nat || (nat_of_ascii c =? 13)%nat.

Fixpoint drop_ws (s : string) : string :=
  match s with
  | String c s' => if is_ws c then drop_ws s' else s
  | EmptyString => EmptyString
  end.

Fixpoint rev_str (s : string) : string :=
  match s with
  | String c s' => rev_str s' ++ String c ""
  | EmptyString => EmptyString
  end.

(** [s.trim()] *)
Definition trim (s : string) : string := rev_str (drop_ws (rev_str (drop_ws s))).

(** [s.toLowerCase()] on ASCII. *)
Definition lower_char (c : ascii) : ascii :=
  let n := nat_of_ascii c in
  if ((65 <=? n)%nat && (n <=? 90)%nat) then ascii_of_nat (n + 32) else c.

Fixpoint toLowerCase (s : string) : string :=
  match s with
  | String c s' => String (lower_char c) (toLowerCase s')
  | EmptyString => EmptyString
  end.

(** [content.split(/\r?\n/)]: cut at every [\n]; a [\r] just before it is
    part of the separator. [cur] is the current line, reversed. *)
Fixpoint split_acc (cur : list ascii) (s : string) : list string :=
  match s with
  | EmptyString => [string_of_list_ascii (rev cur)]
  | String c s' =>
      if (nat_of_ascii c =? 10)%nat then
        let cur' := match cur with
                    | c0 :: r => if (nat_of_ascii c0 =? 13)%nat then r else cur
                    | [] => []
                    end in
        string_of_list_ascii (rev cur') :: split_acc [] s'
      else split_acc (c :: cur) s'
  end.

Definition split_lines (s : string) : list string := split_acc [] s.

(** [(.+)$] at the end of a pattern: at least one character, no line
    terminator (no [m] flag, so [$] is the end of the input). *)
Fixpoint no_term (s : string) : bool :=
  match s with
  | String c s' => negb (is_term c) && no_term s'
  | EmptyString => true
  end.

Definition dot_plus_end (s : string) : bool :=
  match s with
  | EmptyString => false
  | _ => no_term s
  end.

(** Backtracking search: the first alternative, in priority order, that
    leads to a match. *)
Fixpoint first_some {A B : Type} (l : list A) (f : A -> option B) : option B :=
  match l with
  | [] => None
  | a :: l' => match f a with Some b => Some b | None => first_some l' f end
  end.

(** Choices of a greedy [\s*] (or [\s+] with [min = 1]): the remainders after
    consuming as many whitespace characters as possible first, then fewer. *)
Fixpoint ws_choices_from (s : string) : list string :=
  match s with
  | String c s' => if is_ws c then ws_choices_from s' ++ [s] else [s]
  | EmptyString => [EmptyString]
  end%list.

Definition ws_star (s : string) : list string := ws_choices_from s.

(** [[^\]]*] followed by [\]]: the content up to the first [']'] and the
    remainder after it. *)
Fixpoint upto_bracket (s : string) : option (string * string) :=
  match s with
  | EmptyString => None
  | String c s' =>
      if (nat_of_ascii c =? 93)%nat then Some (EmptyString, s')
      else match upto_bracket s' with
           | Some (a, r) => Some (String c a, r)
           | None => None
           end
  end.

(** Choices of the greedy optional group [(?:\[([^\]]* )\])?]: the group
    first, then its omission. *)
Definition opt_tag (s : string) : list (option string * string) :=
  match s with
  | String c s' =>
      if (nat_of_ascii c =? 91)%nat then
        match upto_bracket s' with
        | Some (a, r) => [(Some a, r); (None, s)]
        | None => [(None, s)]
        end
      else [(None, s)]
  | EmptyString => [(None, s)]
  end.

(** [[a-z0-9-]] *)
Definition is_id_char (c : ascii) : bool :=
  let n := nat_of_ascii c in
  ((97 <=? n)%nat && (n <=? 122)%nat) || ((48 <=? n)%nat && (n <=? 57)%nat)
  || (n =? 45)%nat.

Fixpoint span_id (s : string) : string * string :=
  match s with
  | String c s' =>
      if is_id_char c then let (a, r) := span_id s' in (String c a, r)
      else (EmptyString, s)
  | EmptyString => (EmptyString, EmptyString)
  end.

Definition ascii_eqb (c : ascii) (n : nat) : bool := (nat_of_ascii c =? n)%nat.

(** [TASK_RE = /^- \[([ x])\] \(task:([a-z0-9-]+)\)\s*(?:\[([^\]]* )\])?\s*(?:\[([^\]]* )\])?\s*(.+)$/]
    (a space is inserted after each star so the comment stays open):
    the captures (checkbox, id, tag1, tag2, title) of the first match.
    [[a-z0-9-]+] followed by [\)] has a single way to match. *)
Definition match_task (line : string) :
    option (ascii * string * option string * option string * string) :=
  match line with
  | String "-" (String " " (String "[" (String cb (String "]" (String " " (String "("
      (String "t" (String "a" (String "s" (String "k" (String ":" rest))))))))))) =>
      if ascii_eqb cb 32 || ascii_eqb cb 120 then
        let (tid, r) := span_id rest in
        match tid, r with
        | String _ _, String ")" r0 =>
            first_some (ws_star r0) (fun r1 =>
            first_some (opt_tag r1) (fun '(tag1, r2) =>
            first_some (ws_star r2) (fun r3 =>
            first_some (opt_tag r3) (fun '(tag2, r4) =>
            first_some (ws_star r4) (fun r5 =>
              if dot_plus_end r5 then Some (cb, tid, tag1, tag2, r5) else None)))))
        | _, _ => None
        end
      else None
  | _ => None
  end.

(** [/^## (.+)$/] *)
Definition match_header (line : string) : option string :=
  match line with
  | String "#" (String "#" (String " " rest)) =>
      if dot_plus_end rest then Some rest else None
  | _ => None
  end.

(** [/^\s+- note:\s*(.+)$/]: [\s+] has a single way to reach the [-]. *)
Definition match_note (line : string) : option string :=
  match line with
  | String c _ =>
      if is_ws c then
        match drop_ws line with
        | String "-" (String " " (String "n" (String "o" (String "t" (String "e"
            (String ":" rest)))))) =>
            first_some (ws_star rest) (fun r =>
              if dot_plus_end r then Some r else None)
        | _ => None
        end
      else None
  | EmptyString => None
  end.

(** [STATUS_MAP[normalized] || null], on the own keys of the object
    literal. For ["constructor"] and ["__proto__"] the real lookup returns
    an inherited member of [Object.prototype] (truthy, not a string), which
    this model does not represent: statements about parsed statuses exclude
    such headers ([proto_free]). *)
Definition STATUS_MAP (k : string) : option string :=
  if k =? "in progress" then Some "in_progress"
  else if k =? "pending validation" then Some "pending_validation"
  else if k =? "backlog" then Some "backlog"
  else if k =? "done" then Some "done"
  else if k =? "blocked" then Some "blocked"
  else None.

(** [/^P\d$/] *)
Definition is_priority_tag (s : string) : bool :=
  match s with
  | String "P" (String d EmptyString) =>
      (48 <=? nat_of_ascii d)%nat && (nat_of_ascii d <=? 57)%nat
  | _ => false
  end.

(** [for (const tag of [tag1, tag2]) { if (!tag) continue; ... }] *)
Definition classify_tag (acc : string * option string) (tag : option string)
    : string * option string :=
  match tag with
  | None | Some EmptyString => acc
  | Some t => if is_priority_tag t then (t, snd acc) else (fst acc, Some t)
  end.

Definition tags_of (tag1 tag2 : option string) : string * option string :=
  classify_tag (classify_tag ("P2", None) tag1) tag2.

(** The note attached from [lines[i + 1]]. *)
Definition note_of (next : list string) : option string :=
  match next with
  | l :: _ => match match_note l with Some n => Some (trim n) | None => None end
  | [] => None
  end.

Definition source_of (slug : string) : string := "tasks/" ++ slug ++ "-tasks.md".

(** The loop of [parseTaskFile] over [lines], with [currentStatus]. *)
Fixpoint parse_lines (slug : string) (cur : option string) (lines : list string)
    : list task :=
  match lines with
  | [] => []
  | line :: rest =>
      match match_header line with
      | Some h => parse_lines slug (STATUS_MAP (toLowerCase (trim h))) rest
      | None =>
          match cur with
          | None => parse_lines slug None rest
          | Some st =>
              match match_task line with
              | Some (_, tid, tag1, tag2, ttl) =>
                  let (prio, model) := tags_of tag1 tag2 in
                  mk_task tid slug (trim ttl) st prio model (note_of rest)
                    (source_of slug)
                  :: parse_lines slug cur rest
              | None => parse_lines slug cur rest
              end
          end
      end
  end.

(** [parseTaskFile] on the content of [tasks/<slug>-tasks.md]. *)
Definition parseTaskFile (slug : string) (content : string) : list task :=
  parse_lines slug None (split_lines content).

(** [parseAllFiles]: the [-tasks.md] files in directory order. *)
Definition parseAllFiles (files : list (string * string)) : list task :=
  flat_map (fun '(slug, content) => parseTaskFile slug content) files.

End Parse.

(* ------------------------------------------------------------------ *)
(** ** Fingerprint ([hashTasks]) and diff engine ([diffTasks]) *)

Module Diff.
Import Parse.

Definition nl : string := String (ascii_of_nat 10) EmptyString.

(** [a.localeCompare(b)], as the code-unit order. On strings of
    [[a-z0-9-]] (the ids the parser accepts) and on priorities [P0]..[P9]
    the ICU root collation order is the code point order and ties only
    equal strings; on other strings ICU may order differently or tie
    distinct strings, so statements whose outcome depends on the order
    assume ids of [[a-z0-9-]] ([id_ok]). *)
Definition localeCompare (a b : string) : comparison := String.compare a b.

(** [Array.prototype.sort] with a comparator: stable (ES2019); an insertion
    sort that places each element after the elements it is not below. *)
Fixpoint insert_by {A : Type} (cmp : A -> A -> comparison) (x : A) (l : list A)
    : list A :=
  match l with
  | [] => [x]
  | y :: l' => match cmp x y with
               | Lt => x :: l
               | _ => y :: insert_by cmp x l'
               end
  end.

Definition sort_by {A : Type} (cmp : A -> A -> comparison) (l : list A) : list A :=
  fold_left (fun acc x => insert_by cmp x acc) l [].

Definition by_id (a b : task) : comparison := localeCompare (id a) (id b).

(** [x || ''] on a nullable string. *)
Definition or_empty (o : option string) : string :=
  match o with Some s => s | None => "" end.

Definition hash_line (t : task) : string :=
  id t ++ "|" ++ status t ++ "|" ++ priority t ++ "|" ++ or_empty (owner_model t)
    ++ "|" ++ title t ++ "|" ++ or_empty (notes t).

(** The digest input: sorted by id, one line per record, joined by [\n]. *)
Definition hash_data (tasks : list task) : string :=
  String.concat nl (map hash_line (sort_by by_id tasks)).

(** [createHash('sha256').update(data).digest('hex').slice(0, 16)]; the
    digest [sha256_hex] is a parameter of every statement. *)
Definition hashTasks (sha256_hex : string -> string) (tasks : list task) : string :=
  substring 0 16 (sha256_hex (hash_data tasks)).

(** A JavaScript [Map] keyed by string, in insertion order: [set] on an
    existing key replaces the value in place. *)
Fixpoint map_set {A : Type} (m : list (string * A)) (k : string) (v : A)
    : list (string * A) :=
  match m with
  | [] => [(k, v)]
  | (k', v') :: m' => if k' =? k then (k', v) :: m' else (k', v') :: map_set m' k v
  end.

Fixpoint map_get {A : Type} (m : list (string * A)) (k : string) : option A :=
  match m with
  | [] => None
  | (k', v) :: m' => if k' =? k then Some v else map_get m' k
  end.

(** [new Map(tasks.map(t => [t.id, t]))] *)
Definition map_of (l : list task) : list (string * task) :=
  fold_left (fun m t => map_set m (id t) t) l [].

(** [x || null] on a nullable string. *)
Definition norm_owner (o : option string) : option string :=
  match o with Some EmptyString => None | _ => o end.

Definition opt_eqb (a b : option string) : bool :=
  match a, b with
  | Some x, Some y => x =? y
  | None, None => true
  | _, _ => false
  end.

(** The entries of the [changes] array. *)
Inductive change :=
  | Ch_status (from to : string)
  | Ch_priority (from to : string)
  | Ch_model (from to : option string)
  | Ch_title.

Definition changes (ft dt : task) : list change :=
  (if status ft =? status dt then [] else [Ch_status (status dt) (status ft)])
  ++ (if priority ft =? priority dt then [] else [Ch_priority (priority dt) (priority ft)])
  ++ (if opt_eqb (norm_owner (owner_model ft)) (norm_owner (owner_model dt)) then []
      else [Ch_model (owner_model dt) (owner_model ft)])
  ++ (if title ft =? title dt then [] else [Ch_title]).

Inductive diff :=
  | File_only (k : string) (t : task)
  | Changed (k : string) (chs : list change) (ft dt : task)
  | Db_only (k : string) (t : task).

Definition diffTasks (fileTasks dbTasks : list task) : list diff :=
  let fileMap := map_of fileTasks in
  let dbMap := map_of dbTasks in
  flat_map (fun '(k, ft) =>
              match map_get dbMap k with
              | None => [File_only k ft]
              | Some dt => match changes ft dt with
                           | [] => []
                           | chs => [Changed k chs ft dt]
                           end
              end) fileMap
  ++ flat_map (fun '(k, dt) =>
                 match map_get fileMap k with
                 | None => [Db_only k dt]
                 | Some _ => []
                 end) dbMap.

(** The [check] mode: the diff, both fingerprints and the exit status. *)
Record check_report := mk_check_report {
  report_diffs : list diff;
  report_file_hash : string;
  report_db_hash : string;
  exit_code : Z
}.

Definition check (sha256_hex : string -> string) (fileTasks dbTasks : list task)
    : check_report :=
  let diffs := diffTasks fileTasks dbTasks in
  mk_check_report diffs (hashTasks sha256_hex fileTasks) (hashTasks sha256_hex dbTasks)
    (match diffs with [] => 0 | _ => 1 end).

End Diff.

(* ------------------------------------------------------------------ *)
(** ** The store and the files -> DB apply ([syncFilesToDb]) *)

Module Store.
Import Clock Lock Parse Diff.

(** A row of [projects]. *)
Record project := mk_project {
  p_id : string;
  p_name : string;
  p_description : string;
  p_status : string;
  p_source_file : string
}.

(** A row of [tasks_v2]: the columns [getDbTasks] selects, and the
    timestamps ([legacy_key] is never written by the sync). *)
Record row := mk_row {
  r_task : task;
  r_created_at : string;
  r_updated_at : string
}.

(** The [reason] column of [task_transitions_v2]. *)
Inductive reason :=
  | Added_via_file_sync
  | File_sync (chs : list change).

(** A row of [task_transitions_v2]; the autoincrement id is the position in
    the list. *)
Record transition := mk_transition {
  tr_task_id : string;
  tr_from : option string;
  tr_to : string;
  tr_reason : reason;
  tr_actor : string;
  tr_at : string
}.

Record store := mk_store {
  projects : list project;
  tasks_v2 : list row;
  transitions : list transition;
  sync : sync_state
}.

(** Failures of a statement: a [CHECK] or a [FOREIGN KEY] constraint. *)
Inductive sql_error :=
  | Check_failed (column : string)
  | Foreign_key_failed.

(** Each statement runs on its own (autocommit): a failing statement leaves
    the store as the previous statements made it, and the exception
    propagates. *)
Definition M (A : Type) : Type := store -> (A + sql_error) * store.

Definition ret {A : Type} (a : A) : M A := fun s => (inl a, s).

Definition bind {A B : Type} (m : M A) (k : A -> M B) : M B :=
  fun s => match m s with
           | (inl a, s') => k a s'
           | (inr e, s') => (inr e, s')
           end.

Definition throw {A : Type} (e : sql_error) : M A := fun s => (inr e, s).
Definition get : M store := fun s => (inl s, s).
Definition put (s : store) : M unit := fun _ => (inl tt, s).

Notation "x <- m ;; k" := (bind m (fun x => k))
  (at level 61, m at next level, right associativity).
Notation "m ;;; k" := (bind m (fun _ => k))
  (at level 61, right associativity).

Definition set_projects (s : store) (ps : list project) : store :=
  mk_store ps (tasks_v2 s) (transitions s) (sync s).
Definition set_tasks (s : store) (rs : list row) : store :=
  mk_store (projects s) rs (transitions s) (sync s).
Definition set_transitions (s : store) (ts : list transition) : store :=
  mk_store (projects s) (tasks_v2 s) ts (sync s).
Definition set_sync (s : store) (st : sync_state) : store :=
  mk_store (projects s) (tasks_v2 s) (transitions s) st.

Definition valid_status (s : string) : bool :=
  existsb (String.eqb s) ["backlog"; "in_progress"; "pending_validation"; "done"; "blocked"].

Definition valid_priority (p : string) : bool :=
  existsb (String.eqb p) ["P0"; "P1"; "P2"; "P3"; "P9"].

Fixpoint find_row (k : string) (rs : list row) : option row :=
  match rs with
  | [] => None
  | r :: rs' => if id (r_task r) =? k then Some r else find_row k rs'
  end.

Fixpoint replace_row (k : string) (r : row) (rs : list row) : list row :=
  match rs with
  | [] => []
  | r' :: rs' => if id (r_task r') =? k then r :: rs' else r' :: replace_row k r rs'
  end.

(** [COALESCE(x, '')] *)
Definition coalesce_empty (o : option string) : string := or_empty o.

(** The prepared [upsert]: [INSERT ... ON CONFLICT(id) DO UPDATE SET ...].
    [now] is [strftime('%Y-%m-%dT%H:%M:%fZ','now')]. *)
Definition upsert (t : task) (now : string) : M unit := fun s =>
  if negb (valid_status (status t)) then (inr (Check_failed "status"), s)
  else if negb (valid_priority (priority t)) then (inr (Check_failed "priority"), s)
  else match find_row (id t) (tasks_v2 s) with
  | None =>
      if existsb (fun p => p_id p =? project_id t) (projects s)
      then (inl tt, set_tasks s (tasks_v2 s ++ [mk_row t now now])%list)
      else (inr Foreign_key_failed, s)
  | Some r =>
      let old := r_task r in
      let t' := mk_task (id old) (project_id old) (title t) (status t) (priority t)
                  (owner_model t)
                  (match notes t with Some n => Some n | None => notes old end)
                  (source_file t) in
      let upd := if negb (title old =? title t) || negb (status old =? status t)
                    || negb (priority old =? priority t)
                    || negb (coalesce_empty (owner_model old)
                             =? coalesce_empty (owner_model t))
                 then now else r_updated_at r in
      (inl tt, set_tasks s (replace_row (id t) (mk_row t' (r_created_at r) upd)
                              (tasks_v2 s)))
  end.

(** The prepared [insertTransition], actor ['sync']. *)
Definition insertTransition (k : string) (from : option string) (to : string)
    (rsn : reason) (now : string) : M unit := fun s =>
  match find_row k (tasks_v2 s) with
  | Some _ => (inl tt, set_transitions s
                          (transitions s ++ [mk_transition k from to rsn "sync" now])%list)
  | None => (inr Foreign_key_failed, s)
  end.

(** [replace(/-/g, ' ').replace(/\b\w/g, c => c.toUpperCase())] *)
Definition is_word (c : ascii) : bool :=
  let n := nat_of_ascii c in
  ((97 <=? n)%nat && (n <=? 122)%nat) || ((65 <=? n)%nat && (n <=? 90)%nat)
  || ((48 <=? n)%nat && (n <=? 57)%nat) || (n =? 95)%nat.

Definition upper_char (c : ascii) : ascii :=
  let n := nat_of_ascii c in
  if ((97 <=? n)%nat && (n <=? 122)%nat) then ascii_of_nat (n - 32) else c.

Fixpoint title_case (prev_word : bool) (s : string) : string :=
  match s with
  | EmptyString => EmptyString
  | String c s' =>
      let c' := if ascii_eqb c 45 then " "%char else c in
      String (if is_word c' && negb prev_word then upper_char c' else c')
             (title_case (is_word c') s')
  end.

Definition project_name (slug : string) : string := title_case false slug.

(** The prepared [upsertProject]: [INSERT OR IGNORE INTO projects ...]. *)
Definition upsertProject (slug name src : string) : M unit := fun s =>
  if existsb (fun p => p_id p =? slug) (projects s) then (inl tt, s)
  else (inl tt, set_projects s (projects s ++ [mk_project slug name "" "active" src])%list).

(** The loop that auto-creates projects referenced by the files. *)
Fixpoint create_missing (known missing : list string) (ts : list task) : M unit :=
  match ts with
  | [] => ret tt
  | t :: ts' =>
      if negb (existsb (String.eqb (project_id t)) known)
         && negb (existsb (String.eqb (project_id t)) missing)
      then upsertProject (project_id t) (project_name (project_id t))
             (source_of (project_id t)) ;;;
           create_missing known (project_id t :: missing) ts'
      else create_missing known missing ts'
  end.

(** The loop [for (const diff of diffs)] with the counters [added],
    [updated]. *)
Fixpoint apply_diffs (ds : list diff) (now : string) (added updated : nat)
    : M (nat * nat) :=
  match ds with
  | [] => ret (added, updated)
  | File_only _ t :: ds' =>
      upsert t now ;;;
      insertTransition (id t) None (status t) Added_via_file_sync now ;;;
      apply_diffs ds' now (S added) updated
  | Changed _ chs t dt :: ds' =>
      upsert t now ;;;
      (if negb (status dt =? status t)
       then insertTransition (id t) (Some (status dt)) (status t) (File_sync chs) now
       else ret tt) ;;;
      apply_diffs ds' now added (S updated)
  | Db_only _ _ :: ds' => apply_diffs ds' now added updated
  end.

(** [getDbTasks]: [SELECT ... FROM tasks_v2 ORDER BY id]. *)
Definition getDbTasks (s : store) : list task :=
  sort_by by_id (map r_task (tasks_v2 s)).

Definition set_hashes (st : sync_state) (fh dh : string) : sync_state :=
  mk_sync_state (Some fh) (Some dh) (last_sync_at st) (lock_owner st)
    (lock_until st) (last_result st).

Definition is_db_only (d : diff) : bool :=
  match d with Db_only _ _ => true | _ => false end.

(** [syncFilesToDb(fileTasks, dbTasks, diffs)]; the files are not edited
    during the run, so [parseAllFiles()] at the end returns [fileTasks]. *)
Definition syncFilesToDb (sha256_hex : string -> string)
    (fileTasks : list task) (diffs : list diff) (now : string)
    : M (nat * nat * nat) :=
  s <- get ;;
  create_missing (map p_id (projects s)) [] fileTasks ;;;
  counts <- apply_diffs diffs now 0 0 ;;
  s' <- get ;;
  put (set_sync s' (set_hashes (sync s') (hashTasks sha256_hex fileTasks)
                      (hashTasks sha256_hex (getDbTasks s')))) ;;;
  ret (fst counts, snd counts, length (filter is_db_only diffs)).

(** The [files-to-db] mode after the lock: read both sides, diff, apply. *)
Definition files_to_db (sha256_hex : string -> string) (fileTasks : list task)
    (now : string) : M (nat * nat * nat) :=
  s <- get ;;
  syncFilesToDb sha256_hex fileTasks (diffTasks fileTasks (getDbTasks s)) now.

End Store.

(* ------------------------------------------------------------------ *)
(** ** The DB -> files projector ([projectDbToFiles]) *)

Module Project.
Import Parse Diff.

Definition STATUS_ORDER : list string :=
  ["in_progress"; "pending_validation"; "blocked"; "backlog"; "done"].

Definition STATUS_HEADERS (s : string) : string :=
  if s =? "in_progress" then "In Progress"
  else if s =? "pending_validation" then "Pending Validation"
  else if s =? "blocked" then "Blocked"
  else if s =? "backlog" then "Backlog"
  else if s =? "done" then "Done"
  else "undefined".

(** [a.priority.localeCompare(b.priority) || a.id.localeCompare(b.id)] *)
Definition by_priority_id (a b : task) : comparison :=
  match localeCompare (priority a) (priority b) with
  | Eq => localeCompare (id a) (id b)
  | c => c
  end.

(** JavaScript truthiness of a nullable string. *)
Definition truthy (o : option string) : option string :=
  match o with Some EmptyString | None => None | Some s => Some s end.

Definition render_task (t : task) : string :=
  let checkbox := if status t =? "done" then "[x]" else "[ ]" in
  let modelTag := match truthy (owner_model t) with
                  | Some o => " [" ++ o ++ "]"
                  | None => ""
                  end in
  "- " ++ checkbox ++ " (task:" ++ id t ++ ") [" ++ priority t ++ "]" ++ modelTag
    ++ " " ++ title t ++ nl
    ++ match truthy (notes t) with
       | Some n => "  - note: " ++ n ++ nl
       | None => ""
       end.

Fixpoint sconcat (l : list string) : string :=
  match l with [] => "" | s :: l' => s ++ sconcat l' end.

Definition section_tasks (tasks : list task) (section : string) : list task :=
  sort_by by_priority_id (filter (fun t => status t =? section) tasks).

Definition render_section (tasks : list task) (section : string) : string :=
  "## " ++ STATUS_HEADERS section ++ nl ++
  match section_tasks tasks section with
  | [] => nl
  | sts => sconcat (map render_task sts) ++ nl
  end.

(** [md], for one project. *)
Definition render_file (header : string) (tasks : list task) : string :=
  header ++ nl ++ nl ++ sconcat (map (render_section tasks) STATUS_ORDER).

Definition starts_with_hh (line : string) : bool :=
  match line with
  | String "#" (String "#" (String " " _)) => true
  | _ => false
  end.

Fixpoint take_preamble (lines : list string) : list string :=
  match lines with
  | [] => []
  | l :: ls => if starts_with_hh l then [] else l :: take_preamble ls
  end.

(** [trimEnd()] *)
Definition trimEnd (s : string) : string := rev_str (drop_ws (rev_str s)).

(** The preserved header of an existing file: the lines before the first
    [## ] line, joined by [\n], [trimEnd]-ed. *)
Definition preamble (content : string) : string :=
  trimEnd (String.concat nl (take_preamble (split_lines content))).

Fixpoint lookup_file (files : list (string * string)) (slug : string) : option string :=
  match files with
  | [] => None
  | (s, c) :: fs => if s =? slug then Some c else lookup_file fs slug
  end.

(** [headers.get(slug) || `# Tasks: ${slug}`] *)
Definition header_for (files : list (string * string)) (slug : string) : string :=
  match lookup_file files slug with
  | Some c => match preamble c with
              | EmptyString => "# Tasks: " ++ slug
              | h => h
              end
  | None => "# Tasks: " ++ slug
  end.

(** [projectDbToFiles(dbTasks)]: [files] are the existing [<slug>-tasks.md]
    files (slug, content), [slugs] is [SELECT id FROM projects ORDER BY id];
    the result is the list of files written, (slug, content). *)
Definition projectDbToFiles (files : list (string * string)) (slugs : list string)
    (dbTasks : list task) : list (string * string) :=
  map (fun slug =>
         (slug, render_file (header_for files slug)
                  (filter (fun t => project_id t =? slug) dbTasks)))
      slugs.

End Project.

(* ------------------------------------------------------------------ *)
(** ** The script: the task files, the run of a mode, the signal handler *)

Module Main.
Import Clock Lock Parse Diff Store Project.

Definition TASKS_SUFFIX : string := "-tasks.md".

(** The [p] with [s = p ++ suf], found scanning [s] from the left. *)
Fixpoint strip_suffix_opt (s suf : string) : option string :=
  if s =? suf then Some ""
  else match s with
       | EmptyString => None
       | String c s' => option_map (String c) (strip_suffix_opt s' suf)
       end.

(** [f.endsWith('-tasks.md')] *)
Definition endsWith (s suf : string) : bool :=
  match strip_suffix_opt s suf with Some _ => true | None => false end.

(** [f.replace(/-tasks\.md$/, '')] *)
Definition strip_tasks_suffix (f : string) : string :=
  match strip_suffix_opt f TASKS_SUFFIX with Some p => p | None => f end.

(** The [tasks] directory: (file name, content) in [readdirSync] order. *)
Definition dir : Type := list (string * string).

(** [readdirSync(tasksDir).filter(f => f.endsWith('-tasks.md'))], each file
    with its slug and its content. *)
Definition task_files (d : dir) : list (string * string) :=
  map (fun '(f, c) => (strip_tasks_suffix f, c))
      (filter (fun '(f, _) => endsWith f TASKS_SUFFIX) d).

(** [writeFileSync(path.join(tasksDir, name), content)]: an existing file is
    overwritten in place, a new one is added at the end. *)
Fixpoint writeFileSync (d : dir) (name content : string) : dir :=
  match d with
  | [] => [(name, content)]
  | (n, c) :: d' => if n =? name then (n, content) :: d' else (n, c) :: writeFileSync d' name content
  end.

(** The loop [for (const slug of slugs) { ... writeFileSync(...) }]. *)
Definition write_projection (d : dir) (written : list (string * string)) : dir :=
  fold_left (fun d '(slug, md) => writeFileSync d (slug ++ TASKS_SUFFIX) md) written d.

(** [SELECT id FROM projects ORDER BY id] *)
Definition project_slugs (s : store) : list string :=
  sort_by String.compare (map p_id (projects s)).

Record world := mk_world { w_store : store; w_dir : dir }.

(** The clock readings of a run: [Date.now()] in [acquireLock], SQLite's
    ['now'] during the apply, [new Date()] in [releaseLock]. *)
Record clock := mk_clock { t_lock : Z; t_apply : Z; t_release : Z }.

Definition release_in (result : string) (now : Z) (s : store) : store :=
  set_sync s (releaseLock result now (sync s)).

Definition modes : list string := ["files-to-db"; "check"; "db-to-files"].

(** The script: the mode check, then the [try] block of [MAIN] with its
    [catch]; [message e] is [err.message]. The result is the exit status and
    the final state. *)
Definition main (sha256_hex : string -> string) (message : sql_error -> string)
    (mode : string) (ck : clock) (w : world) : Z * world :=
  if negb (existsb (String.eqb mode) modes) then (1, w) else
  let acquired :=
    if mode =? "check" then Some (w_store w)
    else match acquireLock mode (t_lock ck) (sync (w_store w)) with
         | Acquired st => Some (set_sync (w_store w) st)
         | Busy _ _ => None
         end in
  match acquired with
  | None => (1, w)
  | Some s1 =>
      let fileTasks := parseAllFiles (task_files (w_dir w)) in
      let dbTasks := getDbTasks s1 in
      let diffs := diffTasks fileTasks dbTasks in
      if mode =? "check" then (exit_code (check sha256_hex fileTasks dbTasks), w)
      else if mode =? "files-to-db" then
        match syncFilesToDb sha256_hex fileTasks diffs (sqlite_strftime_iso (t_apply ck)) s1 with
        | (inl _, s2) => (0, mk_world (release_in "ok" (t_release ck) s2) (w_dir w))
        | (inr e, s2) =>
            (1, mk_world (release_in ("failed: " ++ message e) (t_release ck) s2) (w_dir w))
        end
      else
        let freshDbTasks := getDbTasks s1 in
        let written := projectDbToFiles (task_files (w_dir w)) (project_slugs s1) freshDbTasks in
        (0, mk_world (release_in "ok" (t_release ck) s1) (write_projection (w_dir w) written))
  end.

(** [handleSignal(signal)] while [lockAcquired] has the value given. *)
Definition handleSignal (lockAcquired : bool) (signal : string) (now : Z) (s : store) : Z * store :=
  let s' := if lockAcquired then release_in ("interrupted: " ++ signal) now s else s in
  (if signal =? "SIGTERM" then 0 else 130, s').

End Main.

(* ------------------------------------------------------------------ *)
(** ** Reference notions used in the statements *)

Module Spec.
Import Parse Diff Store.

(** The record a [Map] keyed by id holds for [k]: the last one with that id. *)
Definition last_with (k : string) (l : list task) : option task :=
  fold_left (fun acc t => if id t =? k then Some t else acc) l None.

(** Field equality on the fields the diff compares; a missing owner and an
    empty one are the same. *)
Definition agree_fields (a b : task) : Prop :=
  status a = status b /\ priority a = priority b
  /\ norm_owner (owner_model a) = norm_owner (owner_model b) /\ title a = title b.

(** The two sides agree on key [k]: both lack it, or both have it with
    [agree_fields]. *)
Definition keyed_agree (x y : option task) : Prop :=
  match x, y with
  | None, None => True
  | Some a, Some b => agree_fields a b
  | _, _ => False
  end.

(** The part of a [task_transitions_v2] row the spec talks about. *)
Definition tr_triple (tr : transition) : string * option string * string :=
  (tr_task_id tr, tr_from tr, tr_to tr).

(** The transitions a diff should log: an added record logs
    (id, none, status); a changed record logs (id, old status, new status)
    when the status differs, and nothing otherwise. *)
Definition diff_triples (d : diff) : list (string * option string * string) :=
  match d with
  | File_only _ t => [(id t, None, status t)]
  | Changed _ _ t dt => if status dt =? status t then [] else [(id t, Some (status dt), status t)]
  | Db_only _ _ => []
  end.

(** The transitions an apply of the file records [f] over the store records
    [d] should log, in the order of the ids' first occurrence in [f]. *)
Definition expected_transitions (f d : list task) : list (string * option string * string) :=
  flat_map (fun e : string * task =>
              let '(k, ft) := e in
              match last_with k d with
              | None => [(id ft, None, status ft)]
              | Some dt => if status dt =? status ft then []
                           else [(id ft, Some (status dt), status ft)]
              end) (map_of f).


Definition id_lt (a b : task) : Prop := String.compare (id a) (id b) = Lt.

Definition key_rows (k : string) (rs : list row) : list row :=
  filter (fun r => id (r_task r) =? k) rs.

Definition row_ids (rs : list row) : list string := map (fun r => id (r_task r)) rs.

(** The key a diff writes to. *)
Definition diff_key (d : diff) : option string :=
  match d with
  | File_only _ t => Some (id t)
  | Changed _ _ t _ => Some (id t)
  | Db_only _ _ => None
  end.

(** [diffTasks], split into the part from the file side and the part
    from the store side. *)
Definition file_entry_diffs (dbMap : list (string * task)) (e : string * task) : list diff :=
  let '(k, ft) := e in
  match map_get dbMap k with
  | None => [File_only k ft]
  | Some dt => match changes ft dt with [] => [] | chs => [Changed k chs ft dt] end
  end.

Definition db_entry_diffs (fileMap : list (string * task)) (e : string * task) : list diff :=
  let '(k, dt) := e in
  match map_get fileMap k with None => [Db_only k dt] | Some _ => [] end.

End Spec.

(* ------------------------------------------------------------------ *)
(** ** Canonical text, line by line *)

Module RoundTrip.
Import Parse Diff Store Project Spec.

Fixpoint all_chars (p : ascii -> bool) (s : string) : bool :=
  match s with
  | String c s' => p c && all_chars p s'
  | EmptyString => true
  end.

(** Only 7-bit ASCII characters, on which [is_ws], [is_term], [trim],
    [trimEnd] and [toLowerCase] are those of JavaScript. *)
Definition ascii7 (s : string) : bool := all_chars (fun c => (nat_of_ascii c <? 128)%nat) s.

Definition opt_ascii7 (o : option string) : bool :=
  match o with Some x => ascii7 x | None => true end.

(** A stored task whose free-text fields are ASCII. *)
Definition ascii_task (t : task) : bool :=
  opt_ascii7 (owner_model t) && ascii7 (title t) && opt_ascii7 (notes t).

Definition starts_clean (s : string) : bool :=
  match s with String c _ => negb (is_ws c) | EmptyString => false end.

Definition id_ok (s : string) : bool :=
  match s with EmptyString => false | _ => all_chars is_id_char s end.

Definition owner_ok (o : option string) : bool :=
  match truthy o with
  | None => true
  | Some x => all_chars (fun c => negb (ascii_eqb c 93)) x && no_term x
              && negb (is_priority_tag x)
  end.

Definition title_ok (o : option string) (ttl : string) : bool :=
  starts_clean ttl && starts_clean (rev_str ttl) && no_term ttl
  && match truthy o, ttl with
     | None, String c _ => negb (ascii_eqb c 91)
     | _, _ => true
     end.

Definition notes_ok (n : option string) : bool :=
  match truthy n with None => true | Some x => no_term x end.

(** A stored task the markdown grammar can carry back unchanged. *)
Definition wf_task (t : task) : bool :=
  id_ok (id t) && valid_status (status t) && valid_priority (priority t)
  && owner_ok (owner_model t) && title_ok (owner_model t) (title t) && notes_ok (notes t).

(** Each line followed by [\n]. *)
Definition unlines (ls : list string) : string := sconcat (map (fun l => l ++ nl) ls).

Definition task_line (t : task) : string :=
  let checkbox := if status t =? "done" then "[x]" else "[ ]" in
  let modelTag := match truthy (owner_model t) with
                  | Some o => " [" ++ o ++ "]"
                  | None => ""
                  end in
  "- " ++ checkbox ++ " (task:" ++ id t ++ ") [" ++ priority t ++ "]" ++ modelTag
    ++ " " ++ title t.

(** [render_task], as its lines. *)
Definition task_lines (t : task) : list string :=
  task_line t :: match truthy (notes t) with
                 | Some n => ["  - note: " ++ n]
                 | None => []
                 end.

(** [render_section], as its lines. *)
Definition section_lines (tasks : list task) (section : string) : list string :=
  ("## " ++ STATUS_HEADERS section) :: flat_map task_lines (section_tasks tasks section) ++ [""].

(** A parsed record and the stored one it comes from. *)
Definition same_fields (p t : task) : Prop := id p = id t /\ agree_fields p t.

(** No line of the kept header is a [## ] section header. *)
Definition header_ok (h : string) : bool :=
  forallb (fun l => match match_header l with None => true | Some _ => false end)
    (split_lines (h ++ nl)).

End RoundTrip.

(* ------------------------------------------------------------------ *)
(** ** Predicates on diffs, parsed records, rows and headers *)

Module Props.
Import Parse Diff Store Project Spec RoundTrip.

(** The id a diff entry is about. *)
Definition diff_id (d : diff) : string :=
  match d with File_only k _ | Changed k _ _ _ | Db_only k _ => k end.

(** The three kinds of entries. *)
Definition is_file_only (d : diff) : bool := match d with File_only _ _ => true | _ => false end.
Definition is_changed (d : diff) : bool := match d with Changed _ _ _ _ => true | _ => false end.

Definition trimmed (s : string) : bool :=
  match s with EmptyString => true | _ => starts_clean s && starts_clean (rev_str s) end.

Definition parsed_owner_ok (o : option string) : bool :=
  match o with
  | None => true
  | Some x => negb (x =? "") && negb (is_priority_tag x) && all_chars (fun c => negb (ascii_eqb c 93)) x
  end.

Definition tag_ok (o : option string) : bool :=
  match o with None => true | Some x => all_chars (fun c => negb (ascii_eqb c 93)) x end.

Definition parsed_ok (slug : string) (p : task) : bool :=
  valid_status (status p) && is_priority_tag (priority p) && id_ok (id p)
  && (project_id p =? slug) && (source_file p =? source_of slug)
  && parsed_owner_ok (owner_model p) && trimmed (title p)
  && match notes p with None => true | Some n => trimmed n end.

Definition row_kept (r r' : row) : Prop :=
  project_id (r_task r') = project_id (r_task r) /\ r_created_at r' = r_created_at r.

(** A header that [projectDbToFiles] reads back as it wrote it: ASCII, no
    [\r], no trailing blank, no line starting with [## ]. *)
Definition header_clean (h : string) : bool :=
  all_chars (fun c => negb (ascii_eqb c 13)) h && (trimEnd h =? h)
  && forallb (fun l => negb (starts_with_hh l)) (split_lines h) && ascii7 h.

(** The all-lower-case keys of [Object.prototype]: for them
    [STATUS_MAP[normalized]] is an inherited member, not [undefined]. *)
Definition proto_key (k : string) : bool := (k =? "constructor") || (k =? "__proto__").

(** No [## ] section header of the file normalizes to such a key. *)
Definition proto_free (content : string) : bool :=
  forallb (fun l => match match_header l with
                    | Some h => negb (proto_key (toLowerCase (trim h)))
                    | None => true
                    end) (split_lines content).

End Props.

(* ------------------------------------------------------------------ *)
(** ** Concrete inputs *)

Module Examples.
Import Clock Lock Parse Diff Store Project Spec RoundTrip Main.

(** 2026-10-17T12:00:00.000Z *)
Definition t_noon : Z := 20743 * ms_per_day + 12 * 3600000.

Definition held_state : sync_state :=
  mk_sync_state None None None (Some "task-sync:db-to-files")
    (Some (toISOString t_noon)) None.

(** Run A acquires just after noon; run B arrives after midnight, when the
    expiry text is of the previous day, and takes the lease over. *)
Definition run_a_state : sync_state :=
  match acquireLock "files-to-db" t_noon (mk_sync_state None None None None None None) with
  | Acquired st => st
  | Busy _ _ => mk_sync_state None None None None None None
  end.

Definition t_next_day : Z := t_noon + 12 * 3600000 + 10000.

Definition src_p : string := source_of "p".

Definition with_note : task :=
  mk_task "p-001" "p" "Wire up retries" "backlog" "P2" None (Some "ask ops") src_p.

Definition without_note : task :=
  mk_task "p-001" "p" "Wire up retries" "backlog" "P2" None None src_p.

Definition other_task : task :=
  mk_task "p-002" "p" "Ship it" "done" "P1" (Some "codex") None src_p.

Definition pipe_in_title : task :=
  mk_task "p-001" "p" "a|b" "backlog" "P2" None (Some "c") src_p.

Definition pipe_in_note : task :=
  mk_task "p-001" "p" "a" "backlog" "P2" None (Some "b|c") src_p.

Definition empty_sync : sync_state := mk_sync_state None None None None None None.

Definition now_1 : string := "2026-10-17T12:00:00.000Z".

Definition now_2 : string := "2026-10-17T13:00:00.000Z".

Definition row_other : row := mk_row other_task "2026-10-16T09:00:00.000Z" "2026-10-16T09:00:00.000Z".

Definition store_p : store :=
  mk_store [mk_project "p" "P" "" "active" src_p] [row_other] [] empty_sync.

Definition task_in_progress : task :=
  mk_task "p-001" "p" "Wire up retries" "in_progress" "P2" None None src_p.

Definition task_done : task :=
  mk_task "p-001" "p" "Wire up retries" "done" "P2" None None src_p.

Definition store_backlog : store :=
  mk_store [mk_project "p" "P" "" "active" src_p]
    [mk_row without_note "2026-10-16T09:00:00.000Z" "2026-10-16T09:00:00.000Z"] [] empty_sync.

Definition store_after_1 : store :=
  snd (files_to_db (fun s => s) [task_in_progress] now_1 store_backlog).

Definition store_after_2 : store :=
  snd (files_to_db (fun s => s) [task_done] now_2 store_after_1).

Definition src_my_proj : string := source_of "my-proj".

Definition file_two_tasks : string :=
  "## Backlog" ++ nl ++ "- [ ] (task:my-proj-1) [P1] One" ++ nl
  ++ "- [ ] (task:my-proj-2) [P5] Two".

Definition task_one : task :=
  mk_task "my-proj-1" "my-proj" "One" "backlog" "P1" None None src_my_proj.

Definition task_two : task :=
  mk_task "my-proj-2" "my-proj" "Two" "backlog" "P5" None None src_my_proj.

Definition store_empty : store := mk_store [] [] [] empty_sync.

Definition store_failed : store :=
  snd (files_to_db (fun s => s) [task_one; task_two] now_1 store_empty).

Definition task_noted : task :=
  mk_task "p-001" "p" "Wire up retries" "backlog" "P2" None (Some "keep me") src_p.

Definition store_noted : store :=
  mk_store [mk_project "p" "P" "" "active" src_p]
    [mk_row task_noted "2026-10-16T09:00:00.000Z" "2026-10-16T09:00:00.000Z"] [] empty_sync.

(** The task line moves [p-001] to [P1]; the note line below it has a
    single space after the colon. *)
Definition file_blank_note : string :=
  "## Backlog" ++ nl ++ "- [ ] (task:p-001) [P1] Wire up retries" ++ nl ++ "  - note: ".

Definition file_no_note : string :=
  "## Backlog" ++ nl ++ "- [ ] (task:p-001) [P1] Wire up retries".

Definition task_blank_note : task :=
  mk_task "p-001" "p" "Wire up retries" "backlog" "P1" None (Some "") src_p.

Definition task_no_note : task :=
  mk_task "p-001" "p" "Wire up retries" "backlog" "P1" None None src_p.

Definition stored_notes (s : store) : list (option string) :=
  map (fun r => notes (r_task r)) (tasks_v2 s).

(** A task with no owner whose title starts with a bracketed word. *)
Definition bracket_title : task :=
  mk_task "p-002" "p" "[b] c" "backlog" "P2" None None src_p.
Definition bracket_title_parsed : task :=
  mk_task "p-002" "p" "c" "backlog" "P2" (Some "b") None src_p.

(** An existing file of project [p]: its preamble is kept by the projector. *)
Definition file_p_existing : string :=
  "# Project P" ++ nl ++ "Retries and shipping." ++ nl ++ nl ++ "## Backlog" ++ nl
  ++ "- [ ] (task:p-001) [P2] Wire up retries".

(** A [tasks] directory: the file of project [p] and a file that is not a
    task file. *)
Definition dir_p : dir := [("README.md", "# Notes"); ("p-tasks.md", file_p_existing)].

Definition store_two : store :=
  mk_store [mk_project "p" "P" "" "active" src_p]
    [mk_row with_note "2026-10-16T09:00:00.000Z" "2026-10-16T09:00:00.000Z"; row_other]
    [] empty_sync.

Definition world_p : world := mk_world store_two dir_p.

Definition clock_1 : clock := mk_clock t_noon t_noon (t_noon + 1000).

Definition clock_2 : clock := mk_clock (t_noon + 5000) (t_noon + 5000) (t_noon + 6000).

(** [err.message] of a failed statement. *)
Definition err_message (e : sql_error) : string :=
  match e with
  | Check_failed c => "CHECK constraint failed: " ++ c
  | Foreign_key_failed => "FOREIGN KEY constraint failed"
  end.

Definition sync_run : Z * world := main (fun s => s) err_message "files-to-db" clock_1 world_p.

Definition check_after_sync : Z * world :=
  main (fun s => s) err_message "check" clock_2 (snd sync_run).

Definition project_run : Z * world := main (fun s => s) err_message "db-to-files" clock_1 world_p.

End Examples.

(* ================================================================== *)
(** * Properties *)

Import Clock Lock Parse Diff Store Project Spec RoundTrip Main Props Examples.

(* ------------------------------------------------------------------ *)
(** ** String comparison *)

Lemma ascii_compare_refl (c : ascii) : Ascii.compare c c = Eq.
Proof. unfold Ascii.compare. apply N.compare_refl. Qed.

Lemma compare_common_prefix (p a b : string) :
  String.compare (p ++ a) (p ++ b) = String.compare a b.
Proof.
  induction p as [|c p IH]; simpl; [reflexivity|].
  rewrite ascii_compare_refl. exact IH.
Qed.

(** An ISO timestamp of a day sorts after every [datetime()] text of the
    same day: ["T"] is above [" "]. *)
Lemma iso_after_sqlite_same_day (texp now : Z) :
  texp / ms_per_day = now / ms_per_day ->
  String.compare (toISOString texp) (sqlite_datetime now) = Gt.
Proof.
  intros Hday. unfold toISOString, sqlite_datetime.
  assert (Hd : date_part texp = date_part now) by (unfold date_part; rewrite Hday; reflexivity).
  rewrite Hd, compare_common_prefix. reflexivity.
Qed.

(* ------------------------------------------------------------------ *)
(** ** Lease lock *)

(** [C1] (failing input) A lease whose recorded expiry lies on the same UTC
    day as the current time is never taken over, even once that expiry has
    passed: the ISO expiry is compared as text with [datetime('now')],
    and ["...T..."] sorts after ["... ..."]. *)
Theorem acquire_refused_same_day (mode holder : string) (texp now : Z)
    (st : sync_state) :
  lock_owner st = Some holder ->
  lock_until st = Some (toISOString texp) ->
  texp / ms_per_day = now / ms_per_day ->
  acquireLock mode now st = Busy (Some holder) (Some (toISOString texp)).
Proof.
  intros Ho Hu Hday. unfold acquireLock, lock_free, lock_expired.
  rewrite Ho, Hu. unfold String.ltb.
  rewrite (iso_after_sqlite_same_day texp now Hday).
  rewrite <- Ho, <- Hu. reflexivity.
Qed.


Lemma acquire_refused_same_day_witness :
  t_noon < t_noon + 300000 /\
  acquireLock "files-to-db" (t_noon + 300000) held_state
  = Busy (Some "task-sync:db-to-files") (Some (toISOString t_noon)).
Proof.
  split; [unfold t_noon, ms_per_day; lia|].
  apply (acquire_refused_same_day "files-to-db" "task-sync:db-to-files" t_noon
           (t_noon + 300000) held_state); reflexivity.
Defined.


(** [C10] Release is unconditional: whoever holds the lease, [releaseLock]
    clears owner and expiry and records the outcome and the time; so a
    release by run A after its lease expired clears the lease that run B
    has acquired since. *)
Theorem release_unconditional :
  (forall (result : string) (now : Z) (st : sync_state),
     releaseLock result now st
     = mk_sync_state (files_hash st) (db_hash st) (Some (toISOString now))
         None None (Some result))
  /\ (exists st_b,
        acquireLock "db-to-files" t_next_day run_a_state = Acquired st_b
        /\ lock_owner st_b = Some "task-sync:db-to-files"
        /\ lock_owner (releaseLock "failed: boom" (t_next_day + 5000) st_b) = None
        /\ lock_until (releaseLock "failed: boom" (t_next_day + 5000) st_b) = None).
Proof.
  split.
  - intros. reflexivity.
  - eexists. split; [vm_compute; reflexivity|]. vm_compute. repeat split.
Qed.

(* ------------------------------------------------------------------ *)
(** ** JavaScript [Map] keyed by id *)

Lemma map_get_set {A : Type} (m : list (string * A)) (k' k : string) (v : A) :
  map_get (map_set m k' v) k = if k' =? k then Some v else map_get m k.
Proof.
  induction m as [|[k0 v0] m IH]; simpl.
  - destruct (k' =? k); reflexivity.
  - destruct (String.eqb_spec k0 k') as [->|Hne]; simpl.
    + destruct (k' =? k); reflexivity.
    + rewrite IH. destruct (String.eqb_spec k' k) as [->|]; [|reflexivity].
      apply String.eqb_neq in Hne. rewrite Hne. reflexivity.
Qed.

Lemma map_get_fold (l : list task) (m : list (string * task)) (k : string) :
  map_get (fold_left (fun m t => map_set m (id t) t) l m) k
  = fold_left (fun acc t => if id t =? k then Some t else acc) l (map_get m k).
Proof.
  revert m; induction l as [|t l IH]; intros m; simpl; [reflexivity|].
  rewrite IH, map_get_set. reflexivity.
Qed.

Lemma map_get_map_of (l : list task) (k : string) :
  map_get (map_of l) k = last_with k l.
Proof. unfold map_of, last_with. rewrite map_get_fold. reflexivity. Qed.

Lemma in_map_set {A : Type} (m : list (string * A)) (k k' : string) (v v' : A) :
  In (k', v') (map_set m k v) -> (k' = k /\ v' = v) \/ In (k', v') m.
Proof.
  induction m as [|[k0 v0] m IH]; simpl; intros H.
  - destruct H as [H|[]]. inversion H; auto.
  - destruct (String.eqb_spec k0 k) as [->|Hne]; simpl in H.
    + destruct H as [H|H]; [inversion H; auto|auto].
    + destruct H as [H|H]; [auto|]. destruct (IH H); auto.
Qed.

Lemma map_set_keys {A : Type} (m : list (string * A)) (k : string) (v : A) :
  NoDup (map fst m) -> NoDup (map fst (map_set m k v)).
Proof.
  induction m as [|[k0 v0] m IH]; simpl; intros Hnd.
  - constructor; [intros []|constructor].
  - inversion Hnd as [|? ? Hnin Hnd']; subst.
    destruct (String.eqb_spec k0 k) as [->|Hne]; simpl; constructor; auto.
    intros Hin. apply in_map_iff in Hin as [[k1 v1] [Hk1 Hin]]. simpl in Hk1; subst k1.
    apply in_map_set in Hin as [[Hk _]|Hin]; [congruence|].
    apply Hnin. apply in_map_iff. exists (k0, v1); auto.
Qed.

Lemma map_of_fold_keys (l : list task) (m : list (string * task)) :
  NoDup (map fst m) -> (forall k v, In (k, v) m -> id v = k) ->
  NoDup (map fst (fold_left (fun m t => map_set m (id t) t) l m))
  /\ (forall k v, In (k, v) (fold_left (fun m t => map_set m (id t) t) l m) -> id v = k).
Proof.
  revert m; induction l as [|t l IH]; intros m Hnd Hid; simpl; [auto|].
  apply IH.
  - apply map_set_keys; exact Hnd.
  - intros k v Hin. apply in_map_set in Hin as [[-> ->]|Hin]; auto.
Qed.

Lemma map_of_keys (l : list task) :
  NoDup (map fst (map_of l)) /\ (forall k v, In (k, v) (map_of l) -> id v = k).
Proof.
  apply map_of_fold_keys; [constructor|intros ? ? []].
Qed.

Lemma map_get_in {A : Type} (m : list (string * A)) (k : string) (v : A) :
  NoDup (map fst m) -> In (k, v) m -> map_get m k = Some v.
Proof.
  induction m as [|[k0 v0] m IH]; simpl; intros Hnd Hin; [contradiction|].
  inversion Hnd as [|? ? Hnin Hnd']; subst.
  destruct Hin as [Heq|Hin].
  - inversion Heq; subst. rewrite String.eqb_refl. reflexivity.
  - destruct (String.eqb_spec k0 k) as [->|]; [|auto].
    exfalso. apply Hnin. apply in_map_iff. exists (k, v); auto.
Qed.

Lemma map_get_some_in {A : Type} (m : list (string * A)) (k : string) (v : A) :
  map_get m k = Some v -> In (k, v) m.
Proof.
  induction m as [|[k0 v0] m IH]; simpl; intros H; [discriminate|].
  destruct (String.eqb_spec k0 k) as [->|]; [inversion H; auto|auto].
Qed.

(** [last_with] is a search from the end. *)
Lemma find_app {A : Type} (p : A -> bool) (l1 l2 : list A) :
  find p (l1 ++ l2)%list = match find p l1 with Some x => Some x | None => find p l2 end.
Proof.
  induction l1 as [|a l1 IH]; simpl; [reflexivity|].
  destruct (p a); [reflexivity|exact IH].
Qed.

Lemma last_with_fold (k : string) (l : list task) (acc : option task) :
  fold_left (fun acc t => if id t =? k then Some t else acc) l acc
  = match find (fun t => id t =? k) (rev l) with Some t => Some t | None => acc end.
Proof.
  revert acc; induction l as [|t l IH]; intros acc; simpl; [reflexivity|].
  rewrite IH, find_app. simpl.
  destruct (find (fun t => id t =? k) (rev l)); [reflexivity|].
  destruct (id t =? k); reflexivity.
Qed.

Lemma last_with_some (k : string) (l : list task) (t : task) :
  last_with k l = Some t -> In t l /\ id t = k.
Proof.
  unfold last_with. rewrite last_with_fold.
  destruct (find _ (rev l)) eqn:Hf; intros H; [|discriminate].
  inversion H; subst. apply find_some in Hf as [Hin Hk].
  split; [apply in_rev; exact Hin|apply String.eqb_eq; exact Hk].
Qed.

Lemma last_with_none (k : string) (l : list task) (t : task) :
  last_with k l = None -> In t l -> id t <> k.
Proof.
  unfold last_with. rewrite last_with_fold.
  destruct (find _ (rev l)) eqn:Hf; intros H Hin; [discriminate|].
  apply in_rev in Hin. apply (find_none _ _ Hf t) in Hin.
  apply String.eqb_neq. exact Hin.
Qed.

Lemma nodup_ids_eq (l : list task) (a b : task) :
  NoDup (map id l) -> In a l -> In b l -> id a = id b -> a = b.
Proof.
  induction l as [|x l IH]; simpl; intros Hnd Ha Hb Hid; [contradiction|].
  inversion Hnd as [|? ? Hnin Hnd']; subst.
  destruct Ha as [->|Ha], Hb as [->|Hb]; auto.
  - exfalso. apply Hnin. rewrite Hid. apply in_map. exact Hb.
  - exfalso. apply Hnin. rewrite <- Hid. apply in_map. exact Ha.
Qed.

(** With distinct ids, the record at [k] is the one with id [k]. *)
Lemma last_with_unique (k : string) (l : list task) (t : task) :
  NoDup (map id l) -> In t l -> id t = k -> last_with k l = Some t.
Proof.
  intros Hnd Hin Hk. destruct (last_with k l) as [t'|] eqn:H.
  - apply last_with_some in H as [Hin' Hk'].
    f_equal. apply (nodup_ids_eq l); auto. congruence.
  - exfalso. exact (last_with_none k l t H Hin Hk).
Qed.

Lemma last_with_perm (k : string) (l1 l2 : list task) :
  NoDup (map id l1) -> Permutation l1 l2 -> last_with k l1 = last_with k l2.
Proof.
  intros Hnd Hp.
  assert (Hnd2 : NoDup (map id l2)) by (eapply Permutation_NoDup; [apply Permutation_map, Hp|exact Hnd]).
  destruct (last_with k l1) as [t|] eqn:H1.
  - apply last_with_some in H1 as [Hin Hk]. symmetry.
    apply last_with_unique; auto. eapply Permutation_in; eauto.
  - destruct (last_with k l2) as [t|] eqn:H2; [|reflexivity].
    apply last_with_some in H2 as [Hin Hk]. exfalso.
    apply (last_with_none k l1 t H1); auto.
    eapply Permutation_in; [symmetry; exact Hp|exact Hin].
Qed.

(* ------------------------------------------------------------------ *)
(** ** Stable insertion sort *)

Lemma insert_by_perm {A : Type} (cmp : A -> A -> comparison) (x : A) (l : list A) :
  Permutation (insert_by cmp x l) (x :: l).
Proof.
  induction l as [|y l IH]; simpl; [reflexivity|].
  destruct (cmp x y); try reflexivity;
    (etransitivity; [apply perm_skip, IH|apply perm_swap]).
Qed.

Lemma sort_fold_perm {A : Type} (cmp : A -> A -> comparison) (l acc : list A) :
  Permutation (fold_left (fun acc x => insert_by cmp x acc) l acc) (l ++ acc)%list.
Proof.
  revert acc; induction l as [|x l IH]; intros acc; simpl; [reflexivity|].
  rewrite IH, insert_by_perm. apply Permutation_sym, Permutation_middle.
Qed.

Lemma sort_by_perm {A : Type} (cmp : A -> A -> comparison) (l : list A) :
  Permutation (sort_by cmp l) l.
Proof. unfold sort_by. rewrite sort_fold_perm, app_nil_r. reflexivity. Qed.


Lemma ascii_lt_trans (x y z : ascii) :
  Ascii.compare x y = Lt -> Ascii.compare y z = Lt -> Ascii.compare x z = Lt.
Proof. unfold Ascii.compare. rewrite !N.compare_lt_iff. lia. Qed.

Lemma string_lt_trans (a b c : string) :
  String.compare a b = Lt -> String.compare b c = Lt -> String.compare a c = Lt.
Proof.
  revert b c; induction a as [|x a IH]; intros [|y b] [|z c]; simpl; try congruence.
  destruct (Ascii.compare x y) eqn:Hxy; try congruence;
  destruct (Ascii.compare y z) eqn:Hyz; try congruence; intros H1 H2.
  - apply Ascii.compare_eq_iff in Hxy, Hyz; subst.
    rewrite ascii_compare_refl. eauto.
  - apply Ascii.compare_eq_iff in Hxy; subst. rewrite Hyz. reflexivity.
  - apply Ascii.compare_eq_iff in Hyz; subst. rewrite Hxy. reflexivity.
  - rewrite (ascii_lt_trans _ _ _ Hxy Hyz). reflexivity.
Qed.

Lemma id_lt_asym (a b : task) : id_lt a b -> id_lt b a -> False.
Proof.
  unfold id_lt. intros H1 H2. rewrite String.compare_antisym, H2 in H1. discriminate.
Qed.

Lemma insert_by_id_sorted (x : task) (l : list task) :
  StronglySorted id_lt l -> (forall y, In y l -> id y <> id x) ->
  StronglySorted id_lt (insert_by by_id x l).
Proof.
  induction l as [|y l IH]; simpl; intros Hs Hne.
  - repeat constructor.
  - apply StronglySorted_inv in Hs as [Hs Hall].
    unfold by_id, localeCompare. destruct (String.compare (id x) (id y)) eqn:Hc.
    + apply String.compare_eq_iff in Hc. exfalso. exact (Hne y (or_introl eq_refl) (eq_sym Hc)).
    + constructor; [constructor; assumption|].
      constructor; [exact Hc|]. eapply Forall_impl; [|exact Hall].
      intros z Hz. exact (string_lt_trans _ _ _ Hc Hz).
    + constructor; [apply IH; auto|].
      apply Forall_forall. intros z Hz.
      apply (Permutation_in _ (insert_by_perm by_id x l)) in Hz as [<-|Hz].
      * unfold id_lt. rewrite String.compare_antisym, Hc. reflexivity.
      * rewrite Forall_forall in Hall. auto.
Qed.

Lemma sort_fold_sorted (l acc : list task) :
  StronglySorted id_lt acc -> NoDup (map id (l ++ acc)%list) ->
  StronglySorted id_lt (fold_left (fun acc x => insert_by by_id x acc) l acc).
Proof.
  revert acc; induction l as [|x l IH]; intros acc Hs Hnd; simpl; [exact Hs|].
  simpl in Hnd. inversion Hnd as [|? ? Hnin Hnd']; subst.
  apply IH.
  - apply insert_by_id_sorted; [exact Hs|].
    intros y Hy Heq. apply Hnin. rewrite <- Heq, map_app. apply in_or_app. right.
    apply in_map. exact Hy.
  - eapply Permutation_NoDup; [|exact Hnd].
    change (id x :: map id (l ++ acc)%list) with (map id (x :: l ++ acc)%list).
    apply Permutation_map. rewrite insert_by_perm. apply Permutation_middle.
Qed.

Lemma sort_by_id_sorted (l : list task) :
  NoDup (map id l) -> StronglySorted id_lt (sort_by by_id l).
Proof.
  intros Hnd. apply sort_fold_sorted; [constructor|rewrite app_nil_r; exact Hnd].
Qed.

Lemma strictly_sorted_perm_eq (l1 l2 : list task) :
  StronglySorted id_lt l1 -> StronglySorted id_lt l2 -> Permutation l1 l2 -> l1 = l2.
Proof.
  revert l2; induction l1 as [|a l1 IH]; intros l2 H1 H2 Hp.
  - symmetry. apply Permutation_nil. exact Hp.
  - destruct l2 as [|b l2]; [apply Permutation_sym, Permutation_nil_cons in Hp; contradiction|].
    apply StronglySorted_inv in H1 as [H1 A1]. apply StronglySorted_inv in H2 as [H2 A2].
    destruct (Permutation_in a Hp (or_introl eq_refl)) as [->|Ha].
    + f_equal. apply IH; auto. eapply Permutation_cons_inv; exact Hp.
    + destruct (Permutation_in b (Permutation_sym Hp) (or_introl eq_refl)) as [->|Hb].
      * f_equal. apply IH; auto. eapply Permutation_cons_inv; exact Hp.
      * rewrite Forall_forall in A1, A2. exfalso.
        exact (id_lt_asym a b (A1 b Hb) (A2 a Ha)).
Qed.

(** With distinct ids the sorted order does not depend on the input order. *)
Lemma sort_by_id_perm (l1 l2 : list task) :
  NoDup (map id l1) -> Permutation l1 l2 -> sort_by by_id l1 = sort_by by_id l2.
Proof.
  intros Hnd Hp.
  assert (Hnd2 : NoDup (map id l2)) by (eapply Permutation_NoDup; [apply Permutation_map, Hp|exact Hnd]).
  apply strictly_sorted_perm_eq; try apply sort_by_id_sorted; auto.
  rewrite !sort_by_perm. exact Hp.
Qed.

Lemma hashTasks_perm (sha256_hex : string -> string) (l1 l2 : list task) :
  NoDup (map id l1) -> Permutation l1 l2 -> hashTasks sha256_hex l1 = hashTasks sha256_hex l2.
Proof.
  intros Hnd Hp. unfold hashTasks, hash_data. rewrite (sort_by_id_perm l1 l2 Hnd Hp).
  reflexivity.
Qed.

(* ------------------------------------------------------------------ *)
(** ** Diff engine *)

Lemma opt_eqb_true (a b : option string) : opt_eqb a b = true <-> a = b.
Proof.
  destruct a, b; simpl; split; intros H; try congruence.
  - apply String.eqb_eq in H. congruence.
  - inversion H. apply String.eqb_refl.
Qed.

Lemma app_nil_iff {A : Type} (l1 l2 : list A) : (l1 ++ l2)%list = [] <-> l1 = [] /\ l2 = [].
Proof. split; [apply app_eq_nil|intros [-> ->]; reflexivity]. Qed.

Lemma if_nil_iff {A : Type} (b : bool) (x : A) :
  (if b then [] else [x]) = [] <-> b = true.
Proof. destruct b; split; congruence. Qed.

Lemma changes_nil_iff (a b : task) : changes a b = [] <-> agree_fields a b.
Proof.
  unfold changes, agree_fields.
  rewrite !app_nil_iff, !if_nil_iff, !String.eqb_eq, opt_eqb_true. tauto.
Qed.

Lemma flat_map_nil {A B : Type} (f : A -> list B) (l : list A) :
  flat_map f l = [] <-> (forall x, In x l -> f x = []).
Proof.
  induction l as [|a l IH]; simpl; [tauto|].
  rewrite app_nil_iff, IH. split.
  - intros [H1 H2] x [<-|Hx]; auto.
  - intros H. split; auto.
Qed.

(** The diff is empty exactly when the two id-keyed sides agree at every
    key. *)
Lemma diffTasks_nil_iff (f d : list task) :
  diffTasks f d = [] <-> (forall k, keyed_agree (last_with k f) (last_with k d)).
Proof.
  unfold diffTasks. rewrite app_nil_iff, !flat_map_nil.
  destruct (map_of_keys f) as [Hfk _]. destruct (map_of_keys d) as [Hdk _].
  split.
  - intros [Hf Hd] k. rewrite <- !map_get_map_of.
    destruct (map_get (map_of f) k) as [ft|] eqn:Hft.
    + specialize (Hf (k, ft) (map_get_some_in _ _ _ Hft)). simpl in Hf.
      destruct (map_get (map_of d) k) as [dt|]; [|discriminate].
      destruct (changes ft dt) eqn:Hc; [|discriminate].
      apply changes_nil_iff. exact Hc.
    + destruct (map_get (map_of d) k) as [dt|] eqn:Hdt; [|exact I].
      specialize (Hd (k, dt) (map_get_some_in _ _ _ Hdt)). simpl in Hd.
      rewrite Hft in Hd. discriminate.
  - intros Hag. split.
    + intros [k ft] Hin. specialize (Hag k). rewrite <- !map_get_map_of in Hag.
      rewrite (map_get_in _ _ _ Hfk Hin) in Hag.
      destruct (map_get (map_of d) k) as [dt|]; [|contradiction].
      apply changes_nil_iff in Hag. rewrite Hag. reflexivity.
    + intros [k dt] Hin. specialize (Hag k). rewrite <- !map_get_map_of in Hag.
      rewrite (map_get_in _ _ _ Hdk Hin) in Hag.
      destruct (map_get (map_of f) k); [reflexivity|contradiction].
Qed.

Lemma keyed_agree_refl (x : option task) : keyed_agree x x.
Proof. destruct x as [t|]; simpl; [unfold agree_fields; tauto|exact I]. Qed.

(* ------------------------------------------------------------------ *)
(** ** Drift check and fingerprint *)


(** [C3] (counterexample) The two sides differ in the note of [p-001], and
    the check still reports no difference and exits 0: notes are not
    compared by [diffTasks]. *)
Lemma check_ignores_note_drift :
  notes with_note <> notes without_note
  /\ (forall sha256_hex : string -> string,
        report_diffs (check sha256_hex [with_note] [without_note]) = []
        /\ exit_code (check sha256_hex [with_note] [without_note]) = 0).
Proof. split; [discriminate|intros; split; reflexivity]. Qed.

(** [C3] (amended) The drift check reports an empty diff, and exits 0,
    exactly when both sides have the same ids (the last record of each id)
    and agree at each id on status, priority, owner and title; otherwise
    it exits 1. Sides that are the same records in another order, with
    distinct ids, give an empty diff, exit 0 and equal fingerprints. *)
Theorem check_drift_iff (sha256_hex : string -> string) (f d : list task) :
  (report_diffs (check sha256_hex f d) = []
     <-> (forall k, keyed_agree (last_with k f) (last_with k d)))
  /\ (exit_code (check sha256_hex f d) = 0 <-> report_diffs (check sha256_hex f d) = [])
  /\ (exit_code (check sha256_hex f d) = 0 \/ exit_code (check sha256_hex f d) = 1)
  /\ (NoDup (map id f) -> Permutation f d ->
        report_diffs (check sha256_hex f d) = [] /\ exit_code (check sha256_hex f d) = 0
        /\ report_file_hash (check sha256_hex f d) = report_db_hash (check sha256_hex f d)).
Proof.
  unfold check; simpl.
  assert (Hex : (match diffTasks f d with [] => 0 | _ :: _ => 1 end = 0)
                <-> diffTasks f d = []) by (destruct (diffTasks f d); split; congruence).
  split; [apply diffTasks_nil_iff|]. split; [exact Hex|]. split.
  - destruct (diffTasks f d); auto.
  - intros Hnd Hp.
    assert (Hnil : diffTasks f d = []).
    { apply diffTasks_nil_iff. intros k. rewrite (last_with_perm k f d Hnd Hp).
      apply keyed_agree_refl. }
    split; [exact Hnil|]. split; [apply Hex; exact Hnil|].
    apply hashTasks_perm; assumption.
Qed.


Lemma check_drift_iff_witness :
  NoDup (map id [with_note; other_task]) /\ Permutation [with_note; other_task] [other_task; with_note]
  /\ exit_code (check (fun s => s) [with_note; other_task] [other_task; with_note]) = 0.
Proof.
  assert (Hnd : NoDup (map id [with_note; other_task])) by
    (simpl; constructor; [simpl; intros [H|[]]; discriminate|constructor; [intros []|constructor]]).
  assert (Hp : Permutation [with_note; other_task] [other_task; with_note]) by apply perm_swap.
  split; [exact Hnd|]. split; [exact Hp|].
  exact (proj1 (proj2 (proj2 (proj2 (proj2 (check_drift_iff (fun s => s) _ _))) Hnd Hp))).
Defined.


(** [C9] (counterexample) Two records, both produced by the parser, that
    differ in title and note get the same fingerprint for every digest:
    the field separator [|] may occur inside the fields. *)
Lemma fingerprint_pipe_collision :
  parseTaskFile "p" ("## Backlog" ++ nl ++ "- [ ] (task:p-001) [P2] a|b" ++ nl
                     ++ "  - note: c") = [pipe_in_title]
  /\ parseTaskFile "p" ("## Backlog" ++ nl ++ "- [ ] (task:p-001) [P2] a" ++ nl
                        ++ "  - note: b|c") = [pipe_in_note]
  /\ title pipe_in_title <> title pipe_in_note
  /\ (forall sha256_hex : string -> string,
        hashTasks sha256_hex [pipe_in_title] = hashTasks sha256_hex [pipe_in_note]).
Proof.
  split; [vm_compute; reflexivity|]. split; [vm_compute; reflexivity|].
  split; [discriminate|]. intros. reflexivity.
Qed.

(** [C9] (amended) For record lists whose ids are of [[a-z0-9-]] ([id_ok],
    the ids the parser accepts), the fingerprint does not depend on the
    order of the records when the ids are distinct; it is a function of the
    canonical text (records sorted by id, fields joined by [|], records by
    a newline), so lists with the same canonical text get the same
    fingerprint. *)
Theorem fingerprint_order_invariant (sha256_hex : string -> string) (l1 l2 : list task) :
  Forall (fun t => id_ok (id t) = true) l1 -> Forall (fun t => id_ok (id t) = true) l2 ->
  (NoDup (map id l1) -> Permutation l1 l2 -> hashTasks sha256_hex l1 = hashTasks sha256_hex l2)
  /\ (hash_data l1 = hash_data l2 -> hashTasks sha256_hex l1 = hashTasks sha256_hex l2).
Proof.
  intros _ _. split; [apply hashTasks_perm|]. intros H. unfold hashTasks. rewrite H. reflexivity.
Qed.

Lemma fingerprint_order_invariant_witness :
  Forall (fun t => id_ok (id t) = true) [with_note; other_task]
  /\ Forall (fun t => id_ok (id t) = true) [other_task; with_note]
  /\ NoDup (map id [with_note; other_task]) /\ Permutation [with_note; other_task] [other_task; with_note]
  /\ hashTasks (fun s => s) [with_note; other_task] = hashTasks (fun s => s) [other_task; with_note].
Proof.
  assert (Hnd : NoDup (map id [with_note; other_task])) by
    (simpl; constructor; [simpl; intros [H|[]]; discriminate|constructor; [intros []|constructor]]).
  assert (Hp : Permutation [with_note; other_task] [other_task; with_note]) by apply perm_swap.
  assert (H1 : Forall (fun t => id_ok (id t) = true) [with_note; other_task])
    by (repeat constructor).
  assert (H2 : Forall (fun t => id_ok (id t) = true) [other_task; with_note])
    by (repeat constructor).
  split; [exact H1|]. split; [exact H2|]. split; [exact Hnd|]. split; [exact Hp|].
  apply (proj1 (fingerprint_order_invariant (fun s => s) _ _ H1 H2) Hnd Hp).
Defined.

(* ------------------------------------------------------------------ *)
(** ** Statements of the apply *)


Lemma bind_inl {A B : Type} (m : M A) (k : A -> M B) (s s' : store) (b : B) :
  bind m k s = (inl b, s') -> exists a s1, m s = (inl a, s1) /\ k a s1 = (inl b, s').
Proof.
  unfold bind. destruct (m s) as [[a|e] s1]; intros H; [eauto|discriminate].
Qed.

Lemma bind_inr {A B : Type} (m : M A) (k : A -> M B) (s s' : store) (e : sql_error) :
  bind m k s = (inr e, s') ->
  m s = (inr e, s') \/ exists a s1, m s = (inl a, s1) /\ k a s1 = (inr e, s').
Proof.
  unfold bind. destruct (m s) as [[a|e'] s1]; intros H; [eauto|inversion H; auto].
Qed.

Lemma find_row_key_rows (k : string) (rs : list row) :
  find_row k rs = hd_error (key_rows k rs).
Proof.
  induction rs as [|r rs IH]; simpl; [reflexivity|]. destruct (id (r_task r) =? k); auto.
Qed.

Lemma find_row_some (k : string) (rs : list row) (r : row) :
  find_row k rs = Some r -> id (r_task r) = k /\ In r rs.
Proof.
  induction rs as [|r' rs IH]; simpl; [discriminate|].
  destruct (String.eqb_spec (id (r_task r')) k); intros H.
  - inversion H; subst; auto.
  - destruct (IH H); auto.
Qed.

Lemma find_row_none (k : string) (rs : list row) :
  find_row k rs = None -> ~ In k (row_ids rs).
Proof.
  induction rs as [|r rs IH]; simpl; [auto|].
  destruct (String.eqb_spec (id (r_task r)) k); [discriminate|].
  intros H [Hk|Hin]; [congruence|exact (IH H Hin)].
Qed.

Lemma find_row_app_none (k : string) (rs : list row) (r : row) :
  find_row k rs = None -> id (r_task r) = k -> find_row k (rs ++ [r])%list = Some r.
Proof.
  induction rs as [|r' rs IH]; simpl; intros H Hk.
  - rewrite Hk, String.eqb_refl. reflexivity.
  - destruct (id (r_task r') =? k); [discriminate|auto].
Qed.

Lemma key_rows_app_other (k : string) (rs : list row) (r : row) :
  id (r_task r) <> k -> key_rows k (rs ++ [r])%list = key_rows k rs.
Proof.
  intros Hne. unfold key_rows. rewrite filter_app. simpl.
  apply String.eqb_neq in Hne. rewrite Hne, app_nil_r. reflexivity.
Qed.

Lemma key_rows_replace_other (k k' : string) (nr : row) (rs : list row) :
  k' <> k -> id (r_task nr) = k' -> key_rows k (replace_row k' nr rs) = key_rows k rs.
Proof.
  intros Hne Hid. induction rs as [|r rs IH]; simpl; [reflexivity|].
  destruct (String.eqb_spec (id (r_task r)) k') as [Hr|Hr]; simpl.
  - assert (Hf : (id (r_task r) =? k) = false) by (apply String.eqb_neq; congruence).
    assert (Hf' : (id (r_task nr) =? k) = false) by (apply String.eqb_neq; congruence).
    rewrite Hf, Hf'. reflexivity.
  - destruct (id (r_task r) =? k); [f_equal|]; exact IH.
Qed.

Lemma find_row_replace (k : string) (nr : row) (rs : list row) :
  find_row k rs <> None -> id (r_task nr) = k -> find_row k (replace_row k nr rs) = Some nr.
Proof.
  intros Hin Hid. induction rs as [|r rs IH]; simpl in *; [congruence|].
  destruct (String.eqb_spec (id (r_task r)) k); simpl.
  - rewrite Hid, String.eqb_refl. reflexivity.
  - apply String.eqb_neq in n. rewrite n. auto.
Qed.

Lemma row_ids_replace (k : string) (nr : row) (rs : list row) :
  id (r_task nr) = k -> row_ids (replace_row k nr rs) = row_ids rs.
Proof.
  intros Hid. induction rs as [|r rs IH]; simpl; [reflexivity|].
  destruct (String.eqb_spec (id (r_task r)) k); simpl; congruence.
Qed.

Lemma upsert_err (t : task) (now : string) (s s' : store) (e : sql_error) :
  upsert t now s = (inr e, s') -> s' = s.
Proof.
  unfold upsert. destruct (negb (valid_status (status t))); [intros H; inversion H; auto|].
  destruct (negb (valid_priority (priority t))); [intros H; inversion H; auto|].
  destruct (find_row (id t) (tasks_v2 s)); [discriminate|].
  destruct (existsb _ (projects s)); [discriminate|intros H; inversion H; auto].
Qed.

(** A successful upsert writes the row of [id t] only, with the compared
    fields of [t], and keeps ids unique. *)
Lemma upsert_ok (t : task) (now : string) (s s' : store) (u : unit) :
  upsert t now s = (inl u, s') ->
  projects s' = projects s /\ transitions s' = transitions s /\ sync s' = sync s
  /\ (forall k, k <> id t -> key_rows k (tasks_v2 s') = key_rows k (tasks_v2 s))
  /\ (exists r, find_row (id t) (tasks_v2 s') = Some r /\ agree_fields t (r_task r))
  /\ (NoDup (row_ids (tasks_v2 s)) -> NoDup (row_ids (tasks_v2 s'))).
Proof.
  unfold upsert. destruct (negb (valid_status (status t))); [discriminate|].
  destruct (negb (valid_priority (priority t))); [discriminate|].
  destruct (find_row (id t) (tasks_v2 s)) as [r|] eqn:Hf.
  - intros H; inversion H; subst; clear H. simpl.
    apply find_row_some in Hf as [Hid Hin].
    repeat split; auto.
    + intros k Hk. apply key_rows_replace_other; auto.
    + eexists. split; [apply find_row_replace; [|exact Hid]|].
      * rewrite find_row_key_rows. unfold key_rows.
        destruct (filter _ (tasks_v2 s)) eqn:Hfl; [|discriminate].
        assert (Hr : In r (filter (fun r => id (r_task r) =? id t) (tasks_v2 s)))
          by (apply filter_In; split; [exact Hin|apply String.eqb_eq; exact Hid]).
        rewrite Hfl in Hr. contradiction.
      * unfold agree_fields; simpl. auto.
    + intros Hnd. rewrite row_ids_replace; auto.
  - destruct (existsb _ (projects s)); [|discriminate].
    intros H; inversion H; subst; clear H. simpl.
    repeat split; auto.
    + intros k Hk. apply key_rows_app_other. simpl. auto.
    + eexists. split; [apply find_row_app_none; [exact Hf|reflexivity]|].
      unfold agree_fields; simpl. auto.
    + intros Hnd. unfold row_ids. rewrite map_app. simpl.
      apply find_row_none in Hf.
      eapply Permutation_NoDup; [apply Permutation_cons_append|constructor; auto].
Qed.

Lemma insertTransition_ok (k : string) (fr : option string) (to : string) (rsn : reason)
    (now : string) (s s' : store) (u : unit) :
  insertTransition k fr to rsn now s = (inl u, s') ->
  s' = set_transitions s (transitions s ++ [mk_transition k fr to rsn "sync" now])%list.
Proof.
  unfold insertTransition. destruct (find_row k (tasks_v2 s)); [|discriminate].
  intros H; inversion H; reflexivity.
Qed.

Lemma insertTransition_err (k : string) (fr : option string) (to : string) (rsn : reason)
    (now : string) (s s' : store) (e : sql_error) :
  insertTransition k fr to rsn now s = (inr e, s') -> s' = s /\ find_row k (tasks_v2 s) = None.
Proof.
  unfold insertTransition. destruct (find_row k (tasks_v2 s)); [discriminate|].
  intros H; inversion H; auto.
Qed.


(** Frame: rows of keys that no diff writes are left as they are, whether
    the loop succeeds or fails. *)
Lemma apply_diffs_frame (ds : list diff) (now : string) (a u : nat) (s s' : store)
    (r : (nat * nat) + sql_error) (k : string) :
  (forall d, In d ds -> diff_key d <> Some k) ->
  apply_diffs ds now a u s = (r, s') ->
  key_rows k (tasks_v2 s') = key_rows k (tasks_v2 s)
  /\ projects s' = projects s /\ sync s' = sync s.
Proof.
  revert a u s; induction ds as [|d ds IH]; intros a u s Hk H; simpl in H.
  - inversion H; subst; auto.
  - assert (Hk' : forall d', In d' ds -> diff_key d' <> Some k) by (intros; apply Hk; right; auto).
    assert (Hd := Hk d (or_introl eq_refl)).
    destruct d as [k0 t|k0 chs t dt|k0 t]; simpl in Hd.
    + unfold bind at 1 in H. destruct (upsert t now s) as [[x|e] s1] eqn:Hu.
      * destruct (upsert_ok _ _ _ _ _ Hu) as (Hp & _ & Hs & Hkr & _).
        unfold bind in H. destruct (insertTransition _ _ _ _ _ s1) as [[y|e] s2] eqn:Hi.
        -- apply insertTransition_ok in Hi. subst s2.
           destruct (IH _ _ _ Hk' H) as (H1 & H2 & H3). simpl in *.
           rewrite H1, H2, H3, Hkr, Hp, Hs by congruence. auto.
        -- apply insertTransition_err in Hi as [-> _]. inversion H; subst.
           rewrite Hkr, Hp, Hs by congruence. auto.
      * apply upsert_err in Hu. subst. inversion H; subst; auto.
    + unfold bind at 1 in H. destruct (upsert t now s) as [[x|e] s1] eqn:Hu.
      * destruct (upsert_ok _ _ _ _ _ Hu) as (Hp & _ & Hs & Hkr & _).
        unfold bind in H.
        destruct ((if negb (status dt =? status t)
                   then insertTransition (id t) (Some (status dt)) (status t) (File_sync chs) now
                   else ret tt) s1) as [[y|e] s2] eqn:Hi.
        -- assert (tasks_v2 s2 = tasks_v2 s1 /\ projects s2 = projects s1 /\ sync s2 = sync s1)
             as (E1 & E2 & E3).
           { destruct (negb _); [apply insertTransition_ok in Hi; subst; auto|].
             inversion Hi; subst; auto. }
           destruct (IH _ _ _ Hk' H) as (H1 & H2 & H3).
           rewrite H1, H2, H3, E1, E2, E3, Hkr, Hp, Hs by congruence. auto.
        -- assert (s2 = s1) as ->.
           { destruct (negb _); [apply insertTransition_err in Hi; tauto|discriminate]. }
           inversion H; subst. rewrite Hkr, Hp, Hs by congruence. auto.
      * apply upsert_err in Hu. subst. inversion H; subst; auto.
    + eapply IH; eauto.
Qed.

Lemma upsertProject_ok (slug name src : string) (s : store) :
  exists s', upsertProject slug name src s = (inl tt, s')
  /\ tasks_v2 s' = tasks_v2 s /\ transitions s' = transitions s /\ sync s' = sync s
  /\ incl (map p_id (projects s)) (map p_id (projects s'))
  /\ In slug (map p_id (projects s')).
Proof.
  unfold upsertProject. destruct (existsb (fun p => p_id p =? slug) (projects s)) eqn:He.
  - eexists. split; [reflexivity|]. repeat split; auto using incl_refl.
    apply existsb_exists in He as [p [Hp Heq]]. apply String.eqb_eq in Heq.
    rewrite <- Heq. apply in_map. exact Hp.
  - eexists. split; [reflexivity|]. simpl. rewrite map_app. repeat split; auto.
    + apply incl_appl, incl_refl.
    + apply in_or_app. right. left. reflexivity.
Qed.

(** Auto-creation of projects never fails, touches only [projects], and
    leaves every project of the file records present. *)
Lemma create_missing_ok (known missing : list string) (ts : list task) (s : store) :
  incl missing (map p_id (projects s)) ->
  exists s', create_missing known missing ts s = (inl tt, s')
  /\ tasks_v2 s' = tasks_v2 s /\ transitions s' = transitions s /\ sync s' = sync s
  /\ incl (map p_id (projects s)) (map p_id (projects s'))
  /\ (forall t, In t ts -> In (project_id t) known \/ In (project_id t) (map p_id (projects s'))).
Proof.
  revert missing s; induction ts as [|t ts IH]; intros missing s Hm; simpl.
  - eexists. split; [reflexivity|]. repeat split; auto using incl_refl. intros _ [].
  - destruct (negb (existsb (String.eqb (project_id t)) known)
              && negb (existsb (String.eqb (project_id t)) missing)) eqn:Hc.
    + destruct (upsertProject_ok (project_id t) (project_name (project_id t))
                  (source_of (project_id t)) s) as (s1 & Hu & T1 & R1 & S1 & I1 & In1).
      unfold bind. rewrite Hu.
      destruct (IH (project_id t :: missing) s1) as (s2 & H2 & T2 & R2 & S2 & I2 & A2).
      { intros x [<-|Hx]; [exact In1|apply I1, Hm, Hx]. }
      exists s2. split; [exact H2|]. repeat split; try congruence.
      * intros x Hx. apply I2, I1, Hx.
      * intros t' [<-|Ht']; [right; apply I2, In1|apply A2, Ht'].
    + destruct (IH missing s Hm) as (s2 & H2 & T2 & R2 & S2 & I2 & A2).
      exists s2. split; [exact H2|]. repeat split; auto.
      intros t' [<-|Ht']; [|apply A2, Ht'].
      apply andb_false_iff in Hc as [Hc|Hc]; apply negb_false_iff, existsb_exists in Hc
        as [x [Hx Heq]]; apply String.eqb_eq in Heq; subst x.
      * left. exact Hx.
      * right. apply I2, Hm, Hx.
Qed.

Lemma create_missing_known (known missing : list string) (ts : list task) (s : store) :
  (forall t, In t ts -> In (project_id t) known) ->
  create_missing known missing ts s = (inl tt, s).
Proof.
  revert missing; induction ts as [|t ts IH]; intros missing Hk; simpl; [reflexivity|].
  assert (Hin : existsb (String.eqb (project_id t)) known = true).
  { apply existsb_exists. exists (project_id t). split; [apply Hk; left; auto|apply String.eqb_refl]. }
  rewrite Hin. simpl. apply IH. intros; apply Hk; right; auto.
Qed.

(** The [files-to-db] run, statement by statement. *)
Lemma files_to_db_unfold (sha256_hex : string -> string) (f : list task) (now : string) (s : store) :
  files_to_db sha256_hex f now s =
  match create_missing (map p_id (projects s)) [] f s with
  | (inl _, sp) =>
      match apply_diffs (diffTasks f (getDbTasks s)) now 0 0 sp with
      | (inl c, s2) =>
          (inl (fst c, snd c, length (filter is_db_only (diffTasks f (getDbTasks s)))),
           set_sync s2 (set_hashes (sync s2) (hashTasks sha256_hex f)
                          (hashTasks sha256_hex (getDbTasks s2))))
      | (inr e, s2) => (inr e, s2)
      end
  | (inr e, sp) => (inr e, sp)
  end.
Proof.
  unfold files_to_db, syncFilesToDb, bind, get, put, ret.
  destruct (create_missing _ _ _ _) as [[u|e] sp]; [|reflexivity].
  destruct (apply_diffs _ _ _ _ _) as [[c|e] s2]; reflexivity.
Qed.

Lemma map_of_in (l : list task) (k : string) (v : task) :
  In (k, v) (map_of l) -> In v l.
Proof.
  unfold map_of.
  assert (G : forall m, In (k, v) (fold_left (fun m t => map_set m (id t) t) l m) ->
                        In (k, v) m \/ In v l).
  { induction l as [|t l IH]; intros m H; simpl in *; [auto|].
    destruct (IH _ H) as [H'|H']; [|auto].
    apply in_map_set in H' as [[_ ->]|H']; auto. }
  intros H. destruct (G [] H) as [[]|H']; exact H'.
Qed.


Lemma diffTasks_split (f d : list task) :
  diffTasks f d = (flat_map (file_entry_diffs (map_of d)) (map_of f)
                   ++ flat_map (db_entry_diffs (map_of f)) (map_of d))%list.
Proof. reflexivity. Qed.

Lemma db_entry_diffs_db_only (fm : list (string * task)) (e : string * task) (x : diff) :
  In x (db_entry_diffs fm e) -> is_db_only x = true.
Proof.
  destruct e as [k dt]; simpl. destruct (map_get fm k); simpl; [intros []|].
  intros [<-|[]]; reflexivity.
Qed.

Lemma file_entry_diffs_key (dm : list (string * task)) (k : string) (ft : task) (x : diff) :
  In x (file_entry_diffs dm (k, ft)) -> diff_key x = Some (id ft).
Proof.
  simpl. destruct (map_get dm k) as [dt|]; [destruct (changes ft dt)|]; simpl;
    intros H; repeat (destruct H as [<-|H]; [reflexivity|]); contradiction.
Qed.

Lemma diffTasks_keys (f d : list task) (x : diff) :
  In x (diffTasks f d) -> diff_key x = None \/ exists t, diff_key x = Some (id t) /\ In t f.
Proof.
  rewrite diffTasks_split. intros H. apply in_app_or in H as [H|H].
  - apply in_flat_map in H as [[k ft] [He Hx]]. right. exists ft.
    split; [eapply file_entry_diffs_key; eauto|eapply map_of_in; eauto].
  - apply in_flat_map in H as [e [_ Hx]]. left.
    apply db_entry_diffs_db_only in Hx. destruct x; simpl in *; congruence.
Qed.

(** [C7] A record whose id does not occur in the files is neither deleted
    nor modified by a [files-to-db] run, whether the run succeeds or
    stops on an error. *)
Theorem files_to_db_keeps_db_only (sha256_hex : string -> string) (f : list task)
    (now : string) (s : store) (k : string) :
  ~ In k (map id f) ->
  key_rows k (tasks_v2 (snd (files_to_db sha256_hex f now s))) = key_rows k (tasks_v2 s).
Proof.
  intros Hk. rewrite files_to_db_unfold.
  destruct (create_missing_ok (map p_id (projects s)) [] f s) as (sp & Hc & T & _).
  { intros x []. }
  rewrite Hc.
  assert (Hkeys : forall d, In d (diffTasks f (getDbTasks s)) -> diff_key d <> Some k).
  { intros d Hd. destruct (diffTasks_keys _ _ _ Hd) as [->|[t [-> Ht]]]; [discriminate|].
    intros Heq. inversion Heq; subst. apply Hk, in_map, Ht. }
  destruct (apply_diffs _ now 0 0 sp) as [r s2] eqn:Ha.
  destruct (apply_diffs_frame _ _ _ _ _ _ _ k Hkeys Ha) as [Hr _].
  destruct r; simpl; rewrite Hr, T; reflexivity.
Qed.


Lemma files_to_db_keeps_db_only_witness :
  ~ In "p-002" (map id [with_note])
  /\ key_rows "p-002" (tasks_v2 (snd (files_to_db (fun s => s) [with_note] now_1 store_p)))
     = [row_other].
Proof.
  assert (H : ~ In "p-002" (map id [with_note])) by (simpl; intros [H|[]]; discriminate).
  split; [exact H|].
  rewrite (files_to_db_keeps_db_only (fun s => s) [with_note] now_1 store_p "p-002" H).
  reflexivity.
Defined.

(* ------------------------------------------------------------------ *)
(** ** Transitions logged by the apply *)

Lemma apply_diffs_transitions (ds : list diff) (now : string) (a u : nat) (s s' : store)
    (c : nat * nat) :
  apply_diffs ds now a u s = (inl c, s') ->
  exists added, transitions s' = (transitions s ++ added)%list
  /\ map tr_triple added = flat_map diff_triples ds
  /\ Forall (fun tr => tr_actor tr = "sync" /\ tr_at tr = now) added.
Proof.
  revert a u s; induction ds as [|d ds IH]; intros a u s H; simpl in H.
  - inversion H; subst. exists []. rewrite app_nil_r. auto.
  - destruct d as [k0 t|k0 chs t dt|k0 t].
    + unfold bind at 1 in H. destruct (upsert t now s) as [[x|e] s1] eqn:Hu; [|discriminate].
      destruct (upsert_ok _ _ _ _ _ Hu) as (_ & Ht & _).
      unfold bind in H. destruct (insertTransition _ _ _ _ _ s1) as [[y|e] s2] eqn:Hi;
        [|discriminate].
      apply insertTransition_ok in Hi. subst s2.
      destruct (IH _ _ _ H) as (added & E & M & F).
      exists (mk_transition (id t) None (status t) Added_via_file_sync "sync" now :: added).
      simpl in E. rewrite E, Ht, <- app_assoc. simpl. rewrite M.
      split; [reflexivity|]. split; [reflexivity|]. constructor; auto.
    + unfold bind at 1 in H. destruct (upsert t now s) as [[x|e] s1] eqn:Hu; [|discriminate].
      destruct (upsert_ok _ _ _ _ _ Hu) as (_ & Ht & _).
      unfold bind in H. simpl.
      destruct (String.eqb (status dt) (status t)) eqn:Heq; simpl in H.
      * destruct (IH _ _ _ H) as (added & E & M & F).
        exists added. rewrite E, Ht. auto.
      * destruct (insertTransition _ _ _ _ _ s1) as [[y|e] s2] eqn:Hi; [|discriminate].
        apply insertTransition_ok in Hi. subst s2.
        destruct (IH _ _ _ H) as (added & E & M & F).
        exists (mk_transition (id t) (Some (status dt)) (status t) (File_sync chs) "sync" now
                :: added).
        simpl in E. rewrite E, Ht, <- app_assoc. simpl. rewrite M.
        split; [reflexivity|]. split; [reflexivity|]. constructor; auto.
    + simpl. eapply IH; eauto.
Qed.

Lemma flat_map_flat_map {A B C : Type} (g : B -> list C) (h : A -> list B) (l : list A) :
  flat_map g (flat_map h l) = flat_map (fun x => flat_map g (h x)) l.
Proof.
  induction l as [|x l IH]; simpl; [reflexivity|]. rewrite flat_map_app, IH. reflexivity.
Qed.

Lemma diffTasks_triples (f d : list task) :
  flat_map diff_triples (diffTasks f d) = expected_transitions f d.
Proof.
  rewrite diffTasks_split, flat_map_app, !flat_map_flat_map.
  replace (flat_map (fun x => flat_map diff_triples (db_entry_diffs (map_of f) x)) (map_of d))
    with (@nil (string * option string * string)).
  2:{ symmetry. apply flat_map_nil. intros [k dt] _. simpl.
      destruct (map_get (map_of f) k); reflexivity. }
  rewrite app_nil_r. unfold expected_transitions.
  apply flat_map_ext. intros [k ft]. simpl. rewrite map_get_map_of.
  destruct (last_with k d) as [dt|]; [|reflexivity].
  destruct (changes ft dt) eqn:Hc; simpl; [|rewrite app_nil_r; reflexivity].
  apply changes_nil_iff in Hc as [Hs _]. rewrite Hs, String.eqb_refl. reflexivity.
Qed.

(** [C8] A successful [files-to-db] run appends to [task_transitions_v2]
    exactly the transitions the spec prescribes, in order: one
    (id, none, status) per added record, one (id, old status, new status)
    per changed record whose status differs, nothing else; all with actor
    [sync]. *)
Theorem files_to_db_transitions (sha256_hex : string -> string) (f : list task)
    (now : string) (s s' : store) (c : nat * nat * nat) :
  files_to_db sha256_hex f now s = (inl c, s') ->
  exists added, transitions s' = (transitions s ++ added)%list
  /\ map tr_triple added = expected_transitions f (getDbTasks s)
  /\ Forall (fun tr => tr_actor tr = "sync" /\ tr_at tr = now) added.
Proof.
  rewrite files_to_db_unfold.
  destruct (create_missing_ok (map p_id (projects s)) [] f s) as (sp & Hc & _ & Tr & _).
  { intros x []. }
  rewrite Hc.
  destruct (apply_diffs _ now 0 0 sp) as [[c'|e] s2] eqn:Ha; [|discriminate].
  intros H; inversion H; subst; clear H.
  destruct (apply_diffs_transitions _ _ _ _ _ _ _ Ha) as (added & E & M & F).
  exists added. simpl. rewrite E, Tr, M, diffTasks_triples. auto.
Qed.


Lemma files_to_db_transitions_witness :
  files_to_db (fun s => s) [task_in_progress] now_1 store_backlog = (inl (0, 1, 0)%nat, store_after_1)
  /\ files_to_db (fun s => s) [task_done] now_2 store_after_1 = (inl (0, 1, 0)%nat, store_after_2)
  /\ map tr_triple (transitions store_after_2)
     = [("p-001", Some "backlog", "in_progress"); ("p-001", Some "in_progress", "done")]
  /\ (exists added, transitions store_after_2 = (transitions store_after_1 ++ added)%list
      /\ map tr_triple added = expected_transitions [task_done] (getDbTasks store_after_1)
      /\ Forall (fun tr => tr_actor tr = "sync" /\ tr_at tr = now_2) added).
Proof.
  assert (H1 : files_to_db (fun s => s) [task_in_progress] now_1 store_backlog
               = (inl (0, 1, 0)%nat, store_after_1)) by (vm_compute; reflexivity).
  assert (H2 : files_to_db (fun s => s) [task_done] now_2 store_after_1
               = (inl (0, 1, 0)%nat, store_after_2)) by (vm_compute; reflexivity).
  split; [exact H1|]. split; [exact H2|]. split; [vm_compute; reflexivity|].
  exact (files_to_db_transitions (fun s => s) [task_done] now_2 store_after_1 store_after_2 _ H2).
Defined.

(* ------------------------------------------------------------------ *)
(** ** A failing apply *)


(** [C2] (counterexample) The file has two new records, the second with
    priority [P5], which the [CHECK] constraint refuses. The run fails, and
    the store keeps the auto-created project, the first record and its
    transition: it matches neither the state before the run nor the file. *)
Lemma apply_not_atomic :
  parseTaskFile "my-proj" file_two_tasks = [task_one; task_two]
  /\ (forall sha256_hex : string -> string,
        files_to_db sha256_hex [task_one; task_two] now_1 store_empty
        = (inr (Check_failed "priority"), store_failed))
  /\ store_failed <> store_empty
  /\ map p_id (projects store_failed) = ["my-proj"]
  /\ map r_task (tasks_v2 store_failed) = [task_one]
  /\ map tr_triple (transitions store_failed) = [("my-proj-1", None, "backlog")].
Proof.
  split; [vm_compute; reflexivity|]. split; [intros; vm_compute; reflexivity|].
  split; [vm_compute; discriminate|]. vm_compute. auto.
Qed.

Lemma apply_diffs_fail (ds : list diff) (now : string) (a u : nat) (s s' : store)
    (e : sql_error) :
  apply_diffs ds now a u s = (inr e, s') ->
  exists ds1 d ds2 c t,
    ds = (ds1 ++ d :: ds2)%list
    /\ apply_diffs ds1 now a u s = (inl c, s')
    /\ ((exists k, d = File_only k t) \/ (exists k chs dt, d = Changed k chs t dt))
    /\ upsert t now s' = (inr e, s').
Proof.
  revert a u s; induction ds as [|d ds IH]; intros a u s H; simpl in H; [discriminate|].
  destruct d as [k0 t|k0 chs t dt|k0 t].
  - unfold bind at 1 in H. destruct (upsert t now s) as [[x|e'] s1] eqn:Hu.
    + destruct (upsert_ok _ _ _ _ _ Hu) as (_ & _ & _ & _ & [r [Hr _]] & _).
      unfold bind in H. destruct (insertTransition _ _ _ _ _ s1) as [[y|e'] s2] eqn:Hi.
      * destruct (IH _ _ _ H) as (ds1 & d & ds2 & c & t' & E & A & D & U).
        exists (File_only k0 t :: ds1), d, ds2, c, t'. subst ds.
        split; [reflexivity|]. split; [|auto].
        simpl. unfold bind. rewrite Hu, Hi. exact A.
      * apply insertTransition_err in Hi as [_ Hn]. congruence.
    + apply upsert_err in Hu as Hs. subst s1. inversion H; subst.
      exists [], (File_only k0 t), ds, (a, u), t. repeat split; eauto.
  - unfold bind at 1 in H. destruct (upsert t now s) as [[x|e'] s1] eqn:Hu.
    + destruct (upsert_ok _ _ _ _ _ Hu) as (_ & _ & _ & _ & [r [Hr _]] & _).
      unfold bind in H.
      destruct ((if negb (status dt =? status t)
                 then insertTransition (id t) (Some (status dt)) (status t) (File_sync chs) now
                 else ret tt) s1) as [[y|e'] s2] eqn:Hi.
      * destruct (IH _ _ _ H) as (ds1 & d & ds2 & c & t' & E & A & D & U).
        exists (Changed k0 chs t dt :: ds1), d, ds2, c, t'. subst ds.
        split; [reflexivity|]. split; [|auto].
        simpl. unfold bind. rewrite Hu, Hi. exact A.
      * destruct (negb _); [|discriminate].
        apply insertTransition_err in Hi as [_ Hn]. congruence.
    + apply upsert_err in Hu as Hs. subst s1. inversion H; subst.
      exists [], (Changed k0 chs t dt), ds, (a, u), t. repeat split; eauto 6.
  - destruct (IH _ _ _ H) as (ds1 & d & ds2 & c & t' & E & A & D & U).
    exists (Db_only k0 t :: ds1), d, ds2, c, t'. subst ds. auto.
Qed.

Lemma apply_diffs_sync (ds : list diff) (now : string) (a u : nat) (s s' : store)
    (r : (nat * nat) + sql_error) :
  apply_diffs ds now a u s = (r, s') -> sync s' = sync s.
Proof.
  revert a u s; induction ds as [|d ds IH]; intros a u s H; simpl in H.
  - inversion H; subst; auto.
  - destruct d as [k0 t|k0 chs t dt|k0 t]; [| |eapply IH; eauto].
    + unfold bind at 1 in H. destruct (upsert t now s) as [[x|e] s1] eqn:Hu.
      * destruct (upsert_ok _ _ _ _ _ Hu) as (_ & _ & Hs & _).
        unfold bind in H. destruct (insertTransition _ _ _ _ _ s1) as [[y|e] s2] eqn:Hi.
        -- apply insertTransition_ok in Hi. subst s2. rewrite (IH _ _ _ H). simpl. exact Hs.
        -- apply insertTransition_err in Hi as [-> _]. inversion H; subst. exact Hs.
      * apply upsert_err in Hu. subst. inversion H; subst; auto.
    + unfold bind at 1 in H. destruct (upsert t now s) as [[x|e] s1] eqn:Hu.
      * destruct (upsert_ok _ _ _ _ _ Hu) as (_ & _ & Hs & _).
        unfold bind in H.
        destruct ((if negb (status dt =? status t)
                   then insertTransition (id t) (Some (status dt)) (status t) (File_sync chs) now
                   else ret tt) s1) as [[y|e] s2] eqn:Hi.
        -- assert (sync s2 = sync s1) as E1.
           { destruct (negb _); [apply insertTransition_ok in Hi; subst; auto|].
             inversion Hi; subst; auto. }
           rewrite (IH _ _ _ H), E1. exact Hs.
        -- assert (s2 = s1) as ->.
           { destruct (negb _); [apply insertTransition_err in Hi; tauto|discriminate]. }
           inversion H; subst. exact Hs.
      * apply upsert_err in Hu. subst. inversion H; subst; auto.
Qed.

(** [C2] (amended) A [files-to-db] run that fails leaves the store as the
    statements before the failing one made it: the projects auto-created
    for the file, then every diff before the failing one applied (row and
    transition); the failing statement is the upsert of a file record, and
    it changes nothing; the sync hashes are not written. *)
Theorem files_to_db_failure_prefix (sha256_hex : string -> string) (f : list task)
    (now : string) (s s' : store) (e : sql_error) :
  files_to_db sha256_hex f now s = (inr e, s') ->
  exists sp ds1 d ds2 c t,
    create_missing (map p_id (projects s)) [] f s = (inl tt, sp)
    /\ diffTasks f (getDbTasks s) = (ds1 ++ d :: ds2)%list
    /\ apply_diffs ds1 now 0 0 sp = (inl c, s')
    /\ ((exists k, d = File_only k t) \/ (exists k chs dt, d = Changed k chs t dt))
    /\ upsert t now s' = (inr e, s')
    /\ sync s' = sync s.
Proof.
  rewrite files_to_db_unfold.
  destruct (create_missing_ok (map p_id (projects s)) [] f s) as (sp & Hc & _ & _ & Sy & _).
  { intros x []. }
  rewrite Hc.
  destruct (apply_diffs _ now 0 0 sp) as [[c'|e'] s2] eqn:Ha; [discriminate|].
  intros H; inversion H; subst; clear H.
  rewrite <- (apply_diffs_sync _ _ _ _ _ _ _ Ha) in Sy.
  destruct (apply_diffs_fail _ _ _ _ _ _ _ Ha) as (ds1 & d & ds2 & c & t & E & A & D & U).
  exists sp, ds1, d, ds2, c, t. auto 7.
Qed.

Lemma files_to_db_failure_prefix_witness :
  files_to_db (fun s => s) [task_one; task_two] now_1 store_empty
    = (inr (Check_failed "priority"), store_failed)
  /\ exists sp ds1 d ds2 c t,
    create_missing (map p_id (projects store_empty)) [] [task_one; task_two] store_empty
      = (inl tt, sp)
    /\ diffTasks [task_one; task_two] (getDbTasks store_empty) = (ds1 ++ d :: ds2)%list
    /\ apply_diffs ds1 now_1 0 0 sp = (inl c, store_failed)
    /\ ((exists k, d = File_only k t) \/ (exists k chs dt, d = Changed k chs t dt))
    /\ upsert t now_1 store_failed = (inr (Check_failed "priority"), store_failed)
    /\ sync store_failed = sync store_empty.
Proof.
  assert (H : files_to_db (fun s => s) [task_one; task_two] now_1 store_empty
              = (inr (Check_failed "priority"), store_failed)) by (vm_compute; reflexivity).
  split; [exact H|].
  exact (files_to_db_failure_prefix (fun s => s) [task_one; task_two] now_1 store_empty
           store_failed (Check_failed "priority") H).
Defined.

(* ------------------------------------------------------------------ *)
(** ** Notes of a changed record *)


(** [C6] A note line with nothing but blanks after [note:] parses as the
    empty note, not as an absent one; [COALESCE] keeps the stored note
    only for an absent one, so applying the changed record erases the
    stored note [keep me]. Without the note line the stored note stays. *)
Theorem blank_note_erases_stored_note :
  parseTaskFile "p" file_blank_note = [task_blank_note]
  /\ parseTaskFile "p" file_no_note = [task_no_note]
  /\ stored_notes store_noted = [Some "keep me"]
  /\ (forall sha256_hex : string -> string,
        stored_notes (snd (files_to_db sha256_hex [task_blank_note] now_1 store_noted))
        = [Some ""]
        /\ stored_notes (snd (files_to_db sha256_hex [task_no_note] now_1 store_noted))
        = [Some "keep me"]).
Proof.
  split; [vm_compute; reflexivity|]. split; [vm_compute; reflexivity|].
  split; [reflexivity|]. intros sha256_hex. split; vm_compute; reflexivity.
Qed.

(* ------------------------------------------------------------------ *)
(** ** A second run over the same files *)

(** An invariant of the statements is an invariant of the loop, whether
    it succeeds or fails. *)
Lemma apply_diffs_invariant (P : store -> Prop) (ds : list diff) (now : string)
    (a u : nat) (s s' : store) (r : (nat * nat) + sql_error) :
  (forall t s1 s2 x, upsert t now s1 = (inl x, s2) -> P s1 -> P s2) ->
  (forall k fr to rsn s1, P s1 ->
     P (set_transitions s1 (transitions s1 ++ [mk_transition k fr to rsn "sync" now])%list)) ->
  P s -> apply_diffs ds now a u s = (r, s') -> P s'.
Proof.
  intros HU HT. revert a u s; induction ds as [|d ds IH]; intros a u s Hs H; simpl in H.
  - inversion H; subst; auto.
  - destruct d as [k0 t|k0 chs t dt|k0 t]; [| |eapply IH; eauto].
    + unfold bind at 1 in H. destruct (upsert t now s) as [[x|e] s1] eqn:Hu.
      * apply (HU _ _ _ _ Hu) in Hs.
        unfold bind in H. destruct (insertTransition _ _ _ _ _ s1) as [[y|e] s2] eqn:Hi.
        -- apply insertTransition_ok in Hi. subst s2. eapply IH; [|exact H]. auto.
        -- apply insertTransition_err in Hi as [-> _]. inversion H; subst. exact Hs.
      * apply upsert_err in Hu. subst. inversion H; subst; auto.
    + unfold bind at 1 in H. destruct (upsert t now s) as [[x|e] s1] eqn:Hu.
      * apply (HU _ _ _ _ Hu) in Hs.
        unfold bind in H.
        destruct ((if negb (status dt =? status t)
                   then insertTransition (id t) (Some (status dt)) (status t) (File_sync chs) now
                   else ret tt) s1) as [[y|e] s2] eqn:Hi.
        -- assert (P s2) as Hs2.
           { destruct (negb _); [apply insertTransition_ok in Hi; subst; auto|].
             inversion Hi; subst; auto. }
           eapply IH; [exact Hs2|exact H].
        -- assert (s2 = s1) as ->.
           { destruct (negb _); [apply insertTransition_err in Hi; tauto|discriminate]. }
           inversion H; subst. exact Hs.
      * apply upsert_err in Hu. subst. inversion H; subst; auto.
Qed.

Lemma apply_diffs_nodup (ds : list diff) (now : string) (a u : nat) (s s' : store)
    (r : (nat * nat) + sql_error) :
  apply_diffs ds now a u s = (r, s') ->
  NoDup (row_ids (tasks_v2 s)) -> NoDup (row_ids (tasks_v2 s')).
Proof.
  intros H Hs. eapply (apply_diffs_invariant (fun s => NoDup (row_ids (tasks_v2 s))));
    [| |exact Hs|exact H].
  - intros t s1 s2 x Hu. apply (upsert_ok _ _ _ _ _ Hu).
  - intros. exact H0.
Qed.

Lemma apply_diffs_projects (ds : list diff) (now : string) (a u : nat) (s s' : store)
    (r : (nat * nat) + sql_error) :
  apply_diffs ds now a u s = (r, s') -> projects s' = projects s.
Proof.
  intros H. eapply (apply_diffs_invariant (fun s' => projects s' = projects s));
    [| |reflexivity|exact H].
  - intros t s1 s2 x Hu E. rewrite <- E. apply (upsert_ok _ _ _ _ _ Hu).
  - intros. exact H0.
Qed.

Lemma apply_diffs_app (l1 l2 : list diff) (now : string) (a u : nat) (s : store) :
  apply_diffs (l1 ++ l2) now a u s =
  match apply_diffs l1 now a u s with
  | (inl c, s1) => apply_diffs l2 now (fst c) (snd c) s1
  | (inr e, s1) => (inr e, s1)
  end.
Proof.
  revert a u s; induction l1 as [|d l1 IH]; intros a u s; [reflexivity|].
  destruct d as [k0 t|k0 chs t dt|k0 t]; simpl; unfold bind.
  - destruct (upsert t now s) as [[x|e] s1]; [|reflexivity].
    destruct (insertTransition _ _ _ _ _ s1) as [[y|e] s2]; [|reflexivity]. apply IH.
  - destruct (upsert t now s) as [[x|e] s1]; [|reflexivity].
    destruct ((if negb (status dt =? status t)
               then insertTransition (id t) (Some (status dt)) (status t) (File_sync chs) now
               else ret tt) s1) as [[y|e] s2]; [|reflexivity]. apply IH.
  - apply IH.
Qed.

Lemma apply_diffs_db_only (ds : list diff) (now : string) (a u : nat) (s : store) :
  (forall d, In d ds -> is_db_only d = true) -> apply_diffs ds now a u s = (inl (a, u), s).
Proof.
  revert a u s; induction ds as [|d ds IH]; intros a u s H; [reflexivity|].
  destruct d as [k0 t|k0 chs t dt|k0 t];
    [discriminate (H _ (or_introl eq_refl))|discriminate (H _ (or_introl eq_refl))|].
  simpl. apply IH. intros; apply H; right; auto.
Qed.

Lemma getDbTasks_lookup (s : store) (k : string) :
  NoDup (row_ids (tasks_v2 s)) ->
  last_with k (getDbTasks s) = option_map r_task (find_row k (tasks_v2 s)).
Proof.
  intros Hnd. unfold getDbTasks.
  assert (Hnd' : NoDup (map id (map r_task (tasks_v2 s)))) by (rewrite map_map; exact Hnd).
  rewrite <- (last_with_perm k _ _ Hnd' (Permutation_sym (sort_by_perm by_id _))).
  destruct (find_row k (tasks_v2 s)) as [r|] eqn:Hf; simpl.
  - apply find_row_some in Hf as [Hk Hin]. apply last_with_unique; auto. apply in_map, Hin.
  - apply find_row_none in Hf. destruct (last_with k _) as [t|] eqn:Hl; [|reflexivity].
    apply last_with_some in Hl as [Hin Hk]. apply in_map_iff in Hin as [r [<- Hr]].
    exfalso. apply Hf. rewrite <- Hk. unfold row_ids. apply (in_map (fun r => id (r_task r))), Hr.
Qed.

(** The row a single added or changed record was applied to agrees with
    the record. *)
Lemma apply_single_agree (d : diff) (t : task) (now : string) (a u : nat) (s s' : store)
    (c : nat * nat) :
  ((exists k, d = File_only k t) \/ (exists k chs dt, d = Changed k chs t dt)) ->
  apply_diffs [d] now a u s = (inl c, s') ->
  exists r, find_row (id t) (tasks_v2 s') = Some r /\ agree_fields t (r_task r).
Proof.
  intros [[k ->]|(k & chs & dt & ->)] H; simpl in H; unfold bind in H;
    destruct (upsert t now s) as [[x|e] s1] eqn:Hu; try discriminate;
    destruct (upsert_ok _ _ _ _ _ Hu) as (_ & _ & _ & _ & Hr & _).
  - destruct (insertTransition _ _ _ _ _ s1) as [[y|e] s2] eqn:Hi; [|discriminate].
    apply insertTransition_ok in Hi. subst s2. inversion H; subst. exact Hr.
  - destruct ((if negb (status dt =? status t)
               then insertTransition (id t) (Some (status dt)) (status t) (File_sync chs) now
               else ret tt) s1) as [[y|e] s2] eqn:Hi; [|discriminate].
    assert (tasks_v2 s2 = tasks_v2 s1) as E.
    { destruct (negb _); [apply insertTransition_ok in Hi; subst; auto|].
      inversion Hi; subst; auto. }
    inversion H; subst. rewrite E. exact Hr.
Qed.

Lemma entry_agree (dm : list (string * task)) (rows0 : list row) (k : string) (ft : task)
    (now : string) (a u : nat) (s s' : store) (c : nat * nat) :
  id ft = k ->
  (forall dt, map_get dm k = Some dt -> exists r0, find_row k rows0 = Some r0 /\ r_task r0 = dt) ->
  key_rows k (tasks_v2 s) = key_rows k rows0 ->
  apply_diffs (file_entry_diffs dm (k, ft)) now a u s = (inl c, s') ->
  exists r, find_row k (tasks_v2 s') = Some r /\ agree_fields ft (r_task r).
Proof.
  intros Hk Hdm Hkr H. simpl in H. destruct (map_get dm k) as [dt|] eqn:Hg.
  - destruct (changes ft dt) as [|ch chs] eqn:Hc.
    + inversion H; subst. destruct (Hdm dt eq_refl) as (r0 & Hf & Hr0).
      exists r0. rewrite find_row_key_rows, Hkr, <- find_row_key_rows. split; [exact Hf|].
      subst dt. apply changes_nil_iff, Hc.
    + subst k. eapply apply_single_agree; [|exact H]. right. eauto.
  - subst k. eapply apply_single_agree; [|exact H]. left. eauto.
Qed.

(** After the file side of a successful apply, every file entry has a row
    that agrees with it. *)
Lemma apply_entries_agree (dm : list (string * task)) (rows0 : list row)
    (E : list (string * task)) (now : string) (a u : nat) (s s' : store) (c : nat * nat) :
  NoDup (map fst E) ->
  (forall k ft, In (k, ft) E -> id ft = k) ->
  (forall k dt, map_get dm k = Some dt -> exists r0, find_row k rows0 = Some r0 /\ r_task r0 = dt) ->
  (forall k ft, In (k, ft) E -> key_rows k (tasks_v2 s) = key_rows k rows0) ->
  apply_diffs (flat_map (file_entry_diffs dm) E) now a u s = (inl c, s') ->
  forall k ft, In (k, ft) E -> exists r, find_row k (tasks_v2 s') = Some r /\ agree_fields ft (r_task r).
Proof.
  revert a u s; induction E as [|[k ft] E IH]; intros a u s Hnd Hid Hdm Hkr H; [intros ? ? []|].
  cbn [flat_map] in H. rewrite apply_diffs_app in H.
  destruct (apply_diffs (file_entry_diffs dm (k, ft)) now a u s) as [[c1|e] s1] eqn:H1;
    [|simpl in H; discriminate].
  simpl in Hnd. inversion Hnd as [|? ? Hnin Hnd']; subst.
  assert (Hk : id ft = k) by (apply Hid; left; reflexivity).
  assert (Hkeys1 : forall k' ft', In (k', ft') E ->
                   forall x, In x (file_entry_diffs dm (k, ft)) -> diff_key x <> Some k').
  { intros k' ft' Hin x Hx. rewrite (file_entry_diffs_key _ _ _ _ Hx), Hk.
    intros Heq. inversion Heq; subst. apply Hnin. apply (in_map fst) in Hin. exact Hin. }
  assert (Hkr1 : forall k' ft', In (k', ft') E -> key_rows k' (tasks_v2 s1) = key_rows k' rows0).
  { intros k' ft' Hin. rewrite <- (Hkr k' ft') by (right; exact Hin).
    apply (apply_diffs_frame _ _ _ _ _ _ _ _ (Hkeys1 k' ft' Hin) H1). }
  assert (IH' := IH _ _ _ Hnd' (fun k0 ft0 Hin => Hid k0 ft0 (or_intror Hin)) Hdm Hkr1 H).
  intros k0 ft0 [Heq|Hin]; [|exact (IH' _ _ Hin)].
  inversion Heq; subst k0 ft0; clear Heq.
  destruct (entry_agree dm rows0 k ft now a u s s1 c1 Hk (Hdm k) (Hkr k ft (or_introl eq_refl)) H1)
    as (r & Hf & Ha).
  exists r. split; [|exact Ha].
  assert (Hkeys2 : forall x, In x (flat_map (file_entry_diffs dm) E) -> diff_key x <> Some k).
  { intros x Hx. apply in_flat_map in Hx as [[k' ft'] [Hin Hx]].
    rewrite (file_entry_diffs_key _ _ _ _ Hx), (Hid k' ft' (or_intror Hin)).
    intros Heq. inversion Heq; subst. apply Hnin. apply (in_map fst) in Hin. exact Hin. }
  destruct (apply_diffs_frame _ _ _ _ _ _ _ _ Hkeys2 H) as [E2 _].
  rewrite find_row_key_rows, E2, <- find_row_key_rows. exact Hf.
Qed.

Lemma apply_diffs_app_inl (l1 l2 : list diff) (now : string) (a u : nat) (s s' : store)
    (c : nat * nat) :
  apply_diffs (l1 ++ l2) now a u s = (inl c, s') ->
  exists c1 s1, apply_diffs l1 now a u s = (inl c1, s1)
  /\ apply_diffs l2 now (fst c1) (snd c1) s1 = (inl c, s').
Proof.
  rewrite apply_diffs_app. destruct (apply_diffs l1 now a u s) as [[c1|e] s1]; [eauto|discriminate].
Qed.

(** [C5] Running [files-to-db] a second time over the same file records
    changes nothing: no record is added or updated, the store (every row
    with its timestamps, the transitions, the sync row) is the one the
    first run left, and the fingerprints the first run recorded are the
    ones the second run computes. The ids of [tasks_v2] are distinct, as
    its primary key makes them. *)
Theorem files_to_db_idempotent (sha256_hex : string -> string) (f : list task)
    (now1 now2 : string) (s0 s1 : store) (c1 : nat * nat * nat) :
  NoDup (row_ids (tasks_v2 s0)) ->
  files_to_db sha256_hex f now1 s0 = (inl c1, s1) ->
  (exists n, files_to_db sha256_hex f now2 s1 = (inl (0, 0, n)%nat, s1))
  /\ files_hash (sync s1) = Some (hashTasks sha256_hex f)
  /\ db_hash (sync s1) = Some (hashTasks sha256_hex (getDbTasks s1)).
Proof.
  intros Hnd0 H1. rewrite files_to_db_unfold in H1.
  destruct (create_missing_ok (map p_id (projects s0)) [] f s0) as (sp & Hc & T & _ & _ & Inc & Pj).
  { intros x []. }
  rewrite Hc in H1.
  destruct (apply_diffs (diffTasks f (getDbTasks s0)) now1 0 0 sp) as [[c|e] s2] eqn:Ha;
    [|discriminate].
  inversion H1; subst s1; clear H1.
  assert (Hnd2 : NoDup (row_ids (tasks_v2 s2)))
    by (apply (apply_diffs_nodup _ _ _ _ _ _ _ Ha); rewrite T; exact Hnd0).
  assert (Hpj2 := apply_diffs_projects _ _ _ _ _ _ _ Ha).
  rewrite diffTasks_split in Ha.
  destruct (apply_diffs_app_inl _ _ _ _ _ _ _ _ Ha) as (cm & sm & Hm & Hdb).
  rewrite apply_diffs_db_only in Hdb
    by (intros d Hd; apply in_flat_map in Hd as [x [_ Hx]]; eapply db_entry_diffs_db_only; eauto).
  inversion Hdb; subst s2; clear Hdb.
  destruct (map_of_keys f) as [Hfk Hfid].
  assert (Hdm : forall k dt, map_get (map_of (getDbTasks s0)) k = Some dt ->
                exists r0, find_row k (tasks_v2 s0) = Some r0 /\ r_task r0 = dt).
  { intros k dt Hg. rewrite map_get_map_of, getDbTasks_lookup in Hg by exact Hnd0.
    destruct (find_row k (tasks_v2 s0)) as [r0|]; [|discriminate].
    inversion Hg; subst. eauto. }
  assert (Hag := apply_entries_agree (map_of (getDbTasks s0)) (tasks_v2 s0) (map_of f)
                   now1 0 0 sp sm cm Hfk Hfid Hdm (fun k ft _ => f_equal (key_rows k) T) Hm).
  set (s1 := set_sync sm (set_hashes (sync sm) (hashTasks sha256_hex f)
                            (hashTasks sha256_hex (getDbTasks sm)))).
  split; [|split; reflexivity].
  assert (Hcm2 : create_missing (map p_id (projects s1)) [] f s1 = (inl tt, s1)).
  { apply create_missing_known. intros t Ht. simpl. rewrite Hpj2.
    destruct (Pj t Ht) as [Hk|Hk]; [apply Inc|]; exact Hk. }
  assert (Hd2 : apply_diffs (diffTasks f (getDbTasks s1)) now2 0 0 s1 = (inl (0, 0)%nat, s1)).
  { change (getDbTasks s1) with (getDbTasks sm). rewrite diffTasks_split.
    replace (flat_map (file_entry_diffs (map_of (getDbTasks sm))) (map_of f))
      with (@nil diff).
    2:{ symmetry. apply flat_map_nil. intros [k ft] Hin. simpl.
        rewrite map_get_map_of, getDbTasks_lookup by exact Hnd2.
        destruct (Hag k ft Hin) as (r & Hf & Hr). rewrite Hf. simpl.
        apply changes_nil_iff in Hr. rewrite Hr. reflexivity. }
    apply apply_diffs_db_only.
    intros d Hd; apply in_flat_map in Hd as [x [_ Hx]]; eapply db_entry_diffs_db_only; eauto. }
  rewrite files_to_db_unfold, Hcm2. cbn beta iota. rewrite Hd2.
  eexists. reflexivity.
Qed.

Lemma files_to_db_idempotent_witness :
  NoDup (row_ids (tasks_v2 store_backlog))
  /\ files_to_db (fun s => s) [task_in_progress] now_1 store_backlog = (inl (0, 1, 0)%nat, store_after_1)
  /\ (exists n, files_to_db (fun s => s) [task_in_progress] now_2 store_after_1
                = (inl (0, 0, n)%nat, store_after_1)).
Proof.
  assert (Hnd : NoDup (row_ids (tasks_v2 store_backlog))) by (simpl; constructor; [intros []|constructor]).
  assert (H1 : files_to_db (fun s => s) [task_in_progress] now_1 store_backlog
               = (inl (0, 1, 0)%nat, store_after_1)) by (vm_compute; reflexivity).
  split; [exact Hnd|]. split; [exact H1|].
  exact (proj1 (files_to_db_idempotent (fun s => s) [task_in_progress] now_1 now_2
                  store_backlog store_after_1 _ Hnd H1)).
Defined.

(* ------------------------------------------------------------------ *)
(** ** Round trip: project, then parse *)

Lemma sapp_assoc (a b c : string) : (a ++ b) ++ c = a ++ (b ++ c).
Proof. induction a as [|x a IH]; simpl; [reflexivity|]. rewrite IH. reflexivity. Qed.

Lemma sapp_nil_r (a : string) : a ++ "" = a.
Proof. induction a as [|x a IH]; simpl; [reflexivity|]. rewrite IH. reflexivity. Qed.

Lemma sconcat_app (l1 l2 : list string) : sconcat (l1 ++ l2) = sconcat l1 ++ sconcat l2.
Proof. induction l1 as [|x l IH]; simpl; [reflexivity|]. rewrite IH, sapp_assoc. reflexivity. Qed.

Lemma unlines_app (l1 l2 : list string) : unlines (l1 ++ l2) = unlines l1 ++ unlines l2.
Proof. unfold unlines. rewrite map_app, sconcat_app. reflexivity. Qed.

Lemma unlines_cons (l : string) (ls : list string) : unlines (l :: ls) = l ++ String "010" (unlines ls).
Proof. unfold unlines. simpl. rewrite sapp_assoc. reflexivity. Qed.

Ltac sflat := repeat progress (simpl; rewrite ?sapp_nil_r, ?sapp_assoc).

Lemma render_task_lines (t : task) : render_task t = unlines (task_lines t).
Proof.
  unfold render_task, task_lines, task_line, unlines.
  destruct (status t =? "done"), (truthy (owner_model t)), (truthy (notes t)); sflat; reflexivity.
Qed.

Lemma sconcat_map_render (ts : list task) :
  sconcat (map render_task ts) = unlines (flat_map task_lines ts).
Proof.
  induction ts as [|t ts IH]; [reflexivity|]. cbn [map flat_map sconcat].
  rewrite unlines_app, IH, render_task_lines. reflexivity.
Qed.

Lemma render_section_lines (ts : list task) (sec : string) :
  render_section ts sec = unlines (section_lines ts sec).
Proof.
  unfold render_section, section_lines. rewrite unlines_cons, unlines_app.
  destruct (section_tasks ts sec) as [|t l] eqn:E.
  - sflat. reflexivity.
  - rewrite <- sconcat_map_render. sflat. reflexivity.
Qed.

Lemma render_file_lines (h : string) (ts : list task) :
  render_file h ts = h ++ String "010" (unlines ("" :: flat_map (section_lines ts) STATUS_ORDER)).
Proof.
  unfold render_file. rewrite unlines_cons.
  assert (E : forall secs, sconcat (map (render_section ts) secs)
                           = unlines (flat_map (section_lines ts) secs)).
  { induction secs as [|x secs IH]; [reflexivity|]. cbn [map flat_map sconcat].
    rewrite unlines_app, IH, render_section_lines. reflexivity. }
  rewrite E. reflexivity.
Qed.

Lemma split_acc_noterm (L s : string) (cur : list ascii) :
  no_term L = true -> split_acc cur (L ++ s) = split_acc (rev (list_ascii_of_string L) ++ cur) s.
Proof.
  revert cur; induction L as [|c L IH]; intros cur H; simpl; [reflexivity|].
  simpl in H. apply andb_true_iff in H as [Hc H]. unfold is_term in Hc.
  destruct (nat_of_ascii c =? 10)%nat eqn:E; [discriminate|].
  rewrite IH by exact H. rewrite <- app_assoc. reflexivity.
Qed.

Lemma split_unlines (ls : list string) :
  Forall (fun l => no_term l = true) ls -> split_acc [] (unlines ls) = (ls ++ [""])%list.
Proof.
  induction ls as [|l ls IH]; intros H; [reflexivity|].
  inversion H as [|? ? Hl Hls]; subst.
  rewrite unlines_cons, split_acc_noterm by exact Hl. rewrite app_nil_r. simpl.
  rewrite IH by exact Hls. f_equal.
  assert (Hcr : match rev (list_ascii_of_string l) with
                | c0 :: r => if (nat_of_ascii c0 =? 13)%nat then r else rev (list_ascii_of_string l)
                | [] => []
                end = rev (list_ascii_of_string l)).
  { destruct (rev (list_ascii_of_string l)) as [|c0 r] eqn:E; [reflexivity|].
    destruct (nat_of_ascii c0 =? 13)%nat eqn:E13; [|reflexivity]. exfalso.
    assert (Hin : In c0 (list_ascii_of_string l)) by (apply in_rev; rewrite E; left; auto).
    clear E Hls IH H. induction l as [|c l IHl]; simpl in *; [contradiction|].
    apply andb_true_iff in Hl as [Hc Hl]. destruct Hin as [<-|Hin]; [|auto].
    unfold is_term in Hc. rewrite E13, orb_true_r in Hc. discriminate. }
  rewrite Hcr, rev_involutive, string_of_list_ascii_of_string. reflexivity.
Qed.

Lemma split_acc_nonempty (cur : list ascii) (s : string) : split_acc cur s <> [].
Proof.
  revert cur; induction s as [|c s IH]; intros cur; simpl; [discriminate|].
  destruct (nat_of_ascii c =? 10)%nat; [discriminate|apply IH].
Qed.

Lemma split_header (h s : string) (cur : list ascii) :
  split_acc cur (h ++ String "010" s)
  = (removelast (split_acc cur (h ++ String "010" "")) ++ split_acc [] s)%list.
Proof.
  revert cur; induction h as [|c h IH]; intros cur; simpl; [reflexivity|].
  destruct (nat_of_ascii c =? 10)%nat; [|apply IH].
  rewrite IH. destruct (split_acc [] (h ++ String "010" "")) eqn:E.
  - exfalso. exact (split_acc_nonempty _ _ E).
  - reflexivity.
Qed.

Lemma span_id_app (tid s : string) :
  all_chars is_id_char tid = true -> span_id (tid ++ String ")" s) = (tid, String ")" s).
Proof.
  induction tid as [|c tid IH]; intros H; [reflexivity|].
  simpl in H. apply andb_true_iff in H as [Hc H]. simpl. rewrite Hc, IH by exact H. reflexivity.
Qed.

Lemma upto_bracket_app (a s : string) :
  all_chars (fun c => negb (ascii_eqb c 93)) a = true ->
  upto_bracket (a ++ String "]" s) = Some (a, s).
Proof.
  induction a as [|c a IH]; intros H; [reflexivity|].
  simpl in H. apply andb_true_iff in H as [Hc H]. unfold ascii_eqb in Hc.
  simpl. apply negb_true_iff in Hc. rewrite Hc, IH by exact H. reflexivity.
Qed.

Lemma valid_priority_tag (p : string) :
  valid_priority p = true ->
  all_chars (fun c => negb (ascii_eqb c 93)) p = true /\ is_priority_tag p = true.
Proof.
  unfold valid_priority. simpl. intros H.
  repeat (apply orb_true_iff in H as [H|H]; [apply String.eqb_eq in H; subst; split; reflexivity|]).
  discriminate.
Qed.

Lemma match_task_line (t : task) :
  wf_task t = true ->
  match_task (task_line t)
  = Some (if status t =? "done" then "x"%char else " "%char, id t, Some (priority t),
          truthy (owner_model t), title t).
Proof.
  unfold wf_task. intros H.
  apply andb_true_iff in H as [H Hnotes]. apply andb_true_iff in H as [H Httl].
  apply andb_true_iff in H as [H How]. apply andb_true_iff in H as [H Hpr].
  apply andb_true_iff in H as [Hid Hst].
  destruct (valid_priority_tag _ Hpr) as [HP _].
  assert (Hne : id t <> "") by (intros E; rewrite E in Hid; discriminate).
  assert (Hidc : all_chars is_id_char (id t) = true) by (unfold id_ok in Hid; destruct (id t); auto).
  unfold title_ok in Httl. unfold owner_ok in How.
  destruct (title t) as [|c ttl] eqn:Et; [discriminate|].
  apply andb_true_iff in Httl as [Httl Hbr]. apply andb_true_iff in Httl as [Httl Hnt].
  apply andb_true_iff in Httl as [Hc _]. simpl in Hc. apply negb_true_iff in Hc.
  unfold task_line. rewrite Et.
  destruct (status t =? "done"); destruct (truthy (owner_model t)) as [o|] eqn:Ho;
    [apply andb_true_iff in How as [How _]; apply andb_true_iff in How as [HO _]
    |apply negb_true_iff in Hbr; unfold ascii_eqb in Hbr
    |apply andb_true_iff in How as [How _]; apply andb_true_iff in How as [HO _]
    |apply negb_true_iff in Hbr; unfold ascii_eqb in Hbr];
    rewrite ?sapp_assoc; simpl (match_task _);
    rewrite span_id_app by exact Hidc;
    destruct (id t) as [|c0 tid]; try congruence; simpl;
    rewrite upto_bracket_app by exact HP; simpl;
    rewrite ?upto_bracket_app by exact HO; do 4 (simpl; rewrite ?Hc, ?Hbr);
    rewrite ?Hc; simpl; simpl in Hnt; rewrite Hnt; reflexivity.
Qed.

Lemma rev_str_app (a b : string) : rev_str (a ++ b) = rev_str b ++ rev_str a.
Proof.
  induction a as [|c a IH]; simpl; [rewrite sapp_nil_r; reflexivity|].
  rewrite IH, sapp_assoc. reflexivity.
Qed.

Lemma rev_str_involutive (s : string) : rev_str (rev_str s) = s.
Proof. induction s as [|c s IH]; simpl; [reflexivity|]. rewrite rev_str_app, IH. reflexivity. Qed.

Lemma drop_ws_clean (s : string) : starts_clean s = true -> drop_ws s = s.
Proof. destruct s as [|c s]; simpl; [discriminate|]. intros H. apply negb_true_iff in H. rewrite H. reflexivity. Qed.

Lemma trim_clean (s : string) :
  starts_clean s = true -> starts_clean (rev_str s) = true -> trim s = s.
Proof.
  intros H1 H2. unfold trim. rewrite (drop_ws_clean s H1), (drop_ws_clean _ H2).
  apply rev_str_involutive.
Qed.

Lemma truthy_norm_owner (o : option string) : truthy o = norm_owner o.
Proof. destruct o as [[|c s]|]; reflexivity. Qed.

Lemma classify_some (acc : string * option string) (x : string) :
  x <> "" -> classify_tag acc (Some x) = if is_priority_tag x then (x, snd acc) else (fst acc, Some x).
Proof. destruct x; [congruence|reflexivity]. Qed.

Lemma tags_of_line (p : string) (o : option string) :
  is_priority_tag p = true -> owner_ok o = true ->
  tags_of (Some p) (truthy o) = (p, truthy o).
Proof.
  intros Hp Ho. unfold owner_ok in Ho. unfold tags_of.
  assert (Hpne : p <> "") by (intros ->; discriminate).
  rewrite classify_some, Hp by exact Hpne. simpl.
  destruct (truthy o) as [x|] eqn:E; [|reflexivity].
  assert (Hx : x <> "") by (intros ->; destruct o as [[|]|]; discriminate).
  apply andb_true_iff in Ho as [_ Ho]. apply negb_true_iff in Ho.
  rewrite classify_some, Ho by exact Hx. reflexivity.
Qed.

Lemma parse_note_line (slug : string) (cur : option string) (n : string) (rest : list string) :
  parse_lines slug cur (("  - note: " ++ n) :: rest) = parse_lines slug cur rest.
Proof. destruct cur; reflexivity. Qed.

Lemma parse_task_lines (slug sec : string) (t : task) (rest : list string) :
  wf_task t = true -> status t = sec ->
  exists p, parse_lines slug (Some sec) (task_lines t ++ rest)
            = p :: parse_lines slug (Some sec) rest
  /\ id p = id t /\ agree_fields p t.
Proof.
  intros Hwf Hsec. assert (Hm := match_task_line t Hwf).
  unfold wf_task in Hwf.
  apply andb_true_iff in Hwf as [H Hnotes]. apply andb_true_iff in H as [H Httl].
  apply andb_true_iff in H as [H How]. apply andb_true_iff in H as [H Hpr].
  destruct (valid_priority_tag _ Hpr) as [_ Hpt].
  assert (Hh : match_header (task_line t) = None)
    by (unfold task_line; destruct (status t =? "done"); reflexivity).
  unfold task_lines. cbn [app parse_lines]. rewrite Hh, Hm, tags_of_line by assumption.
  eexists. split.
  { f_equal. destruct (truthy (notes t)); [apply parse_note_line|reflexivity]. }
  split; [reflexivity|].
  unfold agree_fields; simpl. rewrite truthy_norm_owner.
  unfold title_ok in Httl. apply andb_true_iff in Httl as [Httl _].
  apply andb_true_iff in Httl as [Httl _]. apply andb_true_iff in Httl as [H1 H2].
  rewrite trim_clean by assumption.
  split; [congruence|]. split; [reflexivity|]. split; [|reflexivity].
  destruct (owner_model t) as [[|]|]; reflexivity.
Qed.


Lemma parse_tasks (slug sec : string) (ts : list task) (rest : list string) :
  Forall (fun t => wf_task t = true /\ status t = sec) ts ->
  exists P, parse_lines slug (Some sec) (flat_map task_lines ts ++ rest)
            = (P ++ parse_lines slug (Some sec) rest)%list
  /\ Forall2 same_fields P ts.
Proof.
  induction ts as [|t ts IH]; intros H; [exists []; auto|].
  inversion H as [|? ? [Hw Hs] Hts]; subst.
  cbn [flat_map]. rewrite <- app_assoc.
  destruct (parse_task_lines slug (status t) t (flat_map task_lines ts ++ rest) Hw eq_refl)
    as (p & E & Hid & Ha).
  destruct (IH Hts) as (P & E' & F).
  exists (p :: P). rewrite E, E'. split; [reflexivity|]. constructor; [split; assumption|exact F].
Qed.

Lemma section_tasks_in (ts : list task) (sec : string) (t : task) :
  In t (section_tasks ts sec) -> In t ts /\ status t = sec.
Proof.
  unfold section_tasks. intros H.
  apply (Permutation_in _ (sort_by_perm _ _)) in H.
  apply filter_In in H as [H1 H2]. apply String.eqb_eq in H2. auto.
Qed.

Lemma parse_section (slug : string) (cur : option string) (ts : list task) (sec : string)
    (rest : list string) :
  In sec STATUS_ORDER -> Forall (fun t => wf_task t = true) ts ->
  exists P, parse_lines slug cur (section_lines ts sec ++ rest)
            = (P ++ parse_lines slug (Some sec) rest)%list
  /\ Forall2 same_fields P (section_tasks ts sec).
Proof.
  intros Hsec Hwf.
  assert (Hst : Forall (fun t => wf_task t = true /\ status t = sec) (section_tasks ts sec)).
  { apply Forall_forall. intros t Ht. apply section_tasks_in in Ht as [Hin Hs].
    split; [exact (proj1 (Forall_forall _ _) Hwf t Hin)|exact Hs]. }
  unfold section_lines. cbn [app].
  assert (Hh : parse_lines slug cur (("## " ++ STATUS_HEADERS sec)
                 :: (flat_map task_lines (section_tasks ts sec) ++ [""]) ++ rest)
               = parse_lines slug (Some sec)
                   ((flat_map task_lines (section_tasks ts sec) ++ [""]) ++ rest)).
  { simpl in Hsec.
    repeat (destruct Hsec as [<-|Hsec]; [reflexivity|]). contradiction. }
  rewrite Hh, <- app_assoc.
  destruct (parse_tasks slug sec _ ([""] ++ rest) Hst) as (P & E & F).
  exists P. rewrite E. split; [|exact F]. f_equal.
Qed.

Lemma parse_sections (slug : string) (cur : option string) (ts : list task) (secs : list string)
    (rest : list string) :
  incl secs STATUS_ORDER -> Forall (fun t => wf_task t = true) ts ->
  exists P cur', parse_lines slug cur (flat_map (section_lines ts) secs ++ rest)
                 = (P ++ parse_lines slug cur' rest)%list
  /\ Forall2 same_fields P (flat_map (section_tasks ts) secs).
Proof.
  revert cur; induction secs as [|sec secs IH]; intros cur Hinc Hwf; [exists [], cur; auto|].
  cbn [flat_map]. rewrite <- app_assoc.
  destruct (parse_section slug cur ts sec (flat_map (section_lines ts) secs ++ rest)
              (Hinc sec (or_introl eq_refl)) Hwf) as (P1 & E1 & F1).
  destruct (IH (Some sec) (fun x Hx => Hinc x (or_intror Hx)) Hwf) as (P2 & cur' & E2 & F2).
  exists (P1 ++ P2)%list, cur'. rewrite E1, E2, app_assoc. split; [reflexivity|].
  apply Forall2_app; assumption.
Qed.

Lemma no_term_app (a b : string) : no_term (a ++ b) = no_term a && no_term b.
Proof. induction a as [|c a IH]; simpl; [reflexivity|]. rewrite IH, andb_assoc. reflexivity. Qed.

Lemma all_chars_no_term_id (s : string) : all_chars is_id_char s = true -> no_term s = true.
Proof.
  induction s as [|c s IH]; simpl; [reflexivity|]. intros H.
  apply andb_true_iff in H as [Hc H]. rewrite IH by exact H.
  unfold is_id_char in Hc. unfold is_term.
  destruct (nat_of_ascii c =? 10)%nat eqn:E10; [apply Nat.eqb_eq in E10; rewrite E10 in Hc; discriminate|].
  destruct (nat_of_ascii c =? 13)%nat eqn:E13; [apply Nat.eqb_eq in E13; rewrite E13 in Hc; discriminate|].
  reflexivity.
Qed.

Lemma task_lines_no_term (t : task) :
  wf_task t = true -> Forall (fun l => no_term l = true) (task_lines t).
Proof.
  unfold wf_task. intros H.
  apply andb_true_iff in H as [H Hnotes]. apply andb_true_iff in H as [H Httl].
  apply andb_true_iff in H as [H How]. apply andb_true_iff in H as [H Hpr].
  apply andb_true_iff in H as [Hid Hst].
  assert (Hidn : no_term (id t) = true).
  { apply all_chars_no_term_id. unfold id_ok in Hid. destruct (id t); auto. }
  assert (Hprn : no_term (priority t) = true).
  { unfold valid_priority in Hpr. simpl in Hpr.
    repeat (apply orb_true_iff in Hpr as [Hpr|Hpr];
            [apply String.eqb_eq in Hpr; rewrite Hpr; reflexivity|]). discriminate. }
  assert (Httln : no_term (title t) = true).
  { unfold title_ok in Httl. apply andb_true_iff in Httl as [Httl _].
    apply andb_true_iff in Httl as [_ Httl]. exact Httl. }
  unfold task_lines. constructor.
  - unfold task_line. unfold owner_ok in How.
    destruct (status t =? "done"), (truthy (owner_model t)) as [o|];
      rewrite ?no_term_app; simpl; rewrite ?no_term_app, ?Hidn, ?Hprn, ?Httln; simpl;
      try reflexivity;
      apply andb_true_iff in How as [How _]; apply andb_true_iff in How as [_ How];
      rewrite How; reflexivity.
  - unfold notes_ok in Hnotes. destruct (truthy (notes t)); constructor; [|constructor].
    simpl. exact Hnotes.
Qed.


Lemma parse_skip_none (slug : string) (hl rest : list string) :
  Forall (fun l => match_header l = None) hl ->
  parse_lines slug None (hl ++ rest) = parse_lines slug None rest.
Proof.
  induction hl as [|l hl IH]; intros H; [reflexivity|].
  inversion H as [|? ? Hl Hhl]; subst. simpl. rewrite Hl. apply IH, Hhl.
Qed.

Lemma in_removelast {A : Type} (x : A) (l : list A) : In x (removelast l) -> In x l.
Proof.
  induction l as [|a l IH]; simpl; [auto|].
  destruct l as [|b l]; [intros []|]. intros [<-|H]; [left; auto|right; apply IH, H].
Qed.

Lemma section_lines_no_term (ts : list task) (sec : string) :
  In sec STATUS_ORDER -> Forall (fun t => wf_task t = true) ts ->
  Forall (fun l => no_term l = true) (section_lines ts sec).
Proof.
  intros Hsec Hwf. unfold section_lines. constructor.
  - simpl in Hsec. repeat (destruct Hsec as [<-|Hsec]; [reflexivity|]). contradiction.
  - apply Forall_app. split; [|constructor; [reflexivity|constructor]].
    apply Forall_forall. intros l Hl. apply in_flat_map in Hl as [t [Ht Hl]].
    apply section_tasks_in in Ht as [Ht _].
    exact (proj1 (Forall_forall _ _) (task_lines_no_term t (proj1 (Forall_forall _ _) Hwf t Ht)) l Hl).
Qed.

Lemma parse_render_file (slug h : string) (ts : list task) :
  header_ok h = true -> Forall (fun t => wf_task t = true) ts ->
  Forall2 same_fields (parseTaskFile slug (render_file h ts))
    (flat_map (section_tasks ts) STATUS_ORDER).
Proof.
  intros Hh Hwf. unfold parseTaskFile, split_lines.
  rewrite render_file_lines, split_header, split_unlines.
  2:{ constructor; [reflexivity|]. apply Forall_forall. intros l Hl.
      apply in_flat_map in Hl as [sec [Hsec Hl]].
      exact (proj1 (Forall_forall _ _) (section_lines_no_term ts sec Hsec Hwf) l Hl). }
  rewrite parse_skip_none.
  2:{ apply Forall_forall. intros l Hl. apply in_removelast in Hl.
      unfold header_ok, split_lines in Hh. apply forallb_forall with (x := l) in Hh; [|exact Hl].
      destruct (match_header l); [discriminate|reflexivity]. }
  change (parse_lines slug None (("" :: flat_map (section_lines ts) STATUS_ORDER) ++ [""])%list)
    with (parse_lines slug None (flat_map (section_lines ts) STATUS_ORDER ++ [""])%list).
  destruct (parse_sections slug None ts STATUS_ORDER [""] (incl_refl _) Hwf) as (P & cur' & E & F).
  rewrite E. replace (parse_lines slug cur' [""]) with (@nil task) by (destruct cur'; reflexivity).
  rewrite app_nil_r. exact F.
Qed.

Lemma filter_split_perm {A : Type} (p : A -> bool) (l : list A) :
  Permutation (filter p l ++ filter (fun x => negb (p x)) l)%list l.
Proof.
  induction l as [|a l IH]; simpl; [reflexivity|].
  destruct (p a); simpl.
  - apply perm_skip, IH.
  - rewrite <- Permutation_middle. apply perm_skip, IH.
Qed.

Lemma flat_map_perm_pointwise {A B : Type} (f g : A -> list B) (l : list A) :
  (forall x, In x l -> Permutation (f x) (g x)) -> Permutation (flat_map f l) (flat_map g l).
Proof.
  induction l as [|a l IH]; intros H; simpl; [reflexivity|].
  apply Permutation_app; [apply H; left; reflexivity|apply IH; intros x Hx; apply H; right; exact Hx].
Qed.

Lemma flat_map_ext_in {A B : Type} (f g : A -> list B) (l : list A) :
  (forall x, In x l -> f x = g x) -> flat_map f l = flat_map g l.
Proof.
  induction l as [|a l IH]; intros H; simpl; [reflexivity|].
  rewrite (H a (or_introl eq_refl)), IH; [reflexivity|]. intros x Hx; apply H; right; exact Hx.
Qed.

Lemma filter_implied {A : Type} (p r : A -> bool) (l : list A) :
  (forall x, p x = true -> r x = true) -> filter p l = filter p (filter r l).
Proof.
  intros H. induction l as [|a l IH]; simpl; [reflexivity|].
  destruct (p a) eqn:Hp.
  - rewrite (H a Hp). simpl. rewrite Hp, IH. reflexivity.
  - destruct (r a); simpl; rewrite ?Hp; exact IH.
Qed.

Lemma partition_perm {A : Type} (key : A -> string) (keys : list string) (l : list A) :
  NoDup keys -> Forall (fun x => In (key x) keys) l ->
  Permutation (flat_map (fun k => filter (fun x => key x =? k) l) keys) l.
Proof.
  revert l; induction keys as [|k keys IH]; intros l Hnd Hl.
  - destruct l as [|a l]; [reflexivity|]. inversion Hl as [|? ? Ha _]; contradiction.
  - inversion Hnd as [|? ? Hk Hnd']; subst. cbn [flat_map].
    rewrite (flat_map_ext_in _ (fun k' => filter (fun x => key x =? k')
                                          (filter (fun x => negb (key x =? k)) l))).
    + rewrite IH; [apply filter_split_perm|exact Hnd'|].
      apply Forall_forall. intros x Hx. apply filter_In in Hx as [Hx Hq].
      apply (proj1 (Forall_forall _ _) Hl) in Hx. destruct Hx as [Hx|Hx]; [|exact Hx].
      rewrite Hx, String.eqb_refl in Hq. discriminate.
    + intros k' Hk'. apply filter_implied. intros x Hx.
      apply String.eqb_eq in Hx. rewrite Hx. apply negb_true_iff, String.eqb_neq.
      intros ->. contradiction.
Qed.

Lemma valid_status_in (s : string) : valid_status s = true -> In s STATUS_ORDER.
Proof.
  unfold valid_status. intros H. apply existsb_exists in H as [x [Hx Hs]].
  apply String.eqb_eq in Hs. subst x. simpl in *. tauto.
Qed.

Lemma section_tasks_perm (ts : list task) :
  Forall (fun t => wf_task t = true) ts ->
  Permutation (flat_map (section_tasks ts) STATUS_ORDER) ts.
Proof.
  intros Hwf.
  rewrite (flat_map_perm_pointwise _ (fun sec => filter (fun t => status t =? sec) ts));
    [|intros sec _; apply sort_by_perm].
  apply partition_perm; [repeat constructor; simpl; intuition discriminate|].
  apply Forall_forall. intros t Ht. apply (proj1 (Forall_forall _ _) Hwf) in Ht.
  unfold wf_task in Ht. apply valid_status_in. 
  repeat (apply andb_true_iff in Ht as [Ht ?]). assumption.
Qed.

Lemma last_with_forall2 (k : string) (P Q : list task) (a b : option task) :
  Forall2 same_fields P Q -> keyed_agree a b ->
  keyed_agree (fold_left (fun acc t => if id t =? k then Some t else acc) P a)
              (fold_left (fun acc t => if id t =? k then Some t else acc) Q b).
Proof.
  intros H; revert a b; induction H as [|p q P Q [Hid Hag] _ IH]; intros a b Hab; simpl; [exact Hab|].
  apply IH. rewrite Hid. destruct (id q =? k); [exact Hag|exact Hab].
Qed.

Lemma parse_project_files (files : list (string * string)) (slugs : list string) (db : list task) :
  Forall (fun t => wf_task t = true) db ->
  (forall slug, In slug slugs -> header_ok (header_for files slug) = true) ->
  Forall2 same_fields (parseAllFiles (projectDbToFiles files slugs db))
    (flat_map (fun slug => flat_map (section_tasks (filter (fun t => project_id t =? slug) db))
                             STATUS_ORDER) slugs).
Proof.
  intros Hwf Hh. induction slugs as [|slug slugs IH]; simpl; [constructor|].
  apply Forall2_app.
  - apply parse_render_file; [apply Hh; left; reflexivity|].
    apply Forall_forall. intros t Ht. apply filter_In in Ht as [Ht _].
    exact (proj1 (Forall_forall _ _) Hwf t Ht).
  - apply IH. intros s Hs. apply Hh. right. exact Hs.
Qed.

Lemma project_tasks_perm (slugs : list string) (db : list task) :
  Forall (fun t => wf_task t = true) db -> NoDup slugs ->
  Forall (fun t => In (project_id t) slugs) db ->
  Permutation
    (flat_map (fun slug => flat_map (section_tasks (filter (fun t => project_id t =? slug) db))
                             STATUS_ORDER) slugs) db.
Proof.
  intros Hwf Hnd Hp.
  rewrite (flat_map_perm_pointwise _ (fun slug => filter (fun t => project_id t =? slug) db)).
  - apply partition_perm; assumption.
  - intros slug _. apply section_tasks_perm.
    apply Forall_forall. intros t Ht. apply filter_In in Ht as [Ht _].
    exact (proj1 (Forall_forall _ _) Hwf t Ht).
Qed.


(** [C4] (amended) Projecting the store to text and parsing the text back
    gives an empty diff against the store, when every stored task is
    well-formed ([wf_task]: an id of [[a-z0-9-]], a valid status and
    priority, an owner with no [']'] or line break that is not a [P<digit>]
    tag, a title with no line break and no surrounding blanks that does not
    start with ['['] when the owner is absent, a note with no line break),
    the ids are distinct, the project slugs are distinct and list every
    task's project, and the header kept for each project has no [## ]
    line. The owner, title and note of every task and the kept headers are
    ASCII ([ascii_task], [ascii7]), the text on which the model's
    whitespace, line terminators and [trim] are JavaScript's. *)
Theorem project_then_parse_empty_diff (files : list (string * string)) (slugs : list string)
    (db : list task) :
  Forall (fun t => wf_task t = true) db -> Forall (fun t => ascii_task t = true) db ->
  NoDup (map id db) -> NoDup slugs ->
  Forall (fun t => In (project_id t) slugs) db ->
  (forall slug, In slug slugs ->
     header_ok (header_for files slug) = true /\ ascii7 (header_for files slug) = true) ->
  diffTasks (parseAllFiles (projectDbToFiles files slugs db)) db = [].
Proof.
  intros Hwf _ Hid Hnd Hp Hh. apply diffTasks_nil_iff. intros k.
  rewrite (last_with_perm k db _ Hid (Permutation_sym (project_tasks_perm slugs db Hwf Hnd Hp))).
  apply last_with_forall2; [|exact I].
  apply parse_project_files; [exact Hwf|]. intros slug Hs. exact (proj1 (Hh slug Hs)).
Qed.

Lemma project_then_parse_empty_diff_witness :
  diffTasks (parseAllFiles (projectDbToFiles [("p", file_p_existing)] ["p"]
                              [with_note; other_task])) [with_note; other_task] = [].
Proof.
  apply project_then_parse_empty_diff.
  - constructor; [vm_compute; reflexivity|constructor; [vm_compute; reflexivity|constructor]].
  - constructor; [vm_compute; reflexivity|constructor; [vm_compute; reflexivity|constructor]].
  - constructor; [simpl; intros [H|[]]; discriminate|constructor; [intros []|constructor]].
  - constructor; [intros []|constructor].
  - constructor; [simpl; left; reflexivity|constructor; [simpl; left; reflexivity|constructor]].
  - intros slug [<-|[]]. split; vm_compute; reflexivity.
Defined.

(** [C4] (counterexample) A stored task with no owner and the title
    [[b] c] is projected as [- [ ] (task:p-002) [P2] [b] c]; the parser
    reads [b] as the owner and [c] as the title, so the diff is not
    empty. *)
Lemma bracket_title_not_fixed :
  parseAllFiles (projectDbToFiles [] ["p"] [bracket_title]) = [bracket_title_parsed]
  /\ diffTasks (parseAllFiles (projectDbToFiles [] ["p"] [bracket_title])) [bracket_title] <> [].
Proof. split; vm_compute; [reflexivity|discriminate]. Qed.

(* ------------------------------------------------------------------ *)
(** ** Further properties of the code *)

(* ---- diff classification ---- *)

Lemma in_diffTasks (f d : list task) (x : diff) :
  In x (diffTasks f d) <->
  match x with
  | File_only k t => last_with k f = Some t /\ last_with k d = None
  | Changed k chs ft dt => last_with k f = Some ft /\ last_with k d = Some dt
                          /\ chs = changes ft dt /\ chs <> []
  | Db_only k t => last_with k d = Some t /\ last_with k f = None
  end.
Proof.
  rewrite diffTasks_split, in_app_iff.
  destruct (map_of_keys f) as [Hfk Hfid]. destruct (map_of_keys d) as [Hdk Hdid].
  split.
  - intros [H|H]; apply in_flat_map in H as [[k t] [Hin Hx]].
    + pose proof (map_get_in _ _ _ Hfk Hin) as Hg. rewrite map_get_map_of in Hg.
      simpl in Hx. rewrite map_get_map_of in Hx.
      destruct (last_with k d) as [dt|] eqn:Hd.
      * destruct (changes t dt) as [|c cs] eqn:Hc; [contradiction|].
        destruct Hx as [<-|[]]. rewrite Hc. repeat split; auto. discriminate.
      * destruct Hx as [<-|[]]. split; assumption.
    + pose proof (map_get_in _ _ _ Hdk Hin) as Hg. rewrite map_get_map_of in Hg.
      simpl in Hx. rewrite map_get_map_of in Hx.
      destruct (last_with k f) eqn:Hf; [contradiction|]. destruct Hx as [<-|[]]. split; assumption.
  - destruct x as [k t|k chs ft dt|k t].
    + intros [Hf Hd]. left. apply in_flat_map. exists (k, t).
      rewrite <- map_get_map_of in Hf. split; [apply map_get_some_in, Hf|].
      simpl. rewrite map_get_map_of, Hd. left; reflexivity.
    + intros (Hf & Hd & Hc & Hne). left. apply in_flat_map. exists (k, ft).
      rewrite <- map_get_map_of in Hf. split; [apply map_get_some_in, Hf|].
      simpl. rewrite map_get_map_of, Hd. subst chs.
      destruct (changes ft dt); [contradiction|left; reflexivity].
    + intros [Hd Hf]. right. apply in_flat_map. exists (k, t).
      rewrite <- map_get_map_of in Hd. split; [apply map_get_some_in, Hd|].
      simpl. rewrite map_get_map_of, Hf. left; reflexivity.
Qed.

(** An entry of [diffTasks(fileTasks, dbTasks)] is [file_only] for id [k]
    exactly when [k] has a record in the files (the last one with that id)
    and none in the store; [changed] exactly when both sides have one and
    the list of changed fields it carries is that of the two records and
    not empty; [db_only] exactly when [k] has a stored record and none in
    the files. *)
Theorem diffTasks_entries (f d : list task) (x : diff) :
  In x (diffTasks f d) <->
  match x with
  | File_only k t => last_with k f = Some t /\ last_with k d = None
  | Changed k chs ft dt => last_with k f = Some ft /\ last_with k d = Some dt
                          /\ chs = changes ft dt /\ chs <> []
  | Db_only k t => last_with k d = Some t /\ last_with k f = None
  end.
Proof. apply in_diffTasks. Qed.

(** A task list compared with itself gives no difference, also when
    ids repeat. *)
Theorem diffTasks_self (f : list task) : diffTasks f f = [].
Proof. apply diffTasks_nil_iff. intros k. apply keyed_agree_refl. Qed.

Lemma keyed_agree_sym (x y : option task) : keyed_agree x y -> keyed_agree y x.
Proof.
  destruct x, y; simpl; auto. unfold agree_fields. intuition congruence.
Qed.

(** [diffTasks] finds no difference between [A] and [B] exactly
    when it finds none between [B] and [A]. *)
Theorem diffTasks_nil_sym (f d : list task) : diffTasks f d = [] <-> diffTasks d f = [].
Proof.
  rewrite !diffTasks_nil_iff. split; intros H k; apply keyed_agree_sym, H.
Qed.

Lemma diff_ids_file_side (dm E : list (string * task)) :
  NoDup (map fst E) ->
  NoDup (map diff_id (flat_map (file_entry_diffs dm) E))
  /\ (forall x, In x (flat_map (file_entry_diffs dm) E) -> In (diff_id x) (map fst E)).
Proof.
  induction E as [|[k t] E IH]; intros Hnd; [split; [constructor|intros _ []]|].
  inversion Hnd as [|? ? Hk Hnd']; subst. destruct (IH Hnd') as [IH1 IH2].
  assert (Hone : forall x, In x (file_entry_diffs dm (k, t)) -> diff_id x = k).
  { intros x. simpl. destruct (map_get dm k); [destruct (changes t t0)|];
      intros H; repeat destruct H as [<-|H]; try contradiction; reflexivity. }
  assert (Hlen : NoDup (map diff_id (file_entry_diffs dm (k, t)))).
  { simpl. destruct (map_get dm k); [destruct (changes t t0)|]; repeat constructor; intros []. }
  cbn [flat_map]. rewrite map_app. split.
  - apply NoDup_app; [exact Hlen|exact IH1|].
    intros a Ha Ha'. apply in_map_iff in Ha as [x [<- Hx]]. rewrite (Hone x Hx) in Ha'.
    apply in_map_iff in Ha' as [y [Hy Hy']]. apply Hk. rewrite <- Hy. apply IH2, Hy'.
  - intros x Hx. apply in_app_or in Hx as [Hx|Hx].
    + left. symmetry. apply Hone, Hx.
    + right. apply IH2, Hx.
Qed.

Lemma diff_ids_db_side (fm E : list (string * task)) :
  NoDup (map fst E) ->
  NoDup (map diff_id (flat_map (db_entry_diffs fm) E))
  /\ (forall x, In x (flat_map (db_entry_diffs fm) E) -> In (diff_id x) (map fst E) /\ map_get fm (diff_id x) = None).
Proof.
  induction E as [|[k t] E IH]; intros Hnd; [split; [constructor|intros _ []]|].
  inversion Hnd as [|? ? Hk Hnd']; subst. destruct (IH Hnd') as [IH1 IH2].
  assert (Hone : forall x, In x (db_entry_diffs fm (k, t)) -> diff_id x = k /\ map_get fm k = None).
  { intros x. simpl. destruct (map_get fm k); intros H; [contradiction|].
    destruct H as [<-|[]]. auto. }
  assert (Hlen : NoDup (map diff_id (db_entry_diffs fm (k, t)))).
  { simpl. destruct (map_get fm k); repeat constructor; intros []. }
  cbn [flat_map]. rewrite map_app. split.
  - apply NoDup_app; [exact Hlen|exact IH1|].
    intros a Ha Ha'. apply in_map_iff in Ha as [x [<- Hx]]. rewrite (proj1 (Hone x Hx)) in Ha'.
    apply in_map_iff in Ha' as [y [Hy Hy']]. apply Hk. rewrite <- Hy. apply IH2, Hy'.
  - intros x Hx. apply in_app_or in Hx as [Hx|Hx].
    + destruct (Hone x Hx) as [-> Hn]. split; [left; reflexivity|exact Hn].
    + destruct (IH2 x Hx) as [H1 H2]. split; [right; exact H1|exact H2].
Qed.

(** No id is reported twice by [diffTasks], also when a side
    lists an id more than once. *)
Theorem diffTasks_ids_distinct (f d : list task) : NoDup (map diff_id (diffTasks f d)).
Proof.
  rewrite diffTasks_split, map_app.
  destruct (map_of_keys f) as [Hfk _]. destruct (map_of_keys d) as [Hdk _].
  destruct (diff_ids_file_side (map_of d) (map_of f) Hfk) as [N1 I1].
  destruct (diff_ids_db_side (map_of f) (map_of d) Hdk) as [N2 I2].
  apply NoDup_app; [exact N1|exact N2|].
  intros a Ha Ha'. apply in_map_iff in Ha as [x [<- Hx]]. apply in_map_iff in Ha' as [y [Hy Hy']].
  apply I1 in Hx. destruct (I2 y Hy') as [_ Hn]. rewrite Hy in Hn.
  apply in_map_iff in Hx as [[k v] [Hk Hin]]. simpl in Hk. subst k.
  rewrite (map_get_in _ _ _ (proj1 (map_of_keys f)) Hin) in Hn. discriminate.
Qed.

Lemma apply_diffs_counts (ds : list diff) (now : string) (a u : nat) (s s' : store) (c : nat * nat) :
  apply_diffs ds now a u s = (inl c, s') ->
  c = (a + length (filter is_file_only ds), u + length (filter is_changed ds))%nat.
Proof.
  revert a u s; induction ds as [|d ds IH]; intros a u s H.
  - simpl in H. unfold ret in H. inversion H; subst. simpl. f_equal; lia.
  - destruct d as [k t|k chs t dt|k t]; simpl in H |- *.
    + unfold bind at 1 in H. destruct (upsert t now s) as [[x|e] s1]; [|discriminate].
      unfold bind at 1 in H. destruct (insertTransition _ _ _ _ _ s1) as [[y|e] s2]; [|discriminate].
      apply IH in H. rewrite H. f_equal; lia.
    + unfold bind at 1 in H. destruct (upsert t now s) as [[x|e] s1]; [|discriminate].
      unfold bind at 1 in H.
      destruct ((if negb (status dt =? status t) then _ else ret tt) s1) as [[y|e] s2]; [|discriminate].
      apply IH in H. rewrite H. f_equal; lia.
    + apply IH in H. exact H.
Qed.

(** When the files -> DB apply succeeds, its counts (added,
    updated, DB-only) are the numbers of [file_only], [changed] and
    [db_only] entries of the diff of the file tasks against the stored
    tasks. *)
Theorem files_to_db_counts (sha256_hex : string -> string) (f : list task) (now : string)
    (s s' : store) (c : nat * nat * nat) :
  files_to_db sha256_hex f now s = (inl c, s') ->
  c = (length (filter is_file_only (diffTasks f (getDbTasks s))),
       length (filter is_changed (diffTasks f (getDbTasks s))),
       length (filter is_db_only (diffTasks f (getDbTasks s)))).
Proof.
  rewrite files_to_db_unfold.
  destruct (create_missing _ _ _ s) as [[x|e] sp]; [|discriminate].
  destruct (apply_diffs _ now 0 0 sp) as [[c2|e] s2] eqn:Ha; [|discriminate].
  intros H. inversion H; subst c. apply apply_diffs_counts in Ha. rewrite Ha. reflexivity.
Qed.

Lemma files_to_db_agree (sha256_hex : string -> string) (f : list task) (now : string)
    (s0 s1 : store) (c : nat * nat * nat) :
  NoDup (row_ids (tasks_v2 s0)) ->
  files_to_db sha256_hex f now s0 = (inl c, s1) ->
  NoDup (row_ids (tasks_v2 s1))
  /\ (forall k ft, In (k, ft) (map_of f) ->
        exists r, find_row k (tasks_v2 s1) = Some r /\ agree_fields ft (r_task r)).
Proof.
  intros Hnd0 H1. rewrite files_to_db_unfold in H1.
  destruct (create_missing_ok (map p_id (projects s0)) [] f s0) as (sp & Hc & T & _ & _ & _ & _).
  { intros x []. }
  rewrite Hc in H1.
  destruct (apply_diffs (diffTasks f (getDbTasks s0)) now 0 0 sp) as [[c2|e] s2] eqn:Ha;
    [|discriminate].
  inversion H1; subst s1; clear H1.
  assert (Hnd2 : NoDup (row_ids (tasks_v2 s2)))
    by (apply (apply_diffs_nodup _ _ _ _ _ _ _ Ha); rewrite T; exact Hnd0).
  split; [exact Hnd2|].
  rewrite diffTasks_split in Ha.
  destruct (apply_diffs_app_inl _ _ _ _ _ _ _ _ Ha) as (cm & sm & Hm & Hdb).
  rewrite apply_diffs_db_only in Hdb
    by (intros d Hd; apply in_flat_map in Hd as [x [_ Hx]]; eapply db_entry_diffs_db_only; eauto).
  inversion Hdb; subst s2; clear Hdb.
  destruct (map_of_keys f) as [Hfk Hfid].
  assert (Hdm : forall k dt, map_get (map_of (getDbTasks s0)) k = Some dt ->
                exists r0, find_row k (tasks_v2 s0) = Some r0 /\ r_task r0 = dt).
  { intros k dt Hg. rewrite map_get_map_of, getDbTasks_lookup in Hg by exact Hnd0.
    destruct (find_row k (tasks_v2 s0)) as [r0|]; [|discriminate].
    inversion Hg; subst. eauto. }
  exact (apply_entries_agree (map_of (getDbTasks s0)) (tasks_v2 s0) (map_of f)
           now 0 0 sp sm cm Hfk Hfid Hdm (fun k ft _ => f_equal (key_rows k) T) Hm).
Qed.

Lemma files_to_db_db_only (sha256_hex : string -> string) (f : list task) (now : string)
    (s0 s1 : store) (c : nat * nat * nat) :
  NoDup (row_ids (tasks_v2 s0)) ->
  files_to_db sha256_hex f now s0 = (inl c, s1) ->
  Forall (fun d => is_db_only d = true) (diffTasks f (getDbTasks s1)).
Proof.
  intros Hnd0 H1. destruct (files_to_db_agree _ _ _ _ _ _ Hnd0 H1) as [Hnd1 Hag].
  apply Forall_forall. intros x Hx. pose proof Hx as Hx'. apply in_diffTasks in Hx'.
  destruct x as [k t|k chs ft dt|k t]; [exfalso|exfalso|reflexivity].
  - destruct Hx' as [Hf Hd]. rewrite <- map_get_map_of in Hf.
    destruct (Hag k t (map_get_some_in _ _ _ Hf)) as (r & Hr & _).
    rewrite getDbTasks_lookup, Hr in Hd by exact Hnd1. discriminate.
  - destruct Hx' as (Hf & Hd & Hc & Hne). rewrite <- map_get_map_of in Hf.
    destruct (Hag k ft (map_get_some_in _ _ _ Hf)) as (r & Hr & Ha).
    rewrite getDbTasks_lookup, Hr in Hd by exact Hnd1. inversion Hd; subst dt.
    apply changes_nil_iff in Ha. congruence.
Qed.

(** When the stored ids are distinct and the apply succeeds,
    the diff of the same file tasks against the stored tasks afterwards has
    only [db_only] entries. *)
Theorem files_to_db_then_check (sha256_hex : string -> string) (f : list task) (now : string)
    (s0 s1 : store) (c : nat * nat * nat) :
  NoDup (row_ids (tasks_v2 s0)) ->
  files_to_db sha256_hex f now s0 = (inl c, s1) ->
  Forall (fun d => is_db_only d = true) (diffTasks f (getDbTasks s1)).
Proof. apply files_to_db_db_only. Qed.

(* ---- parser invariants ---- *)

Lemma drop_ws_suffix (s : string) : exists p, s = p ++ drop_ws s.
Proof.
  induction s as [|c s IH]; simpl; [exists ""; reflexivity|].
  destruct (is_ws c); [destruct IH as [p Hp]; exists (String c p); simpl; congruence|].
  exists ""; reflexivity.
Qed.

Lemma drop_ws_result (s : string) : drop_ws s = "" \/ starts_clean (drop_ws s) = true.
Proof.
  induction s as [|c s IH]; simpl; [left; reflexivity|].
  destruct (is_ws c) eqn:Hc; [exact IH|right; simpl; rewrite Hc; reflexivity].
Qed.

Lemma starts_clean_app (a b : string) : a <> "" -> starts_clean (a ++ b) = starts_clean a.
Proof. destruct a; [congruence|reflexivity]. Qed.

Lemma rev_str_nonempty (s : string) : s <> "" -> rev_str s <> "".
Proof.
  intros H E. apply H. rewrite <- (rev_str_involutive s), E. reflexivity.
Qed.

Lemma trim_trimmed (s : string) : trimmed (trim s) = true.
Proof.
  unfold trim. set (u := rev_str (drop_ws s)).
  destruct (drop_ws_suffix u) as [p Hp].
  destruct (drop_ws_result u) as [E|Hv]; [rewrite E; reflexivity|].
  set (v := drop_ws u) in *.
  assert (Hvne : v <> "") by (intros E; rewrite E in Hv; discriminate).
  assert (Hr : rev_str v <> "") by (apply rev_str_nonempty, Hvne).
  assert (Ht : forall x, x <> "" -> trimmed x = starts_clean x && starts_clean (rev_str x))
    by (intros x; destruct x; [congruence|reflexivity]).
  rewrite Ht by exact Hr. rewrite rev_str_involutive, Hv, andb_true_r.
  assert (Hd : drop_ws s = rev_str v ++ rev_str p).
  { rewrite <- (rev_str_involutive (drop_ws s)). fold u. rewrite Hp, rev_str_app. reflexivity. }
  destruct (drop_ws_result s) as [E|Hs].
  - rewrite E in Hd. destruct (rev_str v); [congruence|discriminate].
  - rewrite Hd, starts_clean_app in Hs by exact Hr. exact Hs.
Qed.

Lemma first_some_some {A B : Type} (l : list A) (f : A -> option B) (b : B) :
  first_some l f = Some b -> exists a, In a l /\ f a = Some b.
Proof.
  induction l as [|a l IH]; simpl; [discriminate|].
  destruct (f a) eqn:Hf; intros H.
  - inversion H; subst. exists a. auto.
  - destruct (IH H) as [x [Hx Hfx]]. exists x. auto.
Qed.

Lemma upto_bracket_ok (s a r : string) :
  upto_bracket s = Some (a, r) -> all_chars (fun c => negb (ascii_eqb c 93)) a = true.
Proof.
  revert a r; induction s as [|c s IH]; intros a r; simpl; [discriminate|].
  destruct (nat_of_ascii c =? 93)%nat eqn:Hc.
  - intros H; inversion H; reflexivity.
  - destruct (upto_bracket s) as [[a' r']|] eqn:Hu; [|discriminate].
    intros H; inversion H; subst. simpl. unfold ascii_eqb. rewrite Hc. simpl. eapply IH; eauto.
Qed.

Lemma opt_tag_ok (s : string) (x : option string * string) :
  In x (opt_tag s) -> tag_ok (fst x) = true.
Proof.
  unfold opt_tag. destruct s as [|c s'].
  - intros [<-|[]]; reflexivity.
  - destruct (nat_of_ascii c =? 91)%nat; [|intros [<-|[]]; reflexivity].
    destruct (upto_bracket s') as [[a r]|] eqn:Hu; [|intros [<-|[]]; reflexivity].
    intros [<-|[<-|[]]]; [simpl; eapply upto_bracket_ok; eauto|reflexivity].
Qed.

Lemma span_id_ok (s tid r : string) :
  span_id s = (tid, r) -> all_chars is_id_char tid = true.
Proof.
  revert tid r; induction s as [|c s IH]; intros tid r; simpl.
  - intros H; inversion H; reflexivity.
  - destruct (is_id_char c) eqn:Hc.
    + destruct (span_id s) as [a r'] eqn:Hs. intros H; inversion H; subst. simpl.
      rewrite Hc. eapply IH; eauto.
    + intros H; inversion H; reflexivity.
Qed.

Ltac destr_vars H :=
  repeat match type of H with
         | context [match ?x with _ => _ end] => is_var x; destruct x; try discriminate H
         end.

Lemma match_task_ok (line : string) (cb : ascii) (tid : string) (tag1 tag2 : option string)
    (ttl : string) :
  match_task line = Some (cb, tid, tag1, tag2, ttl) ->
  id_ok tid = true /\ tag_ok tag1 = true /\ tag_ok tag2 = true.
Proof.
  unfold match_task. intros H. destr_vars H.
  destruct (_ || _); [|discriminate H].
  destruct (span_id _) as [tid' r] eqn:Hs. destr_vars H.
  apply first_some_some in H as [r1 [_ H]].
  apply first_some_some in H as [[t1 r2] [Ht1 H]]. apply opt_tag_ok in Ht1.
  apply first_some_some in H as [r3 [_ H]].
  apply first_some_some in H as [[t2 r4] [Ht2 H]]. apply opt_tag_ok in Ht2.
  apply first_some_some in H as [r5 [_ H]].
  destruct (dot_plus_end r5); [|discriminate H].
  inversion H; subst. apply span_id_ok in Hs. simpl in *. auto.
Qed.

Lemma STATUS_MAP_valid (k st : string) : STATUS_MAP k = Some st -> valid_status st = true.
Proof.
  unfold STATUS_MAP.
  repeat match goal with |- context [if ?b then _ else _] => destruct b end;
    intros H; inversion H; reflexivity.
Qed.

Lemma classify_tag_ok (acc : string * option string) (tag : option string) :
  is_priority_tag (fst acc) = true -> parsed_owner_ok (snd acc) = true -> tag_ok tag = true ->
  is_priority_tag (fst (classify_tag acc tag)) = true
  /\ parsed_owner_ok (snd (classify_tag acc tag)) = true.
Proof.
  intros H1 H2 H3. destruct tag as [[|c x]|]; [exact (conj H1 H2)| |exact (conj H1 H2)].
  rewrite (classify_some acc (String c x)) by discriminate.
  destruct (is_priority_tag (String c x)) eqn:Hp; [exact (conj Hp H2)|].
  split; [exact H1|]. cbn [snd]. unfold parsed_owner_ok. cbn beta iota.
  unfold tag_ok in H3. cbn beta iota in H3. rewrite Hp, H3. reflexivity.
Qed.

Lemma tags_of_ok (t1 t2 : option string) :
  tag_ok t1 = true -> tag_ok t2 = true ->
  is_priority_tag (fst (tags_of t1 t2)) = true /\ parsed_owner_ok (snd (tags_of t1 t2)) = true.
Proof.
  intros H1 H2. unfold tags_of.
  destruct (classify_tag_ok ("P2", None) t1 eq_refl eq_refl H1) as [A B].
  exact (classify_tag_ok _ t2 A B H2).
Qed.

Lemma parse_lines_ok (slug : string) (cur : option string) (lines : list string) :
  match cur with None => true | Some st => valid_status st end = true ->
  Forall (fun p => parsed_ok slug p = true) (parse_lines slug cur lines).
Proof.
  revert cur; induction lines as [|l ls IH]; intros cur Hcur; simpl; [constructor|].
  destruct (match_header l) as [h|].
  { apply IH. destruct (STATUS_MAP _) eqn:E; [eapply STATUS_MAP_valid; eauto|reflexivity]. }
  destruct cur as [st|]; [|apply IH; reflexivity].
  destruct (match_task l) as [[[[[cb tid] t1] t2] ttl]|] eqn:Hm; [|apply IH; exact Hcur].
  destruct (match_task_ok _ _ _ _ _ _ Hm) as (Hid & Ht1 & Ht2).
  destruct (tags_of_ok t1 t2 Ht1 Ht2) as [Hp Ho].
  destruct (tags_of t1 t2) as [prio model]. simpl in Hp, Ho.
  constructor; [|apply IH; exact Hcur].
  unfold parsed_ok; simpl. rewrite Hcur, Hp, Hid, Ho, !String.eqb_refl, trim_trimmed. simpl.
  unfold note_of. destruct ls as [|l' ls']; [reflexivity|].
  destruct (match_note l'); [apply trim_trimmed|reflexivity].
Qed.

Lemma parse_file_fields (slug content : string) :
  Forall (fun p => parsed_ok slug p = true) (parseTaskFile slug content).
Proof. apply parse_lines_ok. reflexivity. Qed.

(** Every record [parseTaskFile] returns has a valid status, a
    [P<digit>] priority, an id of [[a-z0-9-]], the file's slug as project,
    [tasks/<slug>-tasks.md] as source, an owner that is absent or non-empty,
    not a [P<digit>] tag and without [']'], and a title and a note with no
    surrounding blanks, for an ASCII file none of whose section headers
    names an [Object.prototype] member ([proto_free]). *)
Theorem parseTaskFile_fields (slug content : string) :
  ascii7 content = true -> proto_free content = true ->
  Forall (fun p => parsed_ok slug p = true) (parseTaskFile slug content).
Proof. intros _ _. apply parse_file_fields. Qed.

(* ---- failures of the apply ---- *)

Lemma upsert_fail_cases (t : task) (now : string) (s s' : store) (e : sql_error) :
  In (project_id t) (map p_id (projects s)) ->
  upsert t now s = (inr e, s') ->
  (e = Check_failed "status" /\ valid_status (status t) = false)
  \/ (e = Check_failed "priority" /\ valid_status (status t) = true
      /\ valid_priority (priority t) = false).
Proof.
  intros Hp. unfold upsert.
  destruct (valid_status (status t)) eqn:Hs; simpl.
  2:{ intros H; inversion H; auto. }
  destruct (valid_priority (priority t)) eqn:Hpr; simpl.
  2:{ intros H; inversion H; auto. }
  destruct (find_row (id t) (tasks_v2 s)); [discriminate|].
  replace (existsb (fun p => p_id p =? project_id t) (projects s)) with true; [discriminate|].
  symmetry. apply existsb_exists. apply in_map_iff in Hp as [p [Hp Hin]].
  exists p. split; [exact Hin|]. apply String.eqb_eq. exact Hp.
Qed.

Lemma diffTasks_task_in (f d : list task) (x : diff) (t : task) :
  In x (diffTasks f d) ->
  ((exists k, x = File_only k t) \/ (exists k chs dt, x = Changed k chs t dt)) ->
  In t f.
Proof.
  intros Hx Hd. apply in_diffTasks in Hx.
  destruct Hd as [[k ->]|(k & chs & dt & ->)];
    [destruct Hx as [Hf _]|destruct Hx as [Hf _]]; apply last_with_some in Hf; tauto.
Qed.

Lemma files_to_db_fail_cases (sha256_hex : string -> string) (f : list task) (now : string)
    (s s' : store) (e : sql_error) :
  files_to_db sha256_hex f now s = (inr e, s') ->
  exists t, In t f /\
    ((e = Check_failed "status" /\ valid_status (status t) = false)
     \/ (e = Check_failed "priority" /\ valid_status (status t) = true
         /\ valid_priority (priority t) = false)).
Proof.
  rewrite files_to_db_unfold.
  destruct (create_missing_ok (map p_id (projects s)) [] f s) as (sp & Hc & _ & _ & _ & Inc & Pj).
  { intros x []. }
  rewrite Hc.
  destruct (apply_diffs _ now 0 0 sp) as [[c|e2] s2] eqn:Ha; [discriminate|].
  intros H; inversion H; subst e2 s2; clear H.
  destruct (apply_diffs_fail _ _ _ _ _ _ _ Ha) as (ds1 & d & ds2 & c & t & E & A & D & U).
  assert (Ht : In t f).
  { apply (diffTasks_task_in f (getDbTasks s) d t); [rewrite E; apply in_or_app; right; left; reflexivity|exact D]. }
  exists t. split; [exact Ht|].
  apply (upsert_fail_cases t now s' s' e); [|exact U].
  rewrite (apply_diffs_projects _ _ _ _ _ _ _ A).
  destruct (Pj t Ht) as [Hk|Hk]; [apply Inc|]; exact Hk.
Qed.

(** When every file task has a valid status and priority,
    the apply succeeds. *)
Theorem files_to_db_valid_succeeds (sha256_hex : string -> string) (f : list task) (now : string)
    (s : store) :
  Forall (fun t => valid_status (status t) = true /\ valid_priority (priority t) = true) f ->
  exists c s', files_to_db sha256_hex f now s = (inl c, s').
Proof.
  intros Hv. destruct (files_to_db sha256_hex f now s) as [[c|e] s'] eqn:H; [eauto|exfalso].
  destruct (files_to_db_fail_cases _ _ _ _ _ _ H) as (t & Ht & [[_ Hs]|(_ & _ & Hp)]);
    apply (proj1 (Forall_forall _ _) Hv) in Ht; destruct Ht as [Hs' Hp']; congruence.
Qed.

Lemma parseAllFiles_fields (files : list (string * string)) :
  Forall (fun p => valid_status (status p) = true /\ is_priority_tag (priority p) = true)
    (parseAllFiles files).
Proof.
  apply Forall_forall. intros p Hp. unfold parseAllFiles in Hp.
  apply in_flat_map in Hp as [[slug content] [_ Hp]].
  apply (proj1 (Forall_forall _ _) (parse_file_fields slug content)) in Hp.
  unfold parsed_ok in Hp. repeat (apply andb_true_iff in Hp as [Hp ?]). auto.
Qed.

(** On tasks parsed from ASCII files none of whose section
    headers names an [Object.prototype] member ([proto_free]), the apply can
    only fail on the priority [CHECK], for a parsed task whose priority is a
    [P<digit>] tag other than [P0]..[P3] and [P9]. *)
Theorem files_to_db_parsed_failure (sha256_hex : string -> string) (files : list (string * string))
    (now : string) (s s' : store) (e : sql_error) :
  Forall (fun f => ascii7 (snd f) = true /\ proto_free (snd f) = true) files ->
  files_to_db sha256_hex (parseAllFiles files) now s = (inr e, s') ->
  e = Check_failed "priority"
  /\ exists t, In t (parseAllFiles files) /\ is_priority_tag (priority t) = true
               /\ valid_priority (priority t) = false.
Proof.
  intros _ H. destruct (files_to_db_fail_cases _ _ _ _ _ _ H) as (t & Ht & Hc).
  pose proof (proj1 (Forall_forall _ _) (parseAllFiles_fields files) t Ht) as [Hs Hp].
  destruct Hc as [[_ Hs']|(He & _ & Hp')]; [congruence|].
  split; [exact He|]. exists t. auto.
Qed.

(* ---- what the apply keeps ---- *)

Lemma upsert_keeps_row (t : task) (now : string) (s1 s2 : store) (x : unit) (k : string) (r : row) :
  upsert t now s1 = (inl x, s2) -> find_row k (tasks_v2 s1) = Some r ->
  exists r', find_row k (tasks_v2 s2) = Some r' /\ row_kept r r'.
Proof.
  intros Hu Hf. destruct (String.eqb_spec k (id t)) as [->|Hk].
  - unfold upsert in Hu. rewrite Hf in Hu.
    destruct (negb (valid_status (status t))); [discriminate|].
    destruct (negb (valid_priority (priority t))); [discriminate|].
    inversion Hu; subst; clear Hu. simpl.
    pose proof (find_row_some _ _ _ Hf) as [Hid _].
    eexists. split.
    + apply find_row_replace; [rewrite Hf; discriminate|exact Hid].
    + split; reflexivity.
  - destruct (upsert_ok _ _ _ _ _ Hu) as (_ & _ & _ & Hkr & _).
    exists r. split; [|split; reflexivity].
    rewrite find_row_key_rows, (Hkr k Hk), <- find_row_key_rows. exact Hf.
Qed.

(** Whatever its outcome, the apply keeps every stored task
    row (with its project and [created_at]), removes no project, and leaves
    a project for the slug of every file task. *)
Theorem files_to_db_keeps_rows (sha256_hex : string -> string) (f : list task) (now : string)
    (s0 : store) :
  (forall k r, find_row k (tasks_v2 s0) = Some r ->
     exists r', find_row k (tasks_v2 (snd (files_to_db sha256_hex f now s0))) = Some r'
                /\ row_kept r r')
  /\ incl (map p_id (projects s0)) (map p_id (projects (snd (files_to_db sha256_hex f now s0))))
  /\ (forall t, In t f -> In (project_id t) (map p_id (projects (snd (files_to_db sha256_hex f now s0))))).
Proof.
  rewrite files_to_db_unfold.
  destruct (create_missing_ok (map p_id (projects s0)) [] f s0) as (sp & Hc & T & _ & _ & Inc & Pj).
  { intros x []. }
  rewrite Hc.
  set (P := fun s => forall k r, find_row k (tasks_v2 s0) = Some r ->
                       exists r', find_row k (tasks_v2 s) = Some r' /\ row_kept r r').
  assert (P0 : P sp) by (intros k r Hr; exists r; rewrite T; split; [exact Hr|split; reflexivity]).
  assert (HP : forall ds a u s' res, apply_diffs ds now a u sp = (res, s') -> P s').
  { intros ds a u s' res Ha. eapply (apply_diffs_invariant P); [| |exact P0|exact Ha].
    - intros t s1 s2 x Hu Hs1 k r Hr. destruct (Hs1 k r Hr) as (r1 & Hr1 & K1).
      destruct (upsert_keeps_row _ _ _ _ _ _ _ Hu Hr1) as (r2 & Hr2 & K2).
      exists r2. split; [exact Hr2|]. destruct K1, K2. split; congruence.
    - intros k fr to rsn s1 Hs1. exact Hs1. }
  destruct (apply_diffs (diffTasks f (getDbTasks s0)) now 0 0 sp) as [[c|e] s2] eqn:Ha; simpl;
    (split; [exact (HP _ _ _ _ _ Ha)|]); rewrite (apply_diffs_projects _ _ _ _ _ _ _ Ha);
    (split; [exact Inc|]); intros t Ht; (destruct (Pj t Ht); [apply Inc|]); assumption.
Qed.


Lemma acquire_after_release (result : string) (now : Z) (st : sync_state) (m : string) (t : Z) :
  exists st', acquireLock m t (releaseLock result now st) = Acquired st'.
Proof. eexists. reflexivity. Qed.

(** A [files-to-db] or [db-to-files] run either exits with 1 and
    changes nothing, because the lease is held, or ends with the lease
    released and [last_result] ["ok"] (exit 0) or ["failed: " ++ message]
    (exit 1); the next [acquireLock] then succeeds, at any time. *)
Theorem main_releases_lease (sha256_hex : string -> string) (message : sql_error -> string)
    (mode : string) (ck : clock) (w w' : world) (code : Z) :
  mode = "files-to-db" \/ mode = "db-to-files" ->
  main sha256_hex message mode ck w = (code, w') ->
  (code = 1 /\ w' = w /\ lock_free (sync (w_store w)) (t_lock ck) = false)
  \/ (lock_owner (sync (w_store w')) = None /\ lock_until (sync (w_store w')) = None
      /\ ((code = 0 /\ last_result (sync (w_store w')) = Some "ok")
          \/ (code = 1 /\ exists e, last_result (sync (w_store w')) = Some ("failed: " ++ message e)))
      /\ (forall m t, exists st, acquireLock m t (sync (w_store w')) = Acquired st)).
Proof.
  intros [-> | ->] H; unfold main in H; simpl in H;
    destruct (acquireLock _ (t_lock ck) (sync (w_store w))) as [st|o u] eqn:Ea.
  - destruct (syncFilesToDb _ _ _ _ _) as [[c|e] s2]; inversion H; subst; right; simpl;
      (split; [reflexivity|split; [reflexivity|split; [eauto|]]]);
      intros m t; apply acquire_after_release.
  - inversion H; subst. left. split; [reflexivity|split; [reflexivity|]].
    unfold acquireLock in Ea. destruct (lock_free _ _); [discriminate|reflexivity].
  - inversion H; subst; right; simpl.
    (split; [reflexivity|split; [reflexivity|split; [eauto|]]]).
    intros m t; apply acquire_after_release.
  - inversion H; subst. left. split; [reflexivity|split; [reflexivity|]].
    unfold acquireLock in Ea. destruct (lock_free _ _); [discriminate|reflexivity].
Qed.

Lemma db_only_diffs_nil (f d : list task) :
  Forall (fun x => is_db_only x = true) (diffTasks f d) ->
  (diffTasks f d = [] <-> incl (map id d) (map id f)).
Proof.
  intros Hall. split.
  - intros Hnil k Hk. apply in_map_iff in Hk as [t [Hk Ht]].
    destruct (last_with k d) as [t'|] eqn:Ed;
      [|exfalso; exact (last_with_none k d t Ed Ht Hk)].
    destruct (last_with k f) as [tf|] eqn:Ef.
    + apply last_with_some in Ef as [Hin Hid]. rewrite <- Hid. apply in_map. exact Hin.
    + exfalso. assert (Hx : In (Db_only k t') (diffTasks f d)) by (apply in_diffTasks; auto).
      rewrite Hnil in Hx. exact Hx.
  - intros Hincl. destruct (diffTasks f d) as [|x xs] eqn:E; [reflexivity|exfalso].
    assert (Hx : In x (diffTasks f d)) by (rewrite E; left; reflexivity).
    assert (Hd : is_db_only x = true) by (inversion Hall; assumption).
    destruct x as [k t|k chs ft dt|k t]; try discriminate.
    apply in_diffTasks in Hx as [Hd' Hf].
    apply last_with_some in Hd' as [Hin Hid].
    assert (Hk : In k (map id f)) by (apply Hincl; rewrite <- Hid; apply in_map; exact Hin).
    apply in_map_iff in Hk as [t' [Hk' Ht']].
    exact (last_with_none k f t' Hf Ht' Hk').
Qed.

Lemma getDbTasks_ids (s : store) : Permutation (map id (getDbTasks s)) (row_ids (tasks_v2 s)).
Proof.
  unfold getDbTasks, row_ids. rewrite (Permutation_map id (sort_by_perm by_id _)).
  rewrite map_map. reflexivity.
Qed.

(** After a [files-to-db] run that exits with 0 (stored ids
    distinct), a [check] run changes nothing and exits with 0 exactly when
    every stored task id is in the task files. *)
Theorem files_to_db_run_then_check (sha256_hex : string -> string) (message : sql_error -> string)
    (ck ck' : clock) (w w1 w2 : world) (code : Z) :
  NoDup (row_ids (tasks_v2 (w_store w))) ->
  main sha256_hex message "files-to-db" ck w = (0, w1) ->
  main sha256_hex message "check" ck' w1 = (code, w2) ->
  w2 = w1
  /\ (code = 0 <-> incl (row_ids (tasks_v2 (w_store w1)))
                        (map id (parseAllFiles (task_files (w_dir w1))))).
Proof.
  intros Hnd H1 H2. unfold main in H1; simpl in H1.
  destruct (acquireLock _ (t_lock ck) (sync (w_store w))) as [st|o u] eqn:Ea;
    [|discriminate].
  destruct (syncFilesToDb _ _ _ _ _) as [[c|e] s2] eqn:Hs; inversion H1; subst; clear H1.
  change (files_to_db sha256_hex (parseAllFiles (task_files (w_dir w)))
            (sqlite_strftime_iso (t_apply ck)) (set_sync (w_store w) st) = (inl c, s2)) in Hs.
  apply files_to_db_db_only in Hs; [|exact Hnd].
  unfold main in H2; simpl in H2. inversion H2; subst; clear H2. split; [reflexivity|].
  cbn [w_store w_dir].
  change (getDbTasks (release_in "ok" (t_release ck) s2)) with (getDbTasks s2).
  change (tasks_v2 (release_in "ok" (t_release ck) s2)) with (tasks_v2 s2).
  unfold check; cbn [exit_code].
  transitivity (diffTasks (parseAllFiles (task_files (w_dir w))) (getDbTasks s2) = []).
  { destruct (diffTasks _ _); split; intros; congruence. }
  rewrite (db_only_diffs_nil _ _ Hs).
  split; intros Hi k Hk; apply Hi; eapply Permutation_in; try exact Hk;
    [symmetry|]; apply getDbTasks_ids.
Qed.

(* ---- headers ---- *)

Lemma sol_snoc (l : list ascii) (c : ascii) :
  string_of_list_ascii (l ++ [c]) = string_of_list_ascii l ++ String c "".
Proof. induction l as [|x l IH]; simpl; [reflexivity|]. rewrite IH. reflexivity. Qed.

Lemma nl_char (c : ascii) : (nat_of_ascii c =? 10)%nat = true -> c = "010"%char.
Proof.
  intros H. apply Nat.eqb_eq in H. rewrite <- (ascii_nat_embedding c), H. reflexivity.
Qed.

Lemma cur_no_cr (cur : list ascii) :
  Forall (fun c => ascii_eqb c 13 = false) cur ->
  match cur with
  | c0 :: r => if (nat_of_ascii c0 =? 13)%nat then r else cur
  | [] => []
  end = cur.
Proof.
  destruct cur as [|c0 r]; intros H; [reflexivity|].
  inversion H as [|? ? Hc _]; subst. unfold ascii_eqb in Hc. rewrite Hc. reflexivity.
Qed.

Lemma concat_cons (sep x : string) (l : list string) :
  l <> [] -> String.concat sep (x :: l) = x ++ sep ++ String.concat sep l.
Proof. destruct l; [congruence|reflexivity]. Qed.

Lemma split_acc_concat (cur : list ascii) (h : string) :
  all_chars (fun c => negb (ascii_eqb c 13)) h = true ->
  Forall (fun c => ascii_eqb c 13 = false) cur ->
  String.concat nl (split_acc cur h) = string_of_list_ascii (rev cur) ++ h.
Proof.
  revert cur; induction h as [|c h IH]; intros cur Hh Hcur.
  - simpl. rewrite sapp_nil_r. reflexivity.
  - simpl in Hh. apply andb_true_iff in Hh as [Hc Hh]. apply negb_true_iff in Hc.
    cbn [split_acc]. destruct (nat_of_ascii c =? 10)%nat eqn:E10.
    + rewrite (cur_no_cr cur Hcur). apply nl_char in E10. subst c.
      rewrite concat_cons by apply split_acc_nonempty.
      rewrite (IH [] Hh (Forall_nil _)). reflexivity.
    + rewrite (IH (c :: cur) Hh (Forall_cons _ Hc Hcur)). simpl.
      rewrite sol_snoc, sapp_assoc. reflexivity.
Qed.

Lemma split_acc_snoc (cur : list ascii) (h : string) :
  all_chars (fun c => negb (ascii_eqb c 13)) h = true ->
  Forall (fun c => ascii_eqb c 13 = false) cur ->
  split_acc cur (h ++ String "010" "") = (split_acc cur h ++ [""])%list.
Proof.
  revert cur; induction h as [|c h IH]; intros cur Hh Hcur; simpl.
  - rewrite (cur_no_cr cur Hcur). reflexivity.
  - simpl in Hh. apply andb_true_iff in Hh as [Hc Hh]. apply negb_true_iff in Hc.
    destruct (nat_of_ascii c =? 10)%nat.
    + rewrite (IH [] Hh (Forall_nil _)). reflexivity.
    + apply IH; [exact Hh|constructor; assumption].
Qed.

Lemma take_preamble_app (l r : list string) :
  forallb (fun x => negb (starts_with_hh x)) l = true ->
  take_preamble (l ++ r) = (l ++ take_preamble r)%list.
Proof.
  induction l as [|x l IH]; simpl; intros H; [reflexivity|].
  apply andb_true_iff in H as [Hx H]. apply negb_true_iff in Hx. rewrite Hx, IH by exact H.
  reflexivity.
Qed.

Lemma concat_snoc (sep x : string) (l : list string) :
  l <> [] -> String.concat sep (l ++ [x]) = String.concat sep l ++ sep ++ x.
Proof.
  induction l as [|y l IH]; intros H; [congruence|].
  destruct l as [|z l]; [reflexivity|].
  rewrite <- app_comm_cons, concat_cons by (destruct (z :: l); discriminate).
  rewrite IH by discriminate. rewrite (concat_cons sep y (z :: l)) by discriminate.
  rewrite !sapp_assoc. reflexivity.
Qed.

Lemma preamble_render_clean (h : string) (ts : list task) :
  header_clean h = true -> preamble (render_file h ts) = h.
Proof.
  unfold header_clean. intros H. apply andb_true_iff in H as [H _].
  apply andb_true_iff in H as [H Hhh].
  apply andb_true_iff in H as [Hcr Htrim]. apply String.eqb_eq in Htrim.
  unfold preamble. rewrite render_file_lines. unfold split_lines.
  rewrite split_header, (split_acc_snoc [] h Hcr (Forall_nil _)), removelast_last.
  rewrite take_preamble_app by exact Hhh.
  replace (take_preamble (split_acc [] (unlines ("" :: flat_map (section_lines ts) STATUS_ORDER))))
    with [""] by reflexivity.
  rewrite concat_snoc by apply split_acc_nonempty.
  rewrite (split_acc_concat [] h Hcr (Forall_nil _)). simpl.
  unfold trimEnd in *. rewrite rev_str_app. simpl. exact Htrim.
Qed.

(** The header read back from a file rendered with header [h] is
    [h], when [h] has no [\r], no trailing blank and no line starting with
    [## ]. *)
Theorem preamble_render_file (h : string) (ts : list task) :
  header_clean h = true -> preamble (render_file h ts) = h.
Proof. apply preamble_render_clean. Qed.

(* ---- the tasks directory ---- *)

Lemma slength_app (a b : string) : String.length (a ++ b) = (String.length a + String.length b)%nat.
Proof. induction a as [|c a IH]; simpl; [reflexivity|]. rewrite IH. reflexivity. Qed.

Lemma sapp_cancel_r (a b c : string) : a ++ c = b ++ c -> a = b.
Proof.
  revert b; induction a as [|x a IH]; intros b H; destruct b as [|y b].
  - reflexivity.
  - exfalso. apply (f_equal String.length) in H. simpl in H. rewrite slength_app in H. lia.
  - exfalso. apply (f_equal String.length) in H. simpl in H. rewrite slength_app in H. lia.
  - simpl in H. inversion H; subst. f_equal. apply IH. assumption.
Qed.

Lemma strip_suffix_opt_eq (s suf : string) :
  strip_suffix_opt s suf
  = if s =? suf then Some ""
    else match s with
         | EmptyString => None
         | String c s' => option_map (String c) (strip_suffix_opt s' suf)
         end.
Proof. destruct s; reflexivity. Qed.

Lemma strip_suffix_app (p suf : string) : strip_suffix_opt (p ++ suf) suf = Some p.
Proof.
  induction p as [|c p IH]; cbn [append]; rewrite strip_suffix_opt_eq.
  - rewrite String.eqb_refl. reflexivity.
  - destruct (String.eqb_spec (String c (p ++ suf)) suf) as [E|E].
    + exfalso. apply (f_equal String.length) in E. simpl in E. rewrite slength_app in E. lia.
    + rewrite IH. reflexivity.
Qed.

Lemma strip_suffix_some (s suf p : string) : strip_suffix_opt s suf = Some p -> s = p ++ suf.
Proof.
  revert p; induction s as [|c s IH]; intros p; rewrite strip_suffix_opt_eq.
  - destruct (String.eqb_spec "" suf) as [<-|_]; intros H; inversion H; reflexivity.
  - destruct (String.eqb_spec (String c s) suf) as [<-|_]; intros H; [inversion H; reflexivity|].
    destruct (strip_suffix_opt s suf) as [q|] eqn:Eq; inversion H; subst.
  simpl. rewrite (IH q eq_refl). reflexivity.
Qed.

Lemma writeFileSync_get (d : dir) (n c m : string) :
  lookup_file (writeFileSync d n c) m = if n =? m then Some c else lookup_file d m.
Proof.
  induction d as [|[n0 c0] d IH]; simpl.
  - destruct (n =? m); reflexivity.
  - destruct (String.eqb_spec n0 n) as [->|Hn]; simpl.
    + destruct (n =? m); reflexivity.
    + rewrite IH. destruct (String.eqb_spec n0 m) as [->|Hm];
        destruct (String.eqb_spec n m) as [->|]; congruence.
Qed.

Lemma writeFileSync_same (d : dir) (n c : string) :
  lookup_file d n = Some c -> writeFileSync d n c = d.
Proof.
  induction d as [|[n0 c0] d IH]; simpl; [discriminate|].
  destruct (String.eqb_spec n0 n) as [->|Hn]; intros H.
  - inversion H; subst. reflexivity.
  - rewrite IH by exact H. reflexivity.
Qed.

Lemma writeFileSync_names (d : dir) (n c m : string) :
  In m (map fst (writeFileSync d n c)) -> m = n \/ In m (map fst d).
Proof.
  induction d as [|[n0 c0] d IH]; simpl.
  - intros [<-|[]]. left. reflexivity.
  - destruct (n0 =? n); simpl; intros [<-|H]; auto. destruct (IH H); auto.
Qed.

Lemma writeFileSync_nodup (d : dir) (n c : string) :
  NoDup (map fst d) -> NoDup (map fst (writeFileSync d n c)).
Proof.
  induction d as [|[n0 c0] d IH]; simpl; intros Hnd.
  - constructor; [intros []|constructor].
  - inversion Hnd as [|? ? Hn0 Hnd']; subst.
    destruct (String.eqb_spec n0 n) as [->|Hn]; simpl; constructor; auto.
    intros Hin. apply writeFileSync_names in Hin as [->|Hin]; auto.
Qed.

Lemma write_projection_nodup (d : dir) (W : list (string * string)) :
  NoDup (map fst d) -> NoDup (map fst (write_projection d W)).
Proof.
  revert d; induction W as [|[slug md] W IH]; intros d Hnd; simpl; [exact Hnd|].
  apply IH, writeFileSync_nodup, Hnd.
Qed.

Lemma write_projection_out (d : dir) (W : list (string * string)) (m : string) :
  (forall slug, In slug (map fst W) -> m <> slug ++ TASKS_SUFFIX) ->
  lookup_file (write_projection d W) m = lookup_file d m.
Proof.
  revert d; induction W as [|[slug md] W IH]; intros d H; simpl; [reflexivity|].
  rewrite IH by (intros s Hs; apply H; right; exact Hs).
  rewrite writeFileSync_get.
  destruct (String.eqb_spec (slug ++ TASKS_SUFFIX) m) as [E|]; [|reflexivity].
  exfalso. apply (H slug); [left; reflexivity|symmetry; exact E].
Qed.

Lemma write_projection_in (d : dir) (W : list (string * string)) (slug md : string) :
  NoDup (map fst W) -> In (slug, md) W ->
  lookup_file (write_projection d W) (slug ++ TASKS_SUFFIX) = Some md.
Proof.
  revert d; induction W as [|[s m] W IH]; intros d Hnd Hin; simpl; [contradiction|].
  inversion Hnd as [|? ? Hs Hnd']; subst.
  destruct Hin as [E|Hin].
  - inversion E; subst. rewrite write_projection_out.
    + rewrite writeFileSync_get, String.eqb_refl. reflexivity.
    + intros s' Hs' E'. apply sapp_cancel_r in E'. subst. contradiction.
  - apply IH; assumption.
Qed.

Lemma write_projection_same (d : dir) (W : list (string * string)) :
  (forall slug md, In (slug, md) W -> lookup_file d (slug ++ TASKS_SUFFIX) = Some md) ->
  write_projection d W = d.
Proof.
  revert d; induction W as [|[slug md] W IH]; intros d H; simpl; [reflexivity|].
  rewrite writeFileSync_same by (apply H; left; reflexivity).
  apply IH. intros s m Hin. apply H. right. exact Hin.
Qed.

Lemma task_files_cons (n c : string) (d : dir) :
  task_files ((n, c) :: d)
  = if endsWith n TASKS_SUFFIX then (strip_tasks_suffix n, c) :: task_files d else task_files d.
Proof. unfold task_files. simpl. destruct (endsWith n TASKS_SUFFIX); reflexivity. Qed.

Lemma task_files_lookup (d : dir) (slug : string) :
  lookup_file (task_files d) slug = lookup_file d (slug ++ TASKS_SUFFIX).
Proof.
  induction d as [|[n c] d IH]; [reflexivity|].
  rewrite task_files_cons. unfold endsWith, strip_tasks_suffix. simpl lookup_file at 2.
  destruct (strip_suffix_opt n TASKS_SUFFIX) as [p|] eqn:Es.
  - apply strip_suffix_some in Es. subst n. simpl lookup_file. rewrite IH.
    destruct (String.eqb_spec p slug) as [->|Hp].
    + rewrite String.eqb_refl. reflexivity.
    + destruct (String.eqb_spec (p ++ TASKS_SUFFIX) (slug ++ TASKS_SUFFIX)) as [E|];
        [apply sapp_cancel_r in E; contradiction|reflexivity].
  - rewrite IH. destruct (String.eqb_spec n (slug ++ TASKS_SUFFIX)) as [->|]; [|reflexivity].
    rewrite strip_suffix_app in Es. discriminate.
Qed.

Lemma task_files_in (d : dir) (slug c : string) :
  In (slug, c) (task_files d) <-> In (slug ++ TASKS_SUFFIX, c) d.
Proof.
  unfold task_files. rewrite in_map_iff. split.
  - intros [[n c'] [E Hin]]. apply filter_In in Hin as [Hin Hend].
    unfold endsWith in Hend. unfold strip_tasks_suffix in E.
    destruct (strip_suffix_opt n TASKS_SUFFIX) as [p|] eqn:Es; [|discriminate].
    apply strip_suffix_some in Es. inversion E; subst. exact Hin.
  - intros Hin. exists (slug ++ TASKS_SUFFIX, c). split.
    + unfold strip_tasks_suffix. rewrite strip_suffix_app. reflexivity.
    + apply filter_In. split; [exact Hin|]. unfold endsWith. rewrite strip_suffix_app. reflexivity.
Qed.

Lemma lookup_file_in (d : dir) (n c : string) : lookup_file d n = Some c -> In (n, c) d.
Proof.
  induction d as [|[n0 c0] d IH]; simpl; [discriminate|].
  destruct (String.eqb_spec n0 n) as [->|]; intros H; [inversion H; left; reflexivity|].
  right. apply IH. exact H.
Qed.

Lemma in_lookup_file (d : dir) (n c : string) :
  NoDup (map fst d) -> In (n, c) d -> lookup_file d n = Some c.
Proof.
  induction d as [|[n0 c0] d IH]; simpl; intros Hnd Hin; [contradiction|].
  inversion Hnd as [|? ? Hn0 Hnd']; subst.
  destruct Hin as [E|Hin].
  - inversion E; subst. rewrite String.eqb_refl. reflexivity.
  - destruct (String.eqb_spec n0 n) as [->|]; [|apply IH; assumption].
    exfalso. apply Hn0. change n with (fst (n, c)). apply in_map. exact Hin.
Qed.

Lemma nodup_fst_unique (W : list (string * string)) (k a b : string) :
  NoDup (map fst W) -> In (k, a) W -> In (k, b) W -> a = b.
Proof.
  intros Hnd Ha Hb. apply (in_lookup_file W k a Hnd) in Ha.
  apply (in_lookup_file W k b Hnd) in Hb. congruence.
Qed.

Lemma task_files_nodup (d : dir) : NoDup (map fst d) -> NoDup (task_files d).
Proof.
  induction d as [|[n c] d IH]; intros Hnd; [constructor|].
  inversion Hnd as [|? ? Hn Hnd']; subst.
  rewrite task_files_cons. destruct (endsWith n TASKS_SUFFIX) eqn:He; [|apply IH; exact Hnd'].
  constructor; [|apply IH; exact Hnd'].
  intros Hin. apply task_files_in in Hin. unfold strip_tasks_suffix, endsWith in *.
  destruct (strip_suffix_opt n TASKS_SUFFIX) as [p|] eqn:Es; [|discriminate].
  apply strip_suffix_some in Es. subst n. apply Hn. change (p ++ TASKS_SUFFIX) with (fst (p ++ TASKS_SUFFIX, c)).
  apply in_map. exact Hin.
Qed.

(** After the writes, the task files are exactly the files written, when
    every task file already there was one of them. *)
Lemma task_files_written (d : dir) (W : list (string * string)) :
  NoDup (map fst d) -> NoDup (map fst W) ->
  (forall p, In p (task_files d) -> In (fst p) (map fst W)) ->
  Permutation (task_files (write_projection d W)) W.
Proof.
  intros Hd HW Hold. apply NoDup_Permutation.
  - apply task_files_nodup, write_projection_nodup, Hd.
  - eapply NoDup_map_inv. exact HW.
  - intros [slug c]. rewrite task_files_in. split.
    + intros Hin. apply in_lookup_file in Hin; [|apply write_projection_nodup, Hd].
      destruct (in_dec string_dec slug (map fst W)) as [Hs|Hs].
      * apply in_map_iff in Hs as [[s md] [Es HsW]]. simpl in Es. subst s.
        rewrite (write_projection_in d W slug md HW HsW) in Hin. inversion Hin; subst. exact HsW.
      * rewrite write_projection_out in Hin.
        -- exfalso. apply Hs. apply lookup_file_in in Hin.
           apply (Hold (slug, c)). apply task_files_in. exact Hin.
        -- intros s' Hs' E. apply sapp_cancel_r in E. subst. contradiction.
    + intros HinW. apply lookup_file_in. apply write_projection_in; assumption.
Qed.

(** After the projection's writes, the [-tasks.md] files of
    the directory are, up to order, the files written, when the file names
    and the slugs are distinct and every task file already there has one of
    the slugs. *)
Theorem task_files_write_projection (d : dir) (W : list (string * string)) :
  NoDup (map fst d) -> NoDup (map fst W) ->
  (forall p, In p (task_files d) -> In (fst p) (map fst W)) ->
  Permutation (task_files (write_projection d W)) W.
Proof. apply task_files_written. Qed.

(* ---- the projection, end to end ---- *)

Lemma projectDbToFiles_slugs (files : list (string * string)) (slugs : list string) (db : list task) :
  map fst (projectDbToFiles files slugs db) = slugs.
Proof. unfold projectDbToFiles. rewrite map_map. simpl. apply map_id. Qed.

Lemma project_slugs_perm (s : store) : Permutation (project_slugs s) (map p_id (projects s)).
Proof. apply sort_by_perm. Qed.

Lemma forall2_same_ids (P Q : list task) : Forall2 same_fields P Q -> map id P = map id Q.
Proof. induction 1 as [|p q P Q [Hid _] _ IH]; simpl; congruence. Qed.

Lemma getDbTasks_forall (s : store) (R : task -> Prop) :
  Forall (fun r => R (r_task r)) (tasks_v2 s) -> Forall R (getDbTasks s).
Proof.
  intros H. apply Forall_forall. intros t Ht. unfold getDbTasks in Ht.
  apply (Permutation_in _ (sort_by_perm _ _)) in Ht. apply in_map_iff in Ht as [r [<- Hr]].
  exact (proj1 (Forall_forall _ _) H r Hr).
Qed.

(** After a [db-to-files] run that exits with 0, a [check] run
    exits with 0 and changes nothing, when the stored tasks are well-formed
    ([wf_task]) with distinct ids and existing projects, the project ids
    are distinct, the file names are distinct, every task file has a
    project and no kept header has a [## <text>] line, and the owners,
    titles, notes ([ascii_task]) and kept headers are ASCII. *)
Theorem db_to_files_then_check (sha256_hex : string -> string) (message : sql_error -> string)
    (ck ck' : clock) (w w1 : world) :
  Forall (fun r => wf_task (r_task r) = true) (tasks_v2 (w_store w)) ->
  Forall (fun r => ascii_task (r_task r) = true) (tasks_v2 (w_store w)) ->
  NoDup (row_ids (tasks_v2 (w_store w))) ->
  NoDup (map p_id (projects (w_store w))) ->
  Forall (fun r => In (project_id (r_task r)) (map p_id (projects (w_store w)))) (tasks_v2 (w_store w)) ->
  NoDup (map fst (w_dir w)) ->
  (forall p, In p (task_files (w_dir w)) -> In (fst p) (map p_id (projects (w_store w)))) ->
  (forall slug, In slug (map p_id (projects (w_store w))) ->
     header_ok (header_for (task_files (w_dir w)) slug) = true
     /\ ascii7 (header_for (task_files (w_dir w)) slug) = true) ->
  main sha256_hex message "db-to-files" ck w = (0, w1) ->
  main sha256_hex message "check" ck' w1 = (0, w1).
Proof.
  intros Hwf _ Hid Hpid Hproj Hdir Hfiles Hh H1.
  unfold main in H1; simpl in H1.
  destruct (acquireLock _ (t_lock ck) (sync (w_store w))) as [st|o u] eqn:Ea; [|discriminate].
  inversion H1; subst; clear H1.
  change (getDbTasks (set_sync (w_store w) st)) with (getDbTasks (w_store w)).
  change (project_slugs (set_sync (w_store w) st)) with (project_slugs (w_store w)).
  set (s := w_store w) in *. set (db := getDbTasks s). set (slugs := project_slugs s).
  set (W := projectDbToFiles (task_files (w_dir w)) slugs db).
  unfold main. simpl. f_equal.
  change (getDbTasks (release_in "ok" (t_release ck) (set_sync s st))) with db.
  assert (Hslugs : NoDup slugs)
    by (eapply Permutation_NoDup; [symmetry; apply project_slugs_perm|exact Hpid]).
  assert (Hin_slugs : forall x, In x (map p_id (projects s)) -> In x slugs)
    by (intros x Hx; eapply Permutation_in; [symmetry; apply project_slugs_perm|exact Hx]).
  assert (Hwfdb : Forall (fun t => wf_task t = true) db) by (apply getDbTasks_forall; exact Hwf).
  assert (Hiddb : NoDup (map id db))
    by (eapply Permutation_NoDup; [symmetry; apply getDbTasks_ids|exact Hid]).
  assert (Hpdb : Forall (fun t => In (project_id t) slugs) db).
  { apply getDbTasks_forall. eapply Forall_impl; [|exact Hproj]. intros r Hr. apply Hin_slugs, Hr. }
  assert (Hfiles' : Permutation (task_files (write_projection (w_dir w) W)) W).
  { apply task_files_written; [exact Hdir| |].
    - unfold W. rewrite projectDbToFiles_slugs. exact Hslugs.
    - intros p Hp. unfold W. rewrite projectDbToFiles_slugs. apply Hin_slugs, Hfiles, Hp. }
  assert (HF2 : Forall2 same_fields (parseAllFiles W)
                  (flat_map (fun slug => flat_map (section_tasks (filter (fun t => project_id t =? slug) db))
                                           STATUS_ORDER) slugs)).
  { apply parse_project_files; [exact Hwfdb|].
    intros slug Hs. apply (Hh slug). eapply Permutation_in; [apply project_slugs_perm|exact Hs]. }
  pose proof (project_tasks_perm slugs db Hwfdb Hslugs Hpdb) as HQ.
  assert (HidP : NoDup (map id (parseAllFiles W))).
  { rewrite (forall2_same_ids _ _ HF2).
    eapply Permutation_NoDup; [apply Permutation_map; symmetry; exact HQ|exact Hiddb]. }
  assert (HP : Permutation (parseAllFiles W) (parseAllFiles (task_files (write_projection (w_dir w) W)))).
  { unfold parseAllFiles. apply Permutation_flat_map. symmetry. exact Hfiles'. }
  assert (Hnil : diffTasks (parseAllFiles (task_files (write_projection (w_dir w) W))) db = []).
  { apply diffTasks_nil_iff. intros k.
    rewrite <- (last_with_perm k _ _ HidP HP).
    rewrite (last_with_perm k db _ Hiddb (Permutation_sym HQ)).
    apply last_with_forall2; [exact HF2|exact I]. }
  unfold check. cbn [exit_code]. rewrite Hnil. reflexivity.
Qed.

Lemma header_for_nonempty (files : list (string * string)) (slug : string) :
  header_for files slug <> "".
Proof.
  unfold header_for. destruct (lookup_file files slug); [destruct (preamble s)|]; discriminate.
Qed.

(** A second [db-to-files] run after one that exited with 0
    exits with 0 and leaves the directory as it is, when the project ids are
    distinct and every header the first run kept is clean ([header_clean]). *)
Theorem db_to_files_idempotent (sha256_hex : string -> string) (message : sql_error -> string)
    (ck ck' : clock) (w w1 : world) :
  NoDup (map p_id (projects (w_store w))) ->
  (forall slug, In slug (map p_id (projects (w_store w))) ->
     header_clean (header_for (task_files (w_dir w)) slug) = true) ->
  main sha256_hex message "db-to-files" ck w = (0, w1) ->
  fst (main sha256_hex message "db-to-files" ck' w1) = 0
  /\ w_dir (snd (main sha256_hex message "db-to-files" ck' w1)) = w_dir w1.
Proof.
  intros Hpid Hclean H1.
  unfold main in H1; simpl in H1.
  destruct (acquireLock _ (t_lock ck) (sync (w_store w))) as [st|o u] eqn:Ea; [|discriminate].
  inversion H1; subst; clear H1.
  change (getDbTasks (set_sync (w_store w) st)) with (getDbTasks (w_store w)).
  change (project_slugs (set_sync (w_store w) st)) with (project_slugs (w_store w)).
  set (s := w_store w) in *. set (db := getDbTasks s). set (slugs := project_slugs s).
  set (W := projectDbToFiles (task_files (w_dir w)) slugs db).
  assert (Hslugs : NoDup slugs)
    by (eapply Permutation_NoDup; [symmetry; apply project_slugs_perm|exact Hpid]).
  assert (HW : NoDup (map fst W)) by (unfold W; rewrite projectDbToFiles_slugs; exact Hslugs).
  assert (Hsame : projectDbToFiles (task_files (write_projection (w_dir w) W)) slugs db = W).
  { unfold W at 2, projectDbToFiles. apply map_ext_in. intros slug Hs. f_equal. f_equal.
    unfold header_for at 1. rewrite task_files_lookup.
    rewrite (write_projection_in (w_dir w) W slug
               (render_file (header_for (task_files (w_dir w)) slug)
                  (filter (fun t => project_id t =? slug) db)) HW).
    - rewrite preamble_render_clean.
      + destruct (header_for (task_files (w_dir w)) slug) eqn:E;
          [exfalso; exact (header_for_nonempty _ _ E)|reflexivity].
      + apply Hclean. eapply Permutation_in; [apply project_slugs_perm|exact Hs].
    - unfold W, projectDbToFiles. apply in_map_iff. exists slug. split; [reflexivity|exact Hs]. }
  unfold main. simpl.
  change (getDbTasks (set_sync (release_in "ok" (t_release ck) (set_sync s st)) _)) with db.
  change (project_slugs (set_sync (release_in "ok" (t_release ck) (set_sync s st)) _)) with slugs.
  rewrite Hsame. split; [reflexivity|].
  apply write_projection_same. intros slug md Hin. apply write_projection_in; assumption.
Qed.

(* ------------------------------------------------------------------ *)
(** ** Instances of the properties above *)

Ltac nodup_lit := vm_compute; repeat constructor; simpl; intuition discriminate.

Lemma files_to_db_counts_witness :
  (0, 1, 0)%nat
  = (length (filter is_file_only (diffTasks [task_in_progress] (getDbTasks store_backlog))),
     length (filter is_changed (diffTasks [task_in_progress] (getDbTasks store_backlog))),
     length (filter is_db_only (diffTasks [task_in_progress] (getDbTasks store_backlog)))).
Proof.
  apply (files_to_db_counts (fun s => s) [task_in_progress] now_1 store_backlog store_after_1).
  vm_compute. reflexivity.
Defined.

Lemma files_to_db_then_check_witness :
  Forall (fun d => is_db_only d = true) (diffTasks [with_note] (getDbTasks (snd (files_to_db (fun s => s) [with_note] now_1 store_p)))).
Proof.
  apply (files_to_db_then_check (fun s => s) [with_note] now_1 store_p
           (snd (files_to_db (fun s => s) [with_note] now_1 store_p)) (1, 0, 1)%nat).
  - nodup_lit.
  - vm_compute. reflexivity.
Defined.

Lemma parseTaskFile_fields_witness :
  Forall (fun p => parsed_ok "my-proj" p = true) (parseTaskFile "my-proj" file_two_tasks).
Proof.
  apply parseTaskFile_fields; vm_compute; reflexivity.
Defined.

Lemma files_to_db_valid_succeeds_witness :
  exists c s', files_to_db (fun s => s) [task_in_progress] now_1 store_backlog = (inl c, s').
Proof.
  apply files_to_db_valid_succeeds.
  constructor; [split; reflexivity|constructor].
Defined.

Lemma files_to_db_parsed_failure_witness :
  Check_failed "priority" = Check_failed "priority"
  /\ exists t, In t (parseAllFiles [("my-proj", file_two_tasks)])
               /\ is_priority_tag (priority t) = true /\ valid_priority (priority t) = false.
Proof.
  apply (files_to_db_parsed_failure (fun s => s) [("my-proj", file_two_tasks)] now_1 store_empty
           (snd (files_to_db (fun s => s) (parseAllFiles [("my-proj", file_two_tasks)]) now_1 store_empty))).
  - constructor; [split; vm_compute; reflexivity|constructor].
  - vm_compute. reflexivity.
Defined.

Lemma files_to_db_keeps_rows_witness :
  exists r', find_row "p-002" (tasks_v2 (snd (files_to_db (fun s => s) [with_note] now_1 store_p))) = Some r'
             /\ row_kept row_other r'.
Proof.
  apply (proj1 (files_to_db_keeps_rows (fun s => s) [with_note] now_1 store_p)).
  reflexivity.
Defined.

Lemma main_releases_lease_witness :
  (fst sync_run = 1 /\ snd sync_run = world_p
   /\ lock_free (sync (w_store world_p)) (t_lock clock_1) = false)
  \/ (lock_owner (sync (w_store (snd sync_run))) = None
      /\ lock_until (sync (w_store (snd sync_run))) = None
      /\ ((fst sync_run = 0 /\ last_result (sync (w_store (snd sync_run))) = Some "ok")
          \/ (fst sync_run = 1
              /\ exists e, last_result (sync (w_store (snd sync_run))) = Some ("failed: " ++ err_message e)))
      /\ (forall m t, exists st, acquireLock m t (sync (w_store (snd sync_run))) = Acquired st)).
Proof.
  apply (main_releases_lease (fun s => s) err_message "files-to-db" clock_1 world_p
           (snd sync_run) (fst sync_run)).
  - left. reflexivity.
  - vm_compute. reflexivity.
Defined.

Lemma files_to_db_run_then_check_witness :
  snd check_after_sync = snd sync_run
  /\ (fst check_after_sync = 0 <-> incl (row_ids (tasks_v2 (w_store (snd sync_run))))
                                     (map id (parseAllFiles (task_files (w_dir (snd sync_run)))))).
Proof.
  apply (files_to_db_run_then_check (fun s => s) err_message clock_1 clock_2 world_p
           (snd sync_run) (snd check_after_sync) (fst check_after_sync)).
  - nodup_lit.
  - vm_compute. reflexivity.
  - vm_compute. reflexivity.
Defined.

Lemma preamble_render_file_witness :
  preamble (render_file (preamble file_p_existing) [with_note; other_task]) = preamble file_p_existing.
Proof.
  apply preamble_render_file. vm_compute. reflexivity.
Defined.

Lemma task_files_write_projection_witness :
  Permutation (task_files (write_projection dir_p [("p", "x"); ("q", "y")])) [("p", "x"); ("q", "y")].
Proof.
  apply task_files_write_projection.
  - nodup_lit.
  - nodup_lit.
  - intros p Hp. vm_compute in Hp. destruct Hp as [<-|[]]. simpl. left. reflexivity.
Defined.

Lemma db_to_files_then_check_witness :
  main (fun s => s) err_message "check" clock_2 (snd project_run) = (0, snd project_run).
Proof.
  apply (db_to_files_then_check (fun s => s) err_message clock_1 clock_2 world_p (snd project_run)).
  - constructor; [vm_compute; reflexivity|constructor; [vm_compute; reflexivity|constructor]].
  - constructor; [vm_compute; reflexivity|constructor; [vm_compute; reflexivity|constructor]].
  - nodup_lit.
  - nodup_lit.
  - constructor; [simpl; left; reflexivity|constructor; [simpl; left; reflexivity|constructor]].
  - nodup_lit.
  - intros p Hp. vm_compute in Hp. destruct Hp as [<-|[]]. simpl. left. reflexivity.
  - intros slug [<-|[]]. split; vm_compute; reflexivity.
  - vm_compute. reflexivity.
Defined.

Lemma db_to_files_idempotent_witness :
  fst (main (fun s => s) err_message "db-to-files" clock_2 (snd project_run)) = 0
  /\ w_dir (snd (main (fun s => s) err_message "db-to-files" clock_2 (snd project_run)))
     = w_dir (snd project_run).
Proof.
  apply (db_to_files_idempotent (fun s => s) err_message clock_1 clock_2 world_p (snd project_run)).
  - nodup_lit.
  - intros slug [<-|[]]. vm_compute. reflexivity.
  - vm_compute. reflexivity.
Defined.
